(** * Prompt Debugger: the sanitizer [cleanObject] and the console reporter

    A shallow embedding of [src/index.js].  JavaScript values that went
    through [JSON.parse], and what the sanitizer makes of them, are finite
    trees; they are modelled by the inductive type [value].  Values the
    host hands to the extension are references into a mutable heap; they
    are modelled further down by [hvalue] and [heap], so that aliasing,
    cycles and mutation can be stated. *)

From Stdlib Require Import List ZArith NArith Bool Lia Floats Ascii String.
From stdpp Require Import base option list strings gmap pretty.

Open Scope string_scope.
Open Scope list_scope.

(** ** Settings *)

(** [defaultSettings] of the source, field by field. *)
Record settings : Type := mkSettings {
  enabled : bool;
  verboseLogging : bool;
  logToFile : bool;
  logFilePath : string;
  filterOutEmptyFields : bool
}.

Definition defaultSettings : settings :=
  {| enabled := true;
     verboseLogging := false;
     logToFile := false;
     logFilePath := "";
     filterOutEmptyFields := true |}.

(** ** JavaScript values as trees *)

(** A JavaScript number is a binary64 float.  The entries of an object are
    its own properties, listed in property enumeration order (the order of
    [for ... in] and of [Object.keys]).  [VObj entries] is an object with
    the prototype every object literal and every object made by
    [JSON.parse] has; [VProto proto entries] is an object whose prototype is
    the object or array [proto], as the assignment [newObj['__proto__'] =
    proto] makes one (lines 77 and 80 with the key [__proto__]). *)
Unset Elimination Schemes.
Inductive value : Type :=
| VUndefined
| VNull
| VBool (b : bool)
| VNum (x : float)
| VStr (s : string)
| VArr (items : list value)
| VObj (entries : list (string * value))
| VProto (proto : value) (entries : list (string * value)).
Set Elimination Schemes.

(** Induction over a value goes through the elements of an array, the
    values of an object and its prototype. *)
Section value_induction.
Variable P : value -> Prop.
Hypothesis Pundefined : P VUndefined.
Hypothesis Pnull : P VNull.
Hypothesis Pbool : forall b, P (VBool b).
Hypothesis Pnum : forall x, P (VNum x).
Hypothesis Pstr : forall s, P (VStr s).
Hypothesis Parr : forall items, Forall P items -> P (VArr items).
Hypothesis Pobj :
  forall entries, Forall (fun e => P (snd e)) entries -> P (VObj entries).
Hypothesis Pproto :
  forall proto entries,
    P proto -> Forall (fun e => P (snd e)) entries -> P (VProto proto entries).

Fixpoint value_ind (v : value) : P v :=
  match v with
  | VUndefined => Pundefined
  | VNull => Pnull
  | VBool b => Pbool b
  | VNum x => Pnum x
  | VStr s => Pstr s
  | VArr items =>
      Parr items
        ((fix all (l : list value) : Forall P l :=
            match l with
            | [] => @List.Forall_nil _ P
            | x :: rest => @List.Forall_cons _ P x rest (value_ind x) (all rest)
            end) items)
  | VObj entries =>
      Pobj entries
        ((fix all (l : list (string * value))
            : Forall (fun e => P (snd e)) l :=
            match l with
            | [] => @List.Forall_nil _ (fun e => P (snd e))
            | (k, x) :: rest =>
                @List.Forall_cons _ (fun e => P (snd e)) (k, x) rest (value_ind x) (all rest)
            end) entries)
  | VProto proto entries =>
      Pproto proto entries (value_ind proto)
        ((fix all (l : list (string * value))
            : Forall (fun e => P (snd e)) l :=
            match l with
            | [] => @List.Forall_nil _ (fun e => P (snd e))
            | (k, x) :: rest =>
                @List.Forall_cons _ (fun e => P (snd e)) (k, x) rest (value_ind x) (all rest)
            end) entries)
  end.
End value_induction.

(** [v === null || v === undefined] *)
Definition is_nullish (v : value) : bool :=
  match v with
  | VNull | VUndefined => true
  | _ => false
  end.

(** [typeof v === 'object']: true of [null], of arrays and of objects. *)
Definition typeof_object (v : value) : bool :=
  match v with
  | VNull | VArr _ | VObj _ | VProto _ _ => true
  | _ => false
  end.

(** ** Strings

    A string of the model is the text of a JavaScript string in UTF-8, the
    encoding of the string literals of this file; a lone surrogate, for
    which UTF-8 has no form, is written as the three bytes of its code
    point.  JavaScript counts and indexes a string by UTF-16 code units: a
    character below U+10000 is one unit, any other character is two, its
    surrogates. *)

(** The number of bytes that follow the first byte of a character. *)
Definition continuation_bytes (c : ascii) : nat :=
  let n := N_of_ascii c in
  if (n <? 192)%N then 0
  else if (n <? 224)%N then 1
  else if (n <? 240)%N then 2
  else 3.

(** A code unit from U+0800 on, in three bytes. *)
Definition three_bytes (u : N) : string :=
  String (ascii_of_N (224 + u / 4096))
    (String (ascii_of_N (128 + (u / 64) mod 64))
       (String (ascii_of_N (128 + u mod 64)) EmptyString)).

(** The code units of one character, given by its bytes: of a character in
    four bytes the two surrogates, of any other the character itself. *)
Definition character_units (bytes : list ascii) : list string :=
  match List.map N_of_ascii bytes with
  | [b0; b1; b2; b3] =>
      let point :=
        ((b0 mod 8) * 262144 + (b1 mod 64) * 4096 + (b2 mod 64) * 64
         + b3 mod 64)%N in
      let u := (point - 65536)%N in
      [three_bytes (55296 + u / 1024); three_bytes (56320 + u mod 1024)]
  | _ => [string_of_list_ascii bytes]
  end.

(** The code units of a string, in order.  [pending] holds, last byte
    first, the bytes read of the character under way, [missing] the number
    of bytes it still lacks. *)
Fixpoint units_from (s : string) (pending : list ascii) (missing : nat)
  : list string :=
  match s with
  | EmptyString =>
      match pending with
      | [] => []
      | _ => character_units (rev pending)
      end
  | String c rest =>
      match missing with
      | S O => character_units (rev (c :: pending)) ++ units_from rest [] 0
      | S more => units_from rest (c :: pending) more
      | O =>
          match continuation_bytes c with
          | O => String c EmptyString :: units_from rest [] 0
          | more => units_from rest [c] more
          end
      end
  end.

Definition utf16_units (s : string) : list string := units_from s [] 0.

(** [Array.isArray(v)] *)
Definition isArray (v : value) : bool :=
  match v with
  | VArr _ => true
  | _ => false
  end.

(** [v.length] of an array (only used behind [Array.isArray(v) &&]). *)
Definition array_length (v : value) : nat :=
  match v with
  | VArr items => length items
  | _ => 0
  end.

(** [Object.keys(v).length]: the own keys.  An array has its indices as
    keys, a string its positions, a number or boolean none.  [Object.keys]
    throws on [null] and [undefined]; [cleanObject] reaches it only behind
    the null test, with the result of cleaning an array or an object. *)
Definition keys_length (v : value) : nat :=
  match v with
  | VArr items => length items
  | VObj entries | VProto _ entries => length entries
  | VStr s => length (utf16_units s)
  | _ => 0
  end.

(** [v !== '']: the strict comparison is false unless [v] is the empty
    string itself. *)
Definition not_empty_string (v : value) : bool :=
  match v with
  | VStr "" => false
  | _ => true
  end.

(** ** Property keys and their enumeration order

    An object enumerates its array-index keys first, in ascending numeric
    order, then its other string keys in the order they were created.  An
    array index is the canonical decimal form of an integer below
    [2^32 - 1]. *)

Definition digit_of (c : ascii) : option N :=
  let n := N_of_ascii c in
  if ((48 <=? n) && (n <=? 57))%N then Some (n - 48)%N else None.

Fixpoint digits_value (s : string) (acc : N) : option N :=
  match s with
  | EmptyString => Some acc
  | String c rest =>
      match digit_of c with
      | Some d => digits_value rest (10 * acc + d)%N
      | None => None
      end
  end.

Definition key_index (k : string) : option N :=
  match k with
  | EmptyString => None
  | String c rest =>
      if Ascii.eqb c "0" && negb (String.eqb rest "") then None
      else
        match digits_value k 0 with
        | Some n => if (n <? 4294967295)%N then Some n else None
        | None => None
        end
  end.

(** [key_precedes k k']: the distinct key [k] may come before [k'] in the
    enumeration of one object. *)
Definition key_precedes (k k' : string) : bool :=
  match key_index k, key_index k' with
  | Some n, Some m => (n <? m)%N
  | Some _, None => true
  | None, Some _ => false
  | None, None => negb (String.eqb k k')
  end.

(** The keys of an object: pairwise distinct and in enumeration order. *)
Fixpoint valid_keys (ks : list string) : bool :=
  match ks with
  | [] => true
  | k :: rest => forallb (key_precedes k) rest && valid_keys rest
  end.

Definition has_key {V : Type} (entries : list (string * V)) (key : string)
  : bool :=
  existsb (fun e => String.eqb (fst e) key) entries.

(** Assignment to a key the object has: the entry keeps its place. *)
Fixpoint obj_update {V : Type} (entries : list (string * V)) (key : string)
  (v : V) : list (string * V) :=
  match entries with
  | [] => []
  | (k, w) :: rest =>
      if String.eqb k key then (k, v) :: rest
      else (k, w) :: obj_update rest key v
  end.

(** [goes_before key k]: the new key [key] is enumerated before the
    existing key [k].  A new key that is no array index goes last. *)
Definition goes_before (key k : string) : bool :=
  match key_index key with
  | Some n =>
      match key_index k with
      | Some m => (n <? m)%N
      | None => true
      end
  | None => false
  end.

(** Assignment to a key the object does not have. *)
Fixpoint obj_insert_new {V : Type} (entries : list (string * V))
  (key : string) (v : V) : list (string * V) :=
  match entries with
  | [] => [(key, v)]
  | (k, w) :: rest =>
      if goes_before key k then (key, v) :: (k, w) :: rest
      else (k, w) :: obj_insert_new rest key v
  end.

(** [newObj[key] = v] *)
Definition obj_set {V : Type} (entries : list (string * V)) (key : string)
  (v : V) : list (string * V) :=
  if has_key entries key then obj_update entries key v
  else obj_insert_new entries key v.

(** Own property lookup on an entry list: [Some v] when the key is there. *)
Fixpoint obj_get {V : Type} (entries : list (string * V)) (key : string)
  : option V :=
  match entries with
  | [] => None
  | (k, v) :: rest => if String.eqb k key then Some v else obj_get rest key
  end.

(** Arrays and objects. *)
Definition is_container (v : value) : bool :=
  match v with
  | VArr _ | VObj _ | VProto _ _ => true
  | _ => false
  end.

(** A tree stands for a JavaScript value when the entries of every object
    in it are in enumeration order, without a repeated key, and every
    prototype is an array or an object. *)
Fixpoint valid (v : value) : bool :=
  match v with
  | VArr items => forallb valid items
  | VObj entries =>
      valid_keys (List.map fst entries)
      && forallb (fun e => valid (snd e)) entries
  | VProto proto entries =>
      valid_keys (List.map fst entries)
      && forallb (fun e => valid (snd e)) entries
      && is_container proto && valid proto
  | _ => true
  end.

(** ** Enumeration and assignment

    [for (const key in obj)] visits the own keys of [obj], then the keys
    of its prototype that no own key hides, and so on up the chain; the
    prototypes of object literals and of arrays have no key to visit. *)

(** The key of the position [i] of an array or string. *)
Definition index_key (i : nat) : string := pretty (N.of_nat i).

(** The elements of an array under their keys, from position [i] on. *)
Fixpoint indexed_from {A : Type} (i : nat) (items : list A)
  : list (string * A) :=
  match items with
  | [] => []
  | x :: rest => (index_key i, x) :: indexed_from (S i) rest
  end.

(** [hidden key]: one of the keys met so far is [key]. *)
Definition shadowed (hidden : list string) (key : string) : bool :=
  existsb (fun k => String.eqb k key) hidden.

(** The keys [for (const key in v)] visits for an array or object [v],
    each with [v[key]]. *)
Fixpoint chain_entries (v : value) : list (string * value) :=
  match v with
  | VObj entries => entries
  | VProto proto entries =>
      entries
      ++ List.filter (fun e => negb (shadowed (List.map fst entries) (fst e)))
           (chain_entries proto)
  | VArr items => indexed_from 0 items
  | _ => []
  end.

(** The same for any value: a string has its positions. *)
Definition for_in_entries (v : value) : list (string * value) :=
  match v with
  | VStr str => indexed_from 0 (List.map VStr (utf16_units str))
  | _ => chain_entries v
  end.

(** Objects that are no arrays. *)
Definition is_object (v : value) : bool :=
  match v with
  | VObj _ | VProto _ _ => true
  | _ => false
  end.

(** The object [newObj] of line 71 while the loop fills it: its prototype,
    when an assignment has given it one, and its own entries. *)
Definition building : Type := (option value * list (string * value))%type.

(** [{}] *)
Definition empty_object : building := (None, []).

(** [newObj[key] = v], lines 77 and 80.  The key [__proto__] names no
    property of [newObj]: the assignment runs the setter that every object
    inherits, which makes an array or object [v] the prototype of [newObj]
    and does nothing for another [v].  For any other key the assignment
    makes or updates an own property.  ([v] is never [null] here, line
    73.) *)
Definition assign (newObj : building) (key : string) (v : value) : building :=
  if String.eqb key "__proto__" then
    if is_container v then (Some v, snd newObj) else newObj
  else (fst newObj, obj_set (snd newObj) key v).

(** The object the loop has built. *)
Definition built (newObj : building) : value :=
  match fst newObj with
  | Some proto => VProto proto (snd newObj)
  | None => VObj (snd newObj)
  end.

(** ** The sanitizer *)

(** [xs.filter(keep).map(f)] in one pass.  The recursion of [cleanObject]
    goes through the elements of the array it is given; written as one
    traversal, every recursive call is on such an element.
    [filter_map_pass_spec] below states that this is the source's chain. *)
Definition filter_map_pass {A B : Type} (keep : A -> bool) (f : A -> B)
  : list A -> list B :=
  fix pass (xs : list A) : list B :=
    match xs with
    | [] => []
    | x :: rest => if keep x then f x :: pass rest else pass rest
    end.

(** The body of the loop, lines 73-81, for the key [key] and [v = obj[key]];
    [clean] stands for the recursive call. *)
Definition loop_body (clean : value -> value) (newObj : building)
  (key : string) (v : value) : building :=
  if is_nullish v then newObj
  else if typeof_object v then
    let cleaned := clean v in
    if (0 <? keys_length cleaned)%nat
       || (isArray cleaned && (0 <? array_length cleaned)%nat)
    then assign newObj key cleaned
    else newObj
  else if not_empty_string v then assign newObj key v
  else newObj.

(** The loop over own entries, and over the elements of an array met as a
    prototype; a key that is hidden is not visited. *)
Fixpoint own_loop (body : building -> string -> value -> building)
  (hidden : list string) (entries : list (string * value))
  (newObj : building) : building :=
  match entries with
  | [] => newObj
  | (key, v) :: rest =>
      own_loop body hidden rest
        (if shadowed hidden key then newObj else body newObj key v)
  end.

Fixpoint elements_loop (body : building -> string -> value -> building)
  (hidden : list string) (i : nat) (items : list value) (newObj : building)
  : building :=
  match items with
  | [] => newObj
  | x :: rest =>
      elements_loop body hidden (S i) rest
        (if shadowed hidden (index_key i) then newObj
         else body newObj (index_key i) x)
  end.

(** [for (const key in obj) { ... }], lines 72-82: the own entries of
    [obj], then those of its prototype that are not hidden. *)
Fixpoint for_in_loop (clean : value -> value) (obj : value)
  (hidden : list string) (newObj : building) {struct obj} : building :=
  match obj with
  | VObj entries => own_loop (loop_body clean) hidden entries newObj
  | VProto proto entries =>
      for_in_loop clean proto (hidden ++ List.map fst entries)
        (own_loop (loop_body clean) hidden entries newObj)
  | VArr items => elements_loop (loop_body clean) hidden 0 items newObj
  | _ => newObj
  end.

(** [cleanObject(obj)], lines 44-87.  The setting is read at every call, as
    in the source. *)
Fixpoint cleanObject (s : settings) (obj : value) {struct obj} : value :=
  if negb (filterOutEmptyFields s) then obj
  else
    match obj with
    | VNull | VUndefined => obj
    | VArr items =>
        let newArray :=
          filter_map_pass
            (fun item =>
               if is_nullish item then false
               else if typeof_object item
                       && (keys_length (cleanObject s item) =? 0)%nat
               then false
               else if isArray item && (array_length item =? 0)%nat
               then false
               else true)
            (fun item => if typeof_object item then cleanObject s item else item)
            items in
        VArr newArray
    | VObj _ | VProto _ _ =>
        built (for_in_loop (cleanObject s) obj [] empty_object)
    | _ => obj
    end.

(** The contract of the specification, [clean(value, filterEnabled)]: the
    source function under a setting record whose filter flag is the second
    argument. *)
Definition clean (v : value) (filterEnabled : bool) : value :=
  cleanObject
    {| enabled := true; verboseLogging := false; logToFile := false;
       logFilePath := ""; filterOutEmptyFields := filterEnabled |} v.

(** The two callbacks of the array branch and the body of the object
    loop, named so that the lemmas can speak of them. *)
Definition keep_item (s : settings) (item : value) : bool :=
  if is_nullish item then false
  else if typeof_object item && (keys_length (cleanObject s item) =? 0)%nat
  then false
  else if isArray item && (array_length item =? 0)%nat then false
  else true.

Definition map_item (s : settings) (item : value) : value :=
  if typeof_object item then cleanObject s item else item.

Definition loop_step (s : settings) (newObj : building)
  (entry : string * value) : building :=
  loop_body (cleanObject s) newObj (fst entry) (snd entry).

(** Whether the loop assigns the entry, and what it assigns. *)
Definition keep_entry (s : settings) (entry : string * value) : bool :=
  let v := snd entry in
  if is_nullish v then false
  else if typeof_object v then
    let cleaned := cleanObject s v in
    (0 <? keys_length cleaned)%nat
    || (isArray cleaned && (0 <? array_length cleaned)%nat)
  else not_empty_string v.

Definition map_entry (s : settings) (entry : string * value) : string * value :=
  (fst entry, map_item s (snd entry)).

(** * Values in the heap

    The structure the host passes to the extension is made of objects and
    arrays that live in a heap and are reached through references: two
    properties may hold the same object, an object may contain itself, and
    an assignment to a property changes the object for every holder.  The
    prompt structure is plain data: no functions, no accessors.  An object
    has the prototype of object literals ([CObj]) or another object of the
    heap as its prototype ([CProto]). *)

Definition loc : Type := positive.

Inductive hvalue : Type :=
| HUndefined
| HNull
| HBool (b : bool)
| HNum (x : float)
| HStr (s : string)
| HRef (l : loc).

Inductive cell : Type :=
| CArr (items : list hvalue)
| CObj (entries : list (string * hvalue))
| CProto (proto : loc) (entries : list (string * hvalue)).

Abbreviation heap := (gmap loc cell).

(** What a failing operation throws. *)
Inductive exn : Type :=
| TypeError (msg : string)
| SyntaxError (msg : string)
| RangeError (msg : string).

Inductive result (A : Type) : Type :=
| Ok (a : A)
| Throw (e : exn).
Arguments Ok {A} a.
Arguments Throw {A} e.

(** Heap-passing computations that may throw. *)
Definition M (A : Type) : Type := heap -> heap * result A.

Definition ret {A : Type} (a : A) : M A := fun h => (h, Ok a).

Definition throw {A : Type} (e : exn) : M A := fun h => (h, Throw e).

Definition bind {A B : Type} (m : M A) (k : A -> M B) : M B :=
  fun h =>
    match m h with
    | (h', Ok a) => k a h'
    | (h', Throw e) => (h', Throw e)
    end.

Declare Scope heap_scope.
Delimit Scope heap_scope with heap.
Notation "x <- m ;; k" := (bind m (fun x => k))
  (at level 100, m at next level, right associativity) : heap_scope.
Notation "m ;;; k" := (bind m (fun _ => k))
  (at level 100, right associativity) : heap_scope.

(** A new object or array gets a location the heap does not use. *)
Definition alloc (c : cell) : M loc :=
  fun h => let l := fresh (dom h) in (<[l := c]> h, Ok l).

(** A reference always leads to a cell; a heap without one at [l] stands
    for no state of the program. *)
Definition read (l : loc) : M cell :=
  fun h =>
    match h !! l with
    | Some c => (h, Ok c)
    | None => (h, Throw (TypeError "dangling reference"))
    end.

(** [o[key] = v] for a reference [o] to the object [newObj] of line 71.
    The key [__proto__] names no property of it: the assignment runs the
    setter every object inherits, which makes an object or array [v] the
    prototype and does nothing for a [v] that is no reference.  Any other
    key becomes or stays an own property.  (The setter refuses a prototype
    whose chain leads back to [o]; the sanitizer assigns objects it has
    made after [newObj], or no object at all, so there is none.) *)
Definition set_prop (l : loc) (key : string) (v : hvalue) : M unit :=
  fun h =>
    match h !! l with
    | Some (CObj entries) =>
        if String.eqb key "__proto__" then
          match v with
          | HRef proto => (<[l := CProto proto entries]> h, Ok tt)
          | _ => (h, Ok tt)
          end
        else (<[l := CObj (obj_set entries key v)]> h, Ok tt)
    | Some (CProto old entries) =>
        if String.eqb key "__proto__" then
          match v with
          | HRef proto => (<[l := CProto proto entries]> h, Ok tt)
          | _ => (h, Ok tt)
          end
        else (<[l := CProto old (obj_set entries key v)]> h, Ok tt)
    | _ => (h, Ok tt)
    end.

Definition is_nullishH (v : hvalue) : bool :=
  match v with
  | HNull | HUndefined => true
  | _ => false
  end.

(** [typeof v === 'object'] *)
Definition typeof_objectH (v : hvalue) : bool :=
  match v with
  | HNull | HRef _ => true
  | _ => false
  end.

Definition not_empty_stringH (v : hvalue) : bool :=
  match v with
  | HStr "" => false
  | _ => true
  end.

Open Scope heap_scope.

(** [Array.isArray(v)] *)
Definition isArrayH (v : hvalue) : M bool :=
  match v with
  | HRef l =>
      c <- read l ;;
      ret match c with CArr _ => true | CObj _ | CProto _ _ => false end
  | _ => ret false
  end.

(** [v.length] of an array *)
Definition array_lengthH (v : hvalue) : M nat :=
  match v with
  | HRef l =>
      c <- read l ;;
      ret match c with
          | CArr items => length items
          | CObj _ | CProto _ _ => 0
          end
  | _ => ret 0
  end.

(** [Object.keys(v).length]; [Object.keys] throws on [null] and
    [undefined]. *)
Definition keys_lengthH (v : hvalue) : M nat :=
  match v with
  | HRef l =>
      c <- read l ;;
      ret match c with
          | CArr items => length items
          | CObj entries | CProto _ entries => length entries
          end
  | HStr s => ret (length (utf16_units s))
  | HNull | HUndefined =>
      throw (TypeError "Cannot convert undefined or null to object")
  | _ => ret 0
  end.

(** [xs.filter(p)], [xs.map(f)] and a loop over [xs], with callbacks that
    work on the heap; the elements are visited in order. *)
Fixpoint filterH {A : Type} (p : A -> M bool) (xs : list A) : M (list A) :=
  match xs with
  | [] => ret []
  | x :: rest =>
      b <- p x ;;
      kept <- filterH p rest ;;
      ret (if b then x :: kept else kept)
  end.

Fixpoint mapH {A B : Type} (f : A -> M B) (xs : list A) : M (list B) :=
  match xs with
  | [] => ret []
  | x :: rest =>
      y <- f x ;;
      ys <- mapH f rest ;;
      ret (y :: ys)
  end.

Fixpoint forH {A : Type} (xs : list A) (body : A -> M unit) : M unit :=
  match xs with
  | [] => ret tt
  | x :: rest => body x ;;; forH rest body
  end.

(** The callback of [obj.filter], lines 55-60. *)
Definition keep_itemH (cleanObject : hvalue -> M hvalue) (item : hvalue)
  : M bool :=
  if is_nullishH item then ret false
  else
    empty_cleaned <-
      (if typeof_objectH item then
         cleaned <- cleanObject item ;;
         n <- keys_lengthH cleaned ;;
         ret (n =? 0)%nat
       else ret false) ;;
    if (empty_cleaned : bool) then ret false
    else
      empty_array <-
        (is_arr <- isArrayH item ;;
         if (is_arr : bool) then
           n <- array_lengthH item ;;
           ret (n =? 0)%nat
         else ret false) ;;
      if (empty_array : bool) then ret false else ret true.

(** The callback of [.map], lines 60-65. *)
Definition map_itemH (cleanObject : hvalue -> M hvalue) (item : hvalue)
  : M hvalue :=
  if typeof_objectH item then cleanObject item else ret item.

(** The body of the loop over the keys, lines 73-81. *)
Definition loop_bodyH (cleanObject : hvalue -> M hvalue) (newObj : loc)
  (entry : string * hvalue) : M unit :=
  let (key, v) := entry in
  if is_nullishH v then ret tt
  else if typeof_objectH v then
    cleaned <- cleanObject v ;;
    n <- keys_lengthH cleaned ;;
    keep <-
      (if (0 <? n)%nat then ret true
       else
         is_arr <- isArrayH cleaned ;;
         if (is_arr : bool) then
           m <- array_lengthH cleaned ;;
           ret (0 <? m)%nat
         else ret false) ;;
    if (keep : bool) then set_prop newObj key cleaned else ret tt
  else if not_empty_stringH v then set_prop newObj key v
  else ret tt.

(** The keys [for (const key in o)] visits for the object at [l], each
    with [o[key]]: the own entries, then those of the prototype that no
    own key hides.  A chain of prototypes never comes back to an object;
    [n] counts the objects that may follow, and a heap has no more than
    its size. *)
Fixpoint for_in_entriesH (n : nat) (h : heap) (l : loc)
  : list (string * hvalue) :=
  match h !! l with
  | Some (CArr items) => indexed_from 0 items
  | Some (CObj entries) => entries
  | Some (CProto proto entries) =>
      entries
      ++ match n with
         | O => []
         | S n' =>
             List.filter
               (fun e => negb (shadowed (List.map fst entries) (fst e)))
               (for_in_entriesH n' h proto)
         end
  | None => []
  end.

Definition for_inH (l : loc) : M (list (string * hvalue)) :=
  fun h => (h, Ok (for_in_entriesH (size h) h l)).

(** [cleanObject] on the heap.  [fuel] is the room left on the call stack:
    a call that finds none throws, which is how the recursion ends on a
    structure that contains itself.  [filter], [map] and the literal [{}]
    each create a new object; the only assignment is [newObj[key] = ...]. *)
Fixpoint cleanObjectH (fuel : nat) (s : settings) (obj : hvalue) {struct fuel}
  : M hvalue :=
  match fuel with
  | O => throw (RangeError "Maximum call stack size exceeded")
  | S fuel' =>
      if negb (filterOutEmptyFields s) then ret obj
      else
        match obj with
        | HNull | HUndefined => ret obj
        | HRef l =>
            c <- read l ;;
            match c with
            | CArr items =>
                kept <- filterH (keep_itemH (cleanObjectH fuel' s)) items ;;
                filtered <- alloc (CArr kept) ;;
                cleaned <- mapH (map_itemH (cleanObjectH fuel' s)) kept ;;
                newArray <- alloc (CArr cleaned) ;;
                ret (HRef newArray)
            | CObj _ | CProto _ _ =>
                newObj <- alloc (CObj []) ;;
                entries <- for_inH l ;;
                forH entries (loop_bodyH (cleanObjectH fuel' s) newObj) ;;;
                ret (HRef newObj)
            end
        | _ => ret obj
        end
  end.

(** The tree a value of the heap looks like from outside, read down to
    depth [depth]: what a deep comparison of two values compares.  There is
    none when the structure is deeper than that, as a cyclic one is at
    every depth. *)
Fixpoint snapshot (depth : nat) (h : heap) (v : hvalue) : option value :=
  match v with
  | HUndefined => Some VUndefined
  | HNull => Some VNull
  | HBool b => Some (VBool b)
  | HNum x => Some (VNum x)
  | HStr str => Some (VStr str)
  | HRef l =>
      match depth with
      | O => None
      | S depth' =>
          match h !! l with
          | Some (CArr items) =>
              items' ← mapM (snapshot depth' h) items; Some (VArr items')
          | Some (CObj entries) =>
              entries' ←
                mapM (fun e => w ← snapshot depth' h (snd e); Some (fst e, w))
                  entries;
              Some (VObj entries')
          | Some (CProto proto entries) =>
              proto' ← snapshot depth' h (HRef proto);
              entries' ←
                mapM (fun e => w ← snapshot depth' h (snd e); Some (fst e, w))
                  entries;
              Some (VProto proto' entries')
          | None => None
          end
      end
  end.

Close Scope heap_scope.

(** * The deep copy [JSON.parse(JSON.stringify(promptStruct))] *)

(** What a number becomes: [NaN] and the infinities are written as [null],
    negative zero as [0], every other number reads back as itself. *)
Definition json_number (x : float) : value :=
  if PrimFloat.is_nan x || PrimFloat.is_infinity x then VNull
  else if PrimFloat.is_zero x then VNum PrimFloat.zero
  else VNum x.

(** A list of results, in order, up to the first that throws. *)
Fixpoint mapR {A B : Type} (f : A -> result B) (xs : list A) : result (list B) :=
  match xs with
  | [] => Ok []
  | x :: rest =>
      match f x with
      | Ok y =>
          match mapR f rest with
          | Ok ys => Ok (y :: ys)
          | Throw e => Throw e
          end
      | Throw e => Throw e
      end
  end.

(** [JSON.parse] builds an object by defining its properties in the order
    of the text. *)
Definition parsed_object (members : list (string * value))
  : list (string * value) :=
  fold_left (fun acc member => obj_set acc (fst member) (snd member)) members [].

(** The tree that [JSON.stringify] writes and [JSON.parse] reads back.
    [stack] holds the objects being written: meeting one of them again is a
    cycle, and a [TypeError].  A value that is written as nothing
    ([undefined]) gives [None]: in an array it becomes [null], in an object
    its key is left out.  Of an object the own properties are written, not
    those of its prototype.  [fuel] bounds the nesting. *)
Fixpoint json_copy (fuel : nat) (h : heap) (stack : list loc) (v : hvalue)
  : result (option value) :=
  match v with
  | HUndefined => Ok None
  | HNull => Ok (Some VNull)
  | HBool b => Ok (Some (VBool b))
  | HNum x => Ok (Some (json_number x))
  | HStr str => Ok (Some (VStr str))
  | HRef l =>
      if bool_decide (l ∈ stack)
      then Throw (TypeError "Converting circular structure to JSON")
      else
        match fuel with
        | O => Throw (RangeError "Maximum call stack size exceeded")
        | S fuel' =>
            match h !! l with
            | None => Throw (TypeError "dangling reference")
            | Some (CArr items) =>
                match
                  mapR
                    (fun item =>
                       match json_copy fuel' h (l :: stack) item with
                       | Ok o => Ok (default VNull o)
                       | Throw e => Throw e
                       end)
                    items
                with
                | Ok items' => Ok (Some (VArr items'))
                | Throw e => Throw e
                end
            | Some (CObj entries) | Some (CProto _ entries) =>
                match
                  mapR
                    (fun entry =>
                       match json_copy fuel' h (l :: stack) (snd entry) with
                       | Ok o => Ok (option_map (pair (fst entry)) o)
                       | Throw e => Throw e
                       end)
                    entries
                with
                | Ok members => Ok (Some (VObj (parsed_object (omap id members))))
                | Throw e => Throw e
                end
            end
        end
  end.

(** [JSON.parse(JSON.stringify(v))].  An object is on the stack at most
    once, so the nesting never exceeds the number of objects of the heap.
    [JSON.stringify(undefined)] is [undefined], which [JSON.parse] rejects. *)
Definition JSON_roundtrip (h : heap) (v : hvalue) : result value :=
  match json_copy (S (size h)) h [] v with
  | Ok (Some copy) => Ok copy
  | Ok None => Throw (SyntaxError "undefined is not valid JSON")
  | Throw e => Throw e
  end.

(** * Reading a sanitized structure *)

(** The truth value of a condition. *)
Definition truthy (v : value) : bool :=
  match v with
  | VUndefined | VNull => false
  | VBool b => b
  | VNum x => negb (PrimFloat.is_zero x || PrimFloat.is_nan x)
  | VStr str => negb (String.eqb str "")
  | VArr _ | VObj _ | VProto _ _ => true
  end.

(** The own enumerable keys: of an object its keys, of an array or string
    its positions. *)
Definition own_keys (v : value) : list string :=
  match v with
  | VObj entries | VProto _ entries => List.map fst entries
  | VArr items => List.map index_key (seq 0 (length items))
  | VStr str => List.map index_key (seq 0 (length (utf16_units str)))
  | _ => []
  end.

(** [Object.keys(v)] *)
Definition Object_keys (v : value) : result (list string) :=
  match v with
  | VUndefined | VNull =>
      Throw (TypeError "Cannot convert undefined or null to object")
  | _ => Ok (own_keys v)
  end.

(** [v[key]] along the chain of prototypes of an array or object: the
    first object of the chain that has the key gives the value. *)
Fixpoint chain_prop (v : value) (key : string) : value :=
  match v with
  | VObj entries => default VUndefined (obj_get entries key)
  | VProto proto entries =>
      match obj_get entries key with
      | Some w => w
      | None => chain_prop proto key
      end
  | VArr items =>
      match key_index key with
      | Some i => nth (N.to_nat i) items VUndefined
      | None => VUndefined
      end
  | _ => VUndefined
  end.

(** [v[key]]: an own property, or one of a prototype the structure holds;
    a missing one reads as [undefined], and reading a property of [null]
    or [undefined] throws.  What every object, array or string inherits
    from the engine ([length], [constructor], the accessor [__proto__],
    ...) is not modelled: the reporter reads the six section names, the
    three field names and the keys it enumerates, and a key [__proto__] it
    enumerates is an own key. *)
Definition get_prop (v : value) (key : string) : result value :=
  match v with
  | VUndefined | VNull =>
      Throw (TypeError ("Cannot read properties of null or undefined, reading " ++ key))
  | VObj _ | VProto _ _ | VArr _ => Ok (chain_prop v key)
  | VStr str =>
      match key_index key with
      | Some i =>
          match nth_error (utf16_units str) (N.to_nat i) with
          | Some unit => Ok (VStr unit)
          | None => Ok VUndefined
          end
      | None => Ok VUndefined
      end
  | VBool _ | VNum _ => Ok VUndefined
  end.

(** [v.k1.k2...] *)
Fixpoint get_path (v : value) (path : list string) : result value :=
  match path with
  | [] => Ok v
  | key :: rest =>
      match get_prop v key with
      | Ok w => get_path w rest
      | Throw e => Throw e
      end
  end.

(** The same two operations on a value of the heap. *)
Definition truthyH (v : hvalue) : bool :=
  match v with
  | HUndefined | HNull => false
  | HBool b => b
  | HNum x => negb (PrimFloat.is_zero x || PrimFloat.is_nan x)
  | HStr str => negb (String.eqb str "")
  | HRef _ => true
  end.

(** [o[key]] along the chain of prototypes of the object at [l]; [n]
    counts the objects that may follow, as in [for_in_entriesH]. *)
Fixpoint chain_propH (n : nat) (h : heap) (l : loc) (key : string) : hvalue :=
  match h !! l with
  | Some (CObj entries) => default HUndefined (obj_get entries key)
  | Some (CProto proto entries) =>
      match obj_get entries key with
      | Some w => w
      | None =>
          match n with
          | O => HUndefined
          | S n' => chain_propH n' h proto key
          end
      end
  | Some (CArr items) =>
      match key_index key with
      | Some i => nth (N.to_nat i) items HUndefined
      | None => HUndefined
      end
  | None => HUndefined
  end.

Definition get_propH (h : heap) (v : hvalue) (key : string) : result hvalue :=
  match v with
  | HUndefined | HNull =>
      Throw (TypeError ("Cannot read properties of null or undefined, reading " ++ key))
  | HRef l =>
      match h !! l with
      | Some _ => Ok (chain_propH (size h) h l key)
      | None => Throw (TypeError "dangling reference")
      end
  | HStr str =>
      match key_index key with
      | Some i =>
          match nth_error (utf16_units str) (N.to_nat i) with
          | Some unit => Ok (HStr unit)
          | None => Ok HUndefined
          end
      | None => Ok HUndefined
      end
  | HBool _ | HNum _ => Ok HUndefined
  end.

(** * The console *)

Inductive console_arg : Type :=
| Arg (v : value)
| ArgExn (e : exn).

Inductive console_call : Type :=
| CLog (args : list console_arg)
| CWarn (args : list console_arg)
| CError (args : list console_arg)
| CGroup (args : list console_arg)
| CGroupEnd.

(** Computations that write console lines and may throw; the lines written
    before a throw stay written. *)
Definition W (A : Type) : Type := list console_call * result A.

Definition retW {A : Type} (a : A) : W A := ([], Ok a).

Definition liftW {A : Type} (r : result A) : W A := ([], r).

Definition emit (c : console_call) : W unit := ([c], Ok tt).

Definition bindW {A B : Type} (m : W A) (k : A -> W B) : W B :=
  match m with
  | (out, Ok a) => let (out', r) := k a in (out ++ out', r)
  | (out, Throw e) => (out, Throw e)
  end.

(** [try { body } catch (error) { handler }] *)
Definition try_catch {A : Type} (body : W A) (handler : exn -> W A) : W A :=
  match body with
  | (out, Ok a) => (out, Ok a)
  | (out, Throw e) => let (out', r) := handler e in (out ++ out', r)
  end.

Declare Scope report_scope.
Delimit Scope report_scope with report.
Notation "x <- m ;; k" := (bindW m (fun x => k))
  (at level 100, m at next level, right associativity) : report_scope.
Notation "m ;;; k" := (bindW m (fun _ => k))
  (at level 100, right associativity) : report_scope.
Open Scope report_scope.

Fixpoint forW {A : Type} (xs : list A) (body : A -> W unit) : W unit :=
  match xs with
  | [] => retW tt
  | x :: rest => body x ;;; forW rest body
  end.

(** The nesting of groups after some calls, from nesting [d];
    [console.groupEnd()] outside a group does nothing. *)
Fixpoint depth_after (d : nat) (calls : list console_call) : nat :=
  match calls with
  | [] => d
  | CGroup _ :: rest => depth_after (S d) rest
  | CGroupEnd :: rest => depth_after (pred d) rest
  | _ :: rest => depth_after d rest
  end.

(** Whether a group with this label was opened. *)
Definition has_group (calls : list console_call) (label : string) : bool :=
  existsb
    (fun c =>
       match c with
       | CGroup (Arg (VStr l) :: _) => String.eqb l label
       | _ => false
       end)
    calls.

(** * The reporter *)

Section reporter.

(** The conversion of a template literal, [`${v}`], by the engine. *)
Variable ToString : heap -> hvalue -> string.

(** [console.log(label, cleanedPromptStruct.k1.k2...)] *)
Definition log_path (label : string) (c : value) (path : list string) : W unit :=
  v <- liftW (get_path c path) ;;
  emit (CLog [Arg (VStr label); Arg v]).

(** The three lines of a section. *)
Definition log_fields (c : value) (path : list string) : W unit :=
  log_path "Text Components:" c (path ++ ["text"]) ;;;
  log_path "Additional Chat Log:" c (path ++ ["additional_chat_log"]) ;;;
  log_path "Extensions:" c (path ++ ["extension"]).

(** Lines 117-123, and alike 125-131 and 133-139. *)
Definition report_section (c : value) (key label style : string) : W unit :=
  sec <- liftW (get_prop c key) ;;
  if truthy sec then
    emit (CGroup [Arg (VStr label); Arg (VStr style)]) ;;;
    log_fields c [key] ;;;
    emit CGroupEnd
  else retW tt.

(** [for (const id in v)]: the own keys and those of the prototypes;
    nothing to visit in [null] or [undefined]. *)
Definition for_in_keys (v : value) : list string :=
  List.map fst (for_in_entries v).

(** Lines 141-151, and alike 153-163. *)
Definition report_keyed (c : value) (key label style id_label : string)
  : W unit :=
  sec <- liftW (get_prop c key) ;;
  keys <- liftW (Object_keys (if truthy sec then sec else VObj [])) ;;
  if (0 <? length keys)%nat then
    emit (CGroup [Arg (VStr label); Arg (VStr style)]) ;;;
    sec' <- liftW (get_prop c key) ;;
    forW (for_in_keys sec')
      (fun id =>
         emit (CGroup [Arg (VStr (id_label ++ id))]) ;;;
         log_fields c [key; id] ;;;
         emit CGroupEnd) ;;;
    emit CGroupEnd
  else retW tt.

(** Lines 165-169. *)
Definition report_chat_log (c : value) : W unit :=
  sec <- liftW (get_prop c "chat_log") ;;
  if truthy sec then
    emit (CGroup [Arg (VStr "%cChat Log");
                  Arg (VStr "color: #795548; font-weight: bold;")]) ;;;
    log_path "Entries:" c ["chat_log"] ;;;
    emit CGroupEnd
  else retW tt.

(** The verbose part, lines 116-169. *)
Definition report_verbose (c : value) : W unit :=
  report_section c "char_prompt" "%cCharacter Prompt"
    "color: #2196F3; font-weight: bold;" ;;;
  report_section c "user_prompt" "%cUser Prompt"
    "color: #FF9800; font-weight: bold;" ;;;
  report_section c "world_prompt" "%cWorld Prompt"
    "color: #9C27B0; font-weight: bold;" ;;;
  report_keyed c "other_chars_prompt" "%cOther Characters Prompts"
    "color: #E91E63; font-weight: bold;" "Character ID: " ;;;
  report_keyed c "plugin_prompts" "%cPlugin Prompts"
    "color: #00BCD4; font-weight: bold;" "Plugin ID: " ;;;
  report_chat_log c.

(** The body of the [try] of [logPromptStruct], lines 95-172.  [now] is
    [new Date().toISOString()] at the time of the call. *)
Definition logPromptStruct_body (s : settings) (now : string) (h : heap)
  (promptStruct chatId : hvalue) : W unit :=
  if negb (enabled s) then retW tt
  else
    promptStructCopy <- liftW (JSON_roundtrip h promptStruct) ;;
    let cleanedPromptStruct := cleanObject s promptStructCopy in
    emit (CGroup
            [Arg (VStr ("%cPrompt Structure (Chat ID: "
                        ++ ToString h chatId ++ ")"));
             Arg (VStr "color: #4CAF50; font-weight: bold; font-size: 16px;")]) ;;;
    emit (CLog [Arg (VStr ("%cTimestamp: " ++ now));
                Arg (VStr "color: #999999;")]) ;;;
    emit (CLog [Arg (VStr "Full Prompt Structure:"); Arg cleanedPromptStruct]) ;;;
    (if verboseLogging s then report_verbose cleanedPromptStruct
     else retW tt) ;;;
    emit CGroupEnd.

(** [logPromptStruct(promptStruct, chatId)], lines 93-177. *)
Definition logPromptStruct (s : settings) (now : string) (h : heap)
  (promptStruct chatId : hvalue) : W unit :=
  try_catch (logPromptStruct_body s now h promptStruct chatId)
    (fun error =>
       emit (CError [Arg (VStr "Error in Prompt Debugger plugin:");
                     ArgExn error])).

(** The listener of [CHAT_COMPLETION_PROMPT_READY], lines 185-203.  The
    destructuring of [payload] throws when [payload] is [null] or
    [undefined], as reading its first property does. *)
Definition on_prompt_ready (s : settings) (now : string) (h : heap)
  (payload : hvalue) : W unit :=
  if negb (enabled s) then retW tt
  else
    try_catch
      (prompt_struct <- liftW (get_propH h payload "prompt_struct") ;;
       chat_id <- liftW (get_propH h payload "chat_id") ;;
       if truthyH prompt_struct then
         emit (CLog [Arg (VStr ("%cPrompt Debugger: Captured prompt for chat ID "
                                ++ ToString h chat_id));
                     Arg (VStr "color: #4CAF50;")]) ;;;
         logPromptStruct s now h prompt_struct chat_id
       else
         emit (CWarn [Arg (VStr "Prompt Debugger: No prompt structure available in the payload")]))
      (fun err =>
         emit (CError [Arg (VStr "Prompt Debugger: Error processing CHAT_COMPLETION_PROMPT_READY event");
                       ArgExn err])).

End reporter.

(** * Vocabulary of the statements *)

(** ** Of the sanitizer *)

(** The four kinds of input the specification tells apart. *)
Inductive kind : Type := KNullish | KScalar | KSequence | KKeyed.

Definition kind_of (v : value) : kind :=
  match v with
  | VUndefined | VNull => KNullish
  | VBool _ | VNum _ | VStr _ => KScalar
  | VArr _ => KSequence
  | VObj _ | VProto _ _ => KKeyed
  end.

(** [[]] and [{}]: an array without elements, an object without own
    keys. *)
Definition is_empty_container (v : value) : bool :=
  match v with
  | VArr [] | VObj [] | VProto _ [] => true
  | _ => false
  end.

(** The own entries of an object; of another value, none. *)
Definition entries_of (v : value) : list (string * value) :=
  match v with
  | VObj entries | VProto _ entries => entries
  | _ => []
  end.

(** A member the sanitizer leaves out of a keyed container: [null],
    [undefined], the empty string, and a container that is empty once
    cleaned. *)
Definition dropped_member (s : settings) (v : value) : bool :=
  is_nullish v
  || negb (not_empty_string v)
  || (typeof_object v && is_empty_container (cleanObject s v)).

(** A tree with nothing left to prune: no member of an object is [null],
    [undefined], the empty string or an empty container, and no element of
    an array is [null], [undefined] or an empty container. *)
Fixpoint pruned (v : value) : bool :=
  match v with
  | VArr items =>
      forallb
        (fun item =>
           negb (is_nullish item) && negb (is_empty_container item)
           && pruned item)
        items
  | VObj entries =>
      forallb
        (fun e =>
           negb (is_nullish (snd e)) && negb (is_empty_container (snd e))
           && not_empty_string (snd e) && pruned (snd e))
        entries
  | VProto proto entries =>
      forallb
        (fun e =>
           negb (is_nullish (snd e)) && negb (is_empty_container (snd e))
           && not_empty_string (snd e) && pruned (snd e))
        entries
      && pruned proto
  | _ => true
  end.

(** What the loop over the keys lets into the new object. *)
Definition kept_member (v : value) : Prop :=
  valid v = true /\ pruned v = true /\ is_nullish v = false
  /\ is_empty_container v = false /\ not_empty_string v = true.

(** The new object at any point of the loop: its own keys are in order and
    none of them is [__proto__], its members are kept members, and its
    prototype, if it has one, is a kept member that is an array or an
    object. *)
Definition well_built (newObj : building) : Prop :=
  valid_keys (List.map fst (snd newObj)) = true
  /\ has_key (snd newObj) "__proto__" = false
  /\ Forall (fun m => kept_member (snd m)) (snd newObj)
  /\ match fst newObj with
     | Some proto => kept_member proto /\ is_container proto = true
     | None => True
     end.

(** Plain data without the key [__proto__]: every object has the
    prototype of object literals, and no object, at any depth, has a key
    of that name. *)
Fixpoint plain (v : value) : bool :=
  match v with
  | VArr items => forallb plain items
  | VObj entries =>
      negb (has_key entries "__proto__")
      && forallb (fun e => plain (snd e)) entries
  | VProto _ _ => false
  | _ => true
  end.


(** The settings of [clean(x, true)]. *)
Definition filtering : settings :=
  {| enabled := true; verboseLogging := false; logToFile := false;
     logFilePath := ""; filterOutEmptyFields := true |}.

(** The weight of the first digit of a decimal string of this length. *)
Fixpoint scale (s : string) : N :=
  match s with
  | EmptyString => 1%N
  | String _ rest => (10 * scale rest)%N
  end.

(** ** Of the heap *)

(** [keeps h0 m]: running [m] in a heap that extends [h0] leaves every
    object of [h0] as it is. *)
Definition keeps {A : Type} (h0 : heap) (m : M A) : Prop :=
  forall h, h0 ⊆ h -> h0 ⊆ (m h).1.

(** An entry of an object of the heap reads as an entry of a tree. *)
Definition member_rel (d : nat) (hf : heap) (e : string * hvalue)
  (te : string * value) : Prop :=
  fst e = fst te /\ snapshot d hf (snd e) = Some (snd te).

(** The number of prototypes along the chain of a tree. *)
Fixpoint proto_depth (t : value) : nat :=
  match t with
  | VProto proto _ => S (proto_depth proto)
  | _ => 0
  end.

(** The object under construction, a cell of the heap, reads as the object
    under construction of the tree sanitizer. *)
Definition building_rel (d : nat) (hf : heap) (c : cell) (newObj : building)
  : Prop :=
  match c, fst newObj with
  | CObj acc, None => Forall2 (member_rel d hf) acc (snd newObj)
  | CProto proto acc, Some tproto =>
      snapshot d hf (HRef proto) = Some tproto
      /\ Forall2 (member_rel d hf) acc (snd newObj)
  | _, _ => False
  end.

(** ** Of the reporter *)

(** The report without the verbose part: the group, the time stamp, the
    whole sanitized structure, the end of the group. *)
Definition summary_report (ToString : heap -> hvalue -> string) (s : settings)
  (now : string) (h : heap) (chatId : hvalue) (copy : value)
  : list console_call :=
  [CGroup
     [Arg (VStr ("%cPrompt Structure (Chat ID: " ++ ToString h chatId ++ ")"));
      Arg (VStr "color: #4CAF50; font-weight: bold; font-size: 16px;")];
   CLog [Arg (VStr ("%cTimestamp: " ++ now)); Arg (VStr "color: #999999;")];
   CLog [Arg (VStr "Full Prompt Structure:"); Arg (cleanObject s copy)];
   CGroupEnd].

(** The error line of [logPromptStruct]. *)
Definition error_line (e : exn) : console_call :=
  CError [Arg (VStr "Error in Prompt Debugger plugin:"); ArgExn e].


(** The value the sanitized structure holds at a section key, if any: its
    own member of that name. *)
Definition section_of (c : value) (key : string) : option value :=
  obj_get (entries_of c) key.

(** What a condition on [c[key]] sees: the value read, be it an own member
    or one of a prototype. *)
Definition section_value (c : value) (key : string) : value :=
  match get_prop c key with
  | Ok v => v
  | Throw _ => VUndefined
  end.

(** Present, and none of the empty values. *)
Definition present_nonempty (o : option value) : bool :=
  match o with
  | Some v =>
      negb (is_nullish v) && not_empty_string v && negb (is_empty_container v)
  | None => false
  end.

(** The shape the data model gives the prompt structure: the five prompt
    sections are keyed containers and the chat log is a sequence, where
    they are present. *)
Definition is_record_or_absent (o : option value) : bool :=
  match o with
  | None | Some VNull | Some VUndefined | Some (VObj _) => true
  | _ => false
  end.

Definition is_sequence_or_absent (o : option value) : bool :=
  match o with
  | None | Some VNull | Some VUndefined | Some (VArr _) => true
  | _ => false
  end.

Definition data_model_shape (v : value) : bool :=
  match v with
  | VObj _ =>
      forallb (fun key => is_record_or_absent (section_of v key))
        ["char_prompt"; "user_prompt"; "world_prompt"; "other_chars_prompt";
         "plugin_prompts"]
      && is_sequence_or_absent (section_of v "chat_log")
  | _ => false
  end.

(** No key [__proto__] where the verbose part enumerates keys: in the
    structure itself and in its sections [other_chars_prompt] and
    [plugin_prompts]. *)
Definition ordinary_keys (copy : value) : bool :=
  negb (has_key (entries_of copy) "__proto__")
  && negb (has_key (entries_of (section_value copy "other_chars_prompt"))
             "__proto__")
  && negb (has_key (entries_of (section_value copy "plugin_prompts"))
             "__proto__").



(** A container whose members can all be read as sections. *)
Definition members_defined (sec : value) : Prop :=
  forall id, In id (for_in_keys sec) ->
    exists v, get_prop sec id = Ok v /\ is_nullish v = false.



(** ** Examples *)

Definition ex_seq : value :=
  VArr [VNum 1; VNull; VStr ""; VObj []; VArr []; VStr "ok"].


Definition ex_nested : value :=
  VObj [("x", VObj [("y", VArr [])]); ("z", VArr [VObj []])].


(** A heap with an object that is shared ([2] is held by [1] and by [4])
    and one with an object that contains itself. *)
Definition ex_heap : heap :=
  {[ 1%positive :=
       CObj [("a", HStr ""); ("b", HNum 0); ("x", HRef 2%positive);
             ("z", HRef 3%positive); ("w", HRef 4%positive)];
     2%positive := CObj [("y", HRef 5%positive)];
     3%positive := CArr [HRef 6%positive; HNum 1; HNull; HStr ""];
     4%positive := CArr [HRef 2%positive; HStr "ok"];
     5%positive := CArr [];
     6%positive := CObj [] ]}.

Definition ex_heap_tree : value :=
  VObj [("a", VStr ""); ("b", VNum 0); ("x", VObj [("y", VArr [])]);
        ("z", VArr [VObj []; VNum 1; VNull; VStr ""]);
        ("w", VArr [VObj [("y", VArr [])]; VStr "ok"])].

Definition ex_cyclic_heap : heap :=
  {[ 1%positive := CObj [("self", HRef 1%positive)] ]}.

(** Settings and inputs of the examples. *)
Definition ex_ToString (h : heap) (v : hvalue) : string :=
  match v with
  | HStr str => str
  | HNull => "null"
  | HUndefined => "undefined"
  | HBool true => "true"
  | HBool false => "false"
  | HNum _ => "0"
  | HRef _ => "[object Object]"
  end.


Definition verbose_settings : settings :=
  {| enabled := true; verboseLogging := true; logToFile := false;
     logFilePath := ""; filterOutEmptyFields := true |}.

Definition verbose_unfiltered_settings : settings :=
  {| enabled := true; verboseLogging := true; logToFile := false;
     logFilePath := ""; filterOutEmptyFields := false |}.

(** [{other_chars_prompt: {a: null}, chat_log: ["hi"]}] *)
Definition ex_null_member_heap : heap :=
  {[ 1%positive :=
       CObj [("other_chars_prompt", HRef 2%positive);
             ("chat_log", HRef 3%positive)];
     2%positive := CObj [("a", HNull)];
     3%positive := CArr [HStr "hi"] ]}.

(** [{char_prompt: {}}] at [1], and a payload [{chat_id: "c1"}] without a
    prompt structure at [3]. *)
Definition ex_empty_section_heap : heap :=
  {[ 1%positive := CObj [("char_prompt", HRef 2%positive)];
     2%positive := CObj [];
     3%positive := CObj [("chat_id", HStr "c1")] ]}.

(** A prompt structure with a character prompt, an empty user prompt, two
    other characters and a chat log, and its deep copy. *)
Definition ex_prompt_heap : heap :=
  {[ 1%positive :=
       CObj [("char_prompt", HRef 2%positive);
             ("other_chars_prompt", HRef 3%positive);
             ("chat_log", HRef 4%positive);
             ("user_prompt", HRef 6%positive)];
     2%positive := CObj [("text", HRef 4%positive); ("extension", HRef 6%positive)];
     3%positive := CObj [("bob", HRef 2%positive); ("eve", HRef 5%positive)];
     4%positive := CArr [HStr "hi"];
     5%positive := CObj [("text", HStr "x")];
     6%positive := CObj [] ]}.

Definition ex_prompt_tree : value :=
  VObj [("char_prompt",
         VObj [("text", VArr [VStr "hi"]); ("extension", VObj [])]);
        ("other_chars_prompt",
         VObj [("bob", VObj [("text", VArr [VStr "hi"]); ("extension", VObj [])]);
               ("eve", VObj [("text", VStr "x")])]);
        ("chat_log", VArr [VStr "hi"]);
        ("user_prompt", VObj [])].

(** [{char_prompt: 0}] *)
Definition ex_scalar_section_heap : heap :=
  {[ 1%positive := CObj [("char_prompt", HNum 0)] ]}.


(** [{"__proto__": {"char_prompt": {"text": "t"}}, "b": 2}], with
    [__proto__] an own key, as [JSON.parse] makes it. *)
Definition ex_proto_section_heap : heap :=
  {[ 1%positive := CObj [("__proto__", HRef 2%positive); ("b", HNum 2)];
     2%positive := CObj [("char_prompt", HRef 3%positive)];
     3%positive := CObj [("text", HStr "t")] ]}.

Definition ex_proto_section_tree : value :=
  VObj [("__proto__", VObj [("char_prompt", VObj [("text", VStr "t")])]);
        ("b", VNum 2)].

(** * The settings the host keeps, and the controls *)

(** The name the settings are filed under, line 5. *)
Definition extensionName : string := "prompt-debugger".

(** [defaultSettings] as the object it is, lines 8-14, its keys in the order
    they are written. *)
Definition defaultSettings_object : list (string * value) :=
  [("enabled", VBool true);
   ("verboseLogging", VBool false);
   ("logToFile", VBool false);
   ("logFilePath", VStr "");
   ("filterOutEmptyFields", VBool true)].

(** [extension_settings] of the host: a map from the name of an extension
    to its settings, each a plain object of data; an extension that saved
    nothing has no entry, and [extension_settings[name]] is [undefined]. *)
Abbreviation extension_settings := (gmap string (list (string * value))).

(** [o.key] of a settings object: [undefined] where the key is missing. *)
Definition setting (o : list (string * value)) (key : string) : value :=
  default VUndefined (obj_get o key).

(** What the core reads in a settings object.  [cleanObject],
    [logPromptStruct] and the listener use the three flags as conditions
    only ([!o.filterOutEmptyFields], [!o.enabled], [if (o.verboseLogging)]),
    so a flag counts by its truth value; the two file settings are read
    nowhere. *)
Definition settings_of (o : list (string * value)) : settings :=
  {| enabled := truthy (setting o "enabled");
     verboseLogging := truthy (setting o "verboseLogging");
     logToFile := truthy (setting o "logToFile");
     logFilePath := match setting o "logFilePath" with VStr p => p | _ => "" end;
     filterOutEmptyFields := truthy (setting o "filterOutEmptyFields") |}.

(** The calls the settings code makes on its host: the console,
    [$(selector).prop('checked', v)] and [saveSettingsDebounced()]. *)
Inductive host_call : Type :=
| Console (c : console_call)
| SetChecked (selector : string) (v : value)
| SaveSettingsDebounced.

(** [Object.assign(target, source)]: the properties of [source] are
    assigned to [target] one by one, in the order of [source]. *)
Definition Object_assign (target source : list (string * value))
  : list (string * value) :=
  fold_left (fun acc e => obj_set acc (fst e) (snd e)) source target.

(** [loadSettings()], lines 19-30.  [current] is
    [extension_settings[extensionName] || {}], which line 21 stores;
    line 23 fills that object when it has no key; lines 27-29 set the
    three checkboxes from it. *)
Definition loadSettings (es : extension_settings)
  : extension_settings * list host_call :=
  let current := default [] (es !! extensionName) in
  let loaded :=
    if (length (List.map fst current) =? 0)%nat
    then Object_assign current defaultSettings_object
    else current in
  (<[extensionName := loaded]> es,
   [SetChecked "#prompt_debugger_enabled" (setting loaded "enabled");
    SetChecked "#prompt_debugger_verbose" (setting loaded "verboseLogging");
    SetChecked "#prompt_debugger_filter_empty"
      (setting loaded "filterOutEmptyFields")]).

(** [saveSettings()], lines 35-37. *)
Definition saveSettings : list host_call := [SaveSettingsDebounced].

(** The three handlers of lines 214-236 differ in the key they assign and
    in the text they log.  [checked] is what [$(selector).prop('checked')]
    returns.  The assignment throws when the extension has no settings
    object; nothing catches it. *)
Definition setting_changed (key message : string) (checked : value)
  (es : extension_settings)
  : extension_settings * (list host_call * result unit) :=
  match es !! extensionName with
  | None =>
      (es, ([], Throw (TypeError ("Cannot set properties of undefined, setting "
                                  ++ key))))
  | Some o =>
      let o' := obj_set o key checked in
      let status := if truthy (setting o' key) then "enabled" else "disabled" in
      (<[extensionName := o']> es,
       (saveSettings ++ [Console (CLog [Arg (VStr (message ++ status))])],
        Ok tt))
  end.

Definition onEnabledChanged
  : value -> extension_settings
    -> extension_settings * (list host_call * result unit) :=
  setting_changed "enabled" "Prompt Debugger: ".

Definition onVerboseLoggingChanged
  : value -> extension_settings
    -> extension_settings * (list host_call * result unit) :=
  setting_changed "verboseLogging" "Prompt Debugger: Verbose logging ".

Definition onFilterEmptyChanged
  : value -> extension_settings
    -> extension_settings * (list host_call * result unit) :=
  setting_changed "filterOutEmptyFields"
    "Prompt Debugger: Filtering empty fields ".

(** The listener of lines 185-203 run by the host: its first line reads
    [extension_settings[extensionName].enabled] outside the [try], and so
    do [logPromptStruct] and [cleanObject] at each of their tests, of a
    settings object that nothing changes while the listener runs. *)
Definition prompt_ready_listener (ToString : heap -> hvalue -> string)
  (es : extension_settings) (now : string) (h : heap) (payload : hvalue)
  : W unit :=
  match es !! extensionName with
  | None =>
      liftW (Throw (TypeError "Cannot read properties of undefined, reading enabled"))
  | Some o => on_prompt_ready ToString (settings_of o) now h payload
  end.

(** ** Vocabulary of the further properties *)

(** The number of values in a tree. *)
Fixpoint nodes (v : value) : nat :=
  match v with
  | VArr items => S (list_sum (List.map nodes items))
  | VObj entries => S (list_sum (List.map (fun e => nodes (snd e)) entries))
  | VProto proto entries =>
      S (nodes proto + list_sum (List.map (fun e => nodes (snd e)) entries))
  | _ => 1
  end.

(** An object or array of the heap that holds itself as a member. *)
Definition contains_itself (h : heap) (l : loc) : Prop :=
  match h !! l with
  | Some (CArr items) => In (HRef l) items
  | Some (CObj entries) | Some (CProto _ entries) =>
      In (HRef l) (List.map snd entries)
  | None => False
  end.

(** Lines that never close a group they did not open, and that close all
    they opened when the computation ends normally. *)
Definition opens_before_closing {A : Type} (w : W A) : Prop :=
  forall d,
    d <= depth_after d w.1
    /\ forall a, w.2 = Ok a -> depth_after d w.1 = d.


(** The lines of the listener. *)
Definition capture_line (ToString : heap -> hvalue -> string) (h : heap)
  (chat_id : hvalue) : console_call :=
  CLog [Arg (VStr ("%cPrompt Debugger: Captured prompt for chat ID "
                   ++ ToString h chat_id));
        Arg (VStr "color: #4CAF50;")].

Definition warning_line : console_call :=
  CWarn [Arg (VStr "Prompt Debugger: No prompt structure available in the payload")].

Definition processing_error_line (e : exn) : console_call :=
  CError [Arg (VStr "Prompt Debugger: Error processing CHAT_COMPLETION_PROMPT_READY event");
          ArgExn e].

(** Saved settings of an earlier version, without the [enabled] key, and
    the settings of another extension. *)
Definition ex_partial_settings : extension_settings :=
  {[ extensionName := [("verboseLogging", VBool true)];
     "other-extension" := [("enabled", VBool true)] ]}.

Definition ex_loaded_settings : extension_settings :=
  {[ extensionName := defaultSettings_object ]}.

(** A payload [{prompt_struct: {char_prompt: {text: ["hi"]}, note: ""},
    chat_id: "c1"}] at [1], and a payload whose prompt structure is [0]
    at [5]. *)
Definition ex_payload_heap : heap :=
  {[ 1%positive := CObj [("prompt_struct", HRef 2%positive);
                         ("chat_id", HStr "c1")];
     2%positive := CObj [("char_prompt", HRef 3%positive); ("note", HStr "")];
     3%positive := CObj [("text", HRef 4%positive)];
     4%positive := CArr [HStr "hi"];
     5%positive := CObj [("prompt_struct", HNum 0); ("chat_id", HStr "c1")] ]}.

(** The events the host delivers once the extension is set up: the
    prompt event to the listener registered at line 185, a change of one of
    the three checkboxes to the handler bound to it at lines 286-288. *)
Inductive host_event : Type :=
| PromptReady (now : string) (h : heap) (payload : hvalue)
| EnabledChanged (checked : value)
| VerboseLoggingChanged (checked : value)
| FilterEmptyChanged (checked : value).

Definition deliver (ToString : heap -> hvalue -> string)
  (es : extension_settings) (event : host_event)
  : extension_settings * (list host_call * result unit) :=
  match event with
  | PromptReady now h payload =>
      let run := prompt_ready_listener ToString es now h payload in
      (es, (List.map Console run.1, run.2))
  | EnabledChanged checked => onEnabledChanged checked es
  | VerboseLoggingChanged checked => onVerboseLoggingChanged checked es
  | FilterEmptyChanged checked => onFilterEmptyChanged checked es
  end.

(** The events of a session, one after the other: the settings at the end
    and what each callback returned or threw. *)
Fixpoint deliver_all (ToString : heap -> hvalue -> string)
  (es : extension_settings) (events : list host_event)
  : extension_settings * list (result unit) :=
  match events with
  | [] => (es, [])
  | event :: rest =>
      let (es', run) := deliver ToString es event in
      let (final, outcomes) := deliver_all ToString es' rest in
      (final, run.2 :: outcomes)
  end.

(** The labels of the groups that are opened with a style, in the order
    they are opened: the top-level group and the groups of the sections
    (the group of one character or plugin has no style). *)
Definition styled_groups (calls : list console_call) : list string :=
  omap
    (fun c =>
       match c with
       | CGroup [Arg (VStr label); Arg (VStr _)] => Some label
       | _ => None
       end)
    calls.

(** The section groups in the order of lines 117-169. *)
Definition section_labels : list string :=
  ["%cCharacter Prompt"; "%cUser Prompt"; "%cWorld Prompt";
   "%cOther Characters Prompts"; "%cPlugin Prompts"; "%cChat Log"].

(** * Array-index keys

    A key is the index of at most one number: the decimal form without
    leading zeros is unique. *)

Lemma digit_of_bound c d : digit_of c = Some d -> (d <= 9)%N.
Proof.
  unfold digit_of. destruct ((48 <=? N_of_ascii c)%N && (N_of_ascii c <=? 57)%N) eqn:H;
    [|discriminate].
  apply andb_prop in H as [H1 H2]. apply N.leb_le in H1, H2.
  intros [= <-]. lia.
Qed.

Lemma digit_of_inj c c' d : digit_of c = Some d -> digit_of c' = Some d -> c = c'.
Proof.
  unfold digit_of.
  destruct ((48 <=? N_of_ascii c)%N && (N_of_ascii c <=? 57)%N) eqn:H; [|discriminate].
  destruct ((48 <=? N_of_ascii c')%N && (N_of_ascii c' <=? 57)%N) eqn:H'; [|discriminate].
  apply andb_prop in H as [H1 _]. apply andb_prop in H' as [H1' _].
  apply N.leb_le in H1, H1'. intros [= <-] [= Heq].
  rewrite <- (ascii_N_embedding c), <- (ascii_N_embedding c'). f_equal. lia.
Qed.

Lemma scale_pos s : (0 < scale s)%N.
Proof. induction s; simpl; lia. Qed.

Lemma scale_length s s' : String.length s = String.length s' -> scale s = scale s'.
Proof.
  revert s'. induction s as [|c s IH]; intros [|c' s']; simpl; try discriminate; auto.
  intros [= H]. now rewrite (IH s').
Qed.

Lemma scale_mono s s' : String.length s <= String.length s' -> (scale s <= scale s')%N.
Proof.
  revert s'. induction s as [|c s IH]; intros s' H; simpl.
  - pose proof (scale_pos s'). lia.
  - destruct s' as [|c' s']; simpl in *; [lia|].
    assert (String.length s <= String.length s') as H' by lia.
    specialize (IH s' H'). lia.
Qed.

Lemma digits_value_bounds s : forall acc n,
  digits_value s acc = Some n ->
  (acc * scale s <= n < (acc + 1) * scale s)%N.
Proof.
  induction s as [|c s IH]; intros acc n; simpl.
  - intros [= <-]. lia.
  - destruct (digit_of c) as [d|] eqn:Hd; [|discriminate].
    intros H. apply IH in H. apply digit_of_bound in Hd.
    pose proof (scale_pos s). nia.
Qed.

Lemma digits_value_inj s : forall s' acc n,
  String.length s = String.length s' ->
  digits_value s acc = Some n -> digits_value s' acc = Some n -> s = s'.
Proof.
  induction s as [|c s IH]; intros [|c' s'] acc n; simpl; try discriminate; auto.
  intros [= Hlen].
  destruct (digit_of c) as [d|] eqn:Hd; [|discriminate].
  destruct (digit_of c') as [d'|] eqn:Hd'; [|discriminate].
  intros H H'.
  pose proof (digits_value_bounds _ _ _ H) as B.
  pose proof (digits_value_bounds _ _ _ H') as B'.
  rewrite <- (scale_length _ _ Hlen) in B'.
  pose proof (scale_pos s).
  assert (d = d') as <- by nia.
  rewrite (digit_of_inj _ _ _ Hd Hd'). f_equal. eapply IH; eassumption.
Qed.

Lemma key_index_digits k n : key_index k = Some n -> digits_value k 0 = Some n.
Proof.
  destruct k as [|c rest]; [discriminate|]. unfold key_index.
  destruct (Ascii.eqb c "0" && negb (String.eqb rest "")); [discriminate|].
  destruct (digits_value (String c rest) 0) as [m|]; [|discriminate].
  destruct (m <? 4294967295)%N; congruence.
Qed.

Lemma key_index_leading c rest n :
  key_index (String c rest) = Some n -> rest <> "" -> (scale rest <= n)%N.
Proof.
  intros Hk Hrest. pose proof (key_index_digits _ _ Hk) as Hd.
  unfold key_index in Hk.
  destruct (Ascii.eqb_spec c "0") as [->|Hc].
  - destruct (String.eqb_spec rest ""); [contradiction|discriminate].
  - simpl in Hd. destruct (digit_of c) as [d|] eqn:Hdc; [|discriminate].
    apply digits_value_bounds in Hd.
    assert (d <> 0%N).
    { intros ->. apply Hc. now apply (digit_of_inj c "0" 0%N). }
    pose proof (scale_pos rest). nia.
Qed.

Lemma key_index_shorter k k' n :
  String.length k < String.length k' ->
  key_index k = Some n -> key_index k' = Some n -> False.
Proof.
  intros Hlen Hk Hk'.
  destruct k' as [|c' rest']; [discriminate|]. simpl in Hlen.
  assert (Hrest : rest' <> "").
  { intros ->. destruct k; [discriminate|simpl in Hlen; lia]. }
  pose proof (key_index_leading _ _ _ Hk' Hrest) as Hlow.
  apply key_index_digits, digits_value_bounds in Hk.
  assert (Hmono : (scale k <= scale rest')%N) by (apply scale_mono; lia).
  lia.
Qed.

Lemma key_index_inj k k' n :
  key_index k = Some n -> key_index k' = Some n -> k = k'.
Proof.
  intros Hk Hk'.
  destruct (Nat.lt_trichotomy (String.length k) (String.length k'))
    as [Hlt|[Heq|Hgt]].
  - destruct (key_index_shorter _ _ _ Hlt Hk Hk').
  - eapply digits_value_inj; eauto using key_index_digits.
  - destruct (key_index_shorter _ _ _ Hgt Hk' Hk).
Qed.

(** * Assignment keeps an object valid *)

Lemma goes_before_precedes key k :
  goes_before key k = true -> key_precedes key k = true.
Proof.
  unfold goes_before, key_precedes.
  destruct (key_index key), (key_index k); congruence.
Qed.

Lemma goes_before_trans key k x :
  goes_before key k = true -> key_precedes k x = true ->
  key_precedes key x = true.
Proof.
  unfold goes_before, key_precedes.
  destruct (key_index key), (key_index k), (key_index x);
    try congruence; rewrite ?N.ltb_lt; lia.
Qed.

Lemma not_goes_before_precedes key k :
  goes_before key k = false -> k <> key -> key_precedes k key = true.
Proof.
  unfold goes_before, key_precedes.
  destruct (key_index key) as [n|] eqn:Hkey, (key_index k) as [m|] eqn:Hk;
    try congruence.
  - intros Hlt Hne. apply N.ltb_ge in Hlt. apply N.ltb_lt.
    assert (m <> n) by (intros ->; apply Hne; eapply key_index_inj; eauto).
    lia.
  - intros _ Hne. now apply negb_true_iff, String.eqb_neq.
Qed.

Section object_assignment.

Context {V : Type}.
Implicit Types (entries : list (string * V)) (v : V).

Lemma obj_update_keys entries key v :
  List.map fst (obj_update entries key v) = List.map fst entries.
Proof.
  induction entries as [|[k w] rest IH]; simpl; [reflexivity|].
  destruct (String.eqb k key); simpl; congruence.
Qed.

Lemma forallb_obj_insert_new (p : string -> bool) entries key v :
  forallb p (List.map fst (obj_insert_new entries key v))
  = p key && forallb p (List.map fst entries).
Proof.
  induction entries as [|[k w] rest IH]; simpl; [reflexivity|].
  destruct (goes_before key k); simpl; [reflexivity|].
  rewrite IH. now destruct (p k), (p key).
Qed.

Lemma valid_keys_insert_new entries key v :
  valid_keys (List.map fst entries) = true -> has_key entries key = false ->
  valid_keys (List.map fst (obj_insert_new entries key v)) = true.
Proof.
  induction entries as [|[k w] rest IH]; simpl; [reflexivity|].
  intros Hv Hno. apply andb_prop in Hv as [Hk Hrest].
  apply orb_false_elim in Hno as [Hne Hno]. apply String.eqb_neq in Hne.
  destruct (goes_before key k) eqn:Hgo; simpl.
  - rewrite (goes_before_precedes _ _ Hgo), Hk, Hrest. simpl.
    rewrite andb_true_r. apply forallb_forall. intros x Hx.
    rewrite forallb_forall in Hk. eapply goes_before_trans; eauto.
  - rewrite forallb_obj_insert_new, Hk, (IH Hrest Hno).
    now rewrite (not_goes_before_precedes _ _ Hgo Hne).
Qed.

Lemma valid_keys_obj_set entries key v :
  valid_keys (List.map fst entries) = true ->
  valid_keys (List.map fst (obj_set entries key v)) = true.
Proof.
  intros Hv. unfold obj_set. destruct (has_key entries key) eqn:Hhas.
  - now rewrite obj_update_keys.
  - now apply valid_keys_insert_new.
Qed.

(** An assignment brings in no other value than the one it assigns. *)
Lemma obj_set_values (P : V -> Prop) entries key v :
  Forall (fun e => P (snd e)) entries -> P v ->
  Forall (fun e => P (snd e)) (obj_set entries key v).
Proof.
  intros Hall Hv. unfold obj_set. destruct (has_key entries key).
  - induction Hall as [|[k w] rest Hw Hrest IH]; simpl; [constructor|].
    destruct (String.eqb k key); constructor; auto.
  - induction Hall as [|[k w] rest Hw Hrest IH]; simpl;
      [repeat constructor; exact Hv|].
    destruct (goes_before key k); repeat constructor; auto.
Qed.

End object_assignment.

(** * Properties of the sanitizer *)

Lemma filter_agree {A : Type} (p q : A -> bool) xs :
  (forall x, p x = q x) -> List.filter p xs = List.filter q xs.
Proof.
  intros H. induction xs as [|x xs IH]; simpl; [reflexivity|].
  now rewrite H, IH.
Qed.

(** Induction over a value that gives, for an object, the property of all
    the members its enumeration visits, those of its prototypes too. *)
Lemma value_chain_ind (P : value -> Prop) :
  P VUndefined -> P VNull -> (forall b, P (VBool b)) ->
  (forall x, P (VNum x)) -> (forall str, P (VStr str)) ->
  (forall items, Forall P items -> P (VArr items)) ->
  (forall v, is_object v = true ->
     Forall (fun e => P (snd e)) (chain_entries v) -> P v) ->
  forall v, P v.
Proof.
  intros Hu Hn Hb Hx Hs Harr Hobj v.
  assert (Hindexed : forall items i,
    Forall P items -> Forall (fun e => P (snd e)) (indexed_from i items)).
  { induction items as [|x items IH]; intros i Hall; simpl; [constructor|].
    inversion Hall; subst. constructor; [assumption|now apply IH]. }
  enough (H : P v /\ Forall (fun e => P (snd e)) (chain_entries v))
    by apply H.
  induction v as [| | | | |items IH|entries IH|proto entries IHp IH]
    using value_ind; simpl; try (split; [auto|constructor]).
  - assert (Hitems : Forall P items).
    { eapply Forall_impl; [exact IH|]. now intros y [Hy _]. }
    split; [now apply Harr|now apply Hindexed].
  - assert (Hall : Forall (fun e => P (snd e)) entries).
    { eapply Forall_impl; [exact IH|]. now intros y [Hy _]. }
    split; [|exact Hall]. now apply Hobj.
  - assert (Hown : Forall (fun e => P (snd e)) entries).
    { eapply Forall_impl; [exact IH|]. now intros y [Hy _]. }
    assert (Hall : Forall (fun e => P (snd e))
                     (chain_entries (VProto proto entries))).
    { simpl. apply Forall_app. split; [exact Hown|].
      apply List.Forall_forall. intros e He.
      apply List.filter_In in He as [He _].
      destruct IHp as [_ IHp]. rewrite List.Forall_forall in IHp. auto. }
    split; [now apply Hobj|exact Hall].
Qed.

Lemma shadowed_app hidden keys key :
  shadowed (hidden ++ keys) key = shadowed hidden key || shadowed keys key.
Proof. apply existsb_app. Qed.

Lemma filter_filter_keys {V : Type} (p q : string -> bool)
  (entries : list (string * V)) :
  List.filter (fun e => p (fst e)) (List.filter (fun e => q (fst e)) entries)
  = List.filter (fun e => q (fst e) && p (fst e)) entries.
Proof.
  induction entries as [|e entries IH]; simpl; [reflexivity|].
  destruct (q (fst e)); simpl; [|exact IH].
  destruct (p (fst e)); now rewrite IH.
Qed.

Section loops.

Variable body : building -> string -> value -> building.

Lemma own_loop_spec hidden entries : forall newObj,
  own_loop body hidden entries newObj
  = fold_left (fun b e => body b (fst e) (snd e))
      (List.filter (fun e => negb (shadowed hidden (fst e))) entries) newObj.
Proof.
  induction entries as [|[key v] entries IH]; intros newObj; simpl;
    [reflexivity|].
  rewrite IH. now destruct (shadowed hidden key).
Qed.

Lemma elements_loop_spec hidden items : forall i newObj,
  elements_loop body hidden i items newObj
  = fold_left (fun b e => body b (fst e) (snd e))
      (List.filter (fun e => negb (shadowed hidden (fst e)))
         (indexed_from i items)) newObj.
Proof.
  induction items as [|x items IH]; intros i newObj; simpl; [reflexivity|].
  rewrite IH. now destruct (shadowed hidden (index_key i)).
Qed.

End loops.

(** The loop visits the entries of the enumeration, in their order. *)
Lemma for_in_loop_spec clean obj : forall hidden newObj,
  for_in_loop clean obj hidden newObj
  = fold_left (fun b e => loop_body clean b (fst e) (snd e))
      (List.filter (fun e => negb (shadowed hidden (fst e)))
         (chain_entries obj)) newObj.
Proof.
  induction obj as [| | | | |items _|entries _|proto entries IH _]
    using value_ind; intros hidden newObj; try reflexivity.
  - apply elements_loop_spec.
  - apply own_loop_spec.
  - simpl. rewrite IH, own_loop_spec, List.filter_app, fold_left_app.
    f_equal.
    rewrite (filter_filter_keys (fun k => negb (shadowed hidden k))
               (fun k => negb (shadowed (List.map fst entries) k))).
    apply filter_agree. intros e. rewrite shadowed_app.
    now destruct (shadowed hidden (fst e)),
      (shadowed (List.map fst entries) (fst e)).
Qed.

Lemma filter_all {A : Type} (p : A -> bool) xs :
  (forall x, p x = true) -> List.filter p xs = xs.
Proof.
  intros Hp. induction xs as [|x xs IH]; simpl; [reflexivity|].
  now rewrite Hp, IH.
Qed.

Section sanitizer_facts.

Variable s : settings.
Hypothesis filter_on : filterOutEmptyFields s = true.

Lemma filter_map_pass_spec {A B : Type} (keep : A -> bool) (f : A -> B) xs :
  filter_map_pass keep f xs = List.map f (List.filter keep xs).
Proof.
  induction xs as [|x rest IH]; simpl; [reflexivity|].
  destruct (keep x); simpl; now rewrite IH.
Qed.

(** The array branch is the source's [obj.filter(...).map(...)]. *)
Lemma cleanObject_arr items :
  cleanObject s (VArr items)
  = VArr (List.map (map_item s) (List.filter (keep_item s) items)).
Proof.
  simpl. rewrite filter_on. simpl. now rewrite filter_map_pass_spec.
Qed.

(** The object branch is the loop over the enumeration of the object. *)
Lemma cleanObject_loop v :
  is_object v = true ->
  cleanObject s v
  = built (fold_left (loop_step s) (chain_entries v) empty_object).
Proof.
  intros Hobj.
  assert (Hrun : cleanObject s v
                 = built (for_in_loop (cleanObject s) v [] empty_object)).
  { destruct v; try discriminate; simpl; now rewrite filter_on. }
  rewrite Hrun, for_in_loop_spec. f_equal. f_equal.
  now apply filter_all.
Qed.

Lemma cleanObject_obj_loop entries :
  cleanObject s (VObj entries)
  = built (fold_left (loop_step s) entries empty_object).
Proof. now rewrite cleanObject_loop. Qed.

Lemma cleanObject_scalar v :
  typeof_object v = false -> cleanObject s v = v.
Proof. destruct v; simpl; rewrite ?filter_on; simpl; congruence. Qed.

(** ** Assignments in enumeration order append *)

Lemma key_precedes_irrefl k : key_precedes k k = false.
Proof.
  unfold key_precedes. destruct (key_index k).
  - apply N.ltb_irrefl.
  - now rewrite String.eqb_refl.
Qed.

Lemma valid_keys_app a b :
  valid_keys (a ++ b)
  = forallb (fun x => forallb (key_precedes x) b) a
    && valid_keys a && valid_keys b.
Proof.
  induction a as [|k a IH]; simpl; [reflexivity|].
  rewrite forallb_app, IH.
  destruct (forallb (key_precedes k) a), (forallb (key_precedes k) b),
    (forallb (fun x => forallb (key_precedes x) b) a),
    (valid_keys a), (valid_keys b); reflexivity.
Qed.

Lemma obj_set_last {V : Type} (acc : list (string * V)) key v :
  forallb (fun k => key_precedes k key) (List.map fst acc) = true ->
  obj_set acc key v = acc ++ [(key, v)].
Proof.
  intros Hall. unfold obj_set.
  assert (Hno : has_key acc key = false).
  { unfold has_key. induction acc as [|[k w] acc IH]; simpl in *; [reflexivity|].
    apply andb_prop in Hall as [Hk Hall]. rewrite (IH Hall), orb_false_r.
    destruct (String.eqb_spec k key) as [->|]; [|reflexivity].
    now rewrite key_precedes_irrefl in Hk. }
  rewrite Hno. clear Hno.
  induction acc as [|[k w] acc IH]; simpl in *; [reflexivity|].
  apply andb_prop in Hall as [Hk Hall]. rewrite (IH Hall).
  replace (goes_before key k) with false; [reflexivity|].
  unfold key_precedes in Hk. unfold goes_before.
  destruct (key_index key), (key_index k); try reflexivity; try discriminate.
  symmetry. apply N.ltb_ge. apply N.ltb_lt in Hk. lia.
Qed.

(** For a key other than [__proto__] the body of the loop assigns an own
    property or does nothing. *)
Lemma loop_step_own newObj entry :
  String.eqb (fst entry) "__proto__" = false ->
  loop_step s newObj entry
  = (fst newObj,
     if keep_entry s entry
     then obj_set (snd newObj) (fst entry) (map_item s (snd entry))
     else snd newObj).
Proof.
  intros Hkey. destruct entry as [key v], newObj as [proto acc].
  unfold loop_step, loop_body, keep_entry, map_item, assign. simpl in *.
  rewrite Hkey. destruct (is_nullish v); [reflexivity|].
  destruct (typeof_object v).
  - now destruct (_ || _).
  - now destruct (not_empty_string v).
Qed.

Lemma loop_step_spec newObj entry :
  String.eqb (fst entry) "__proto__" = false ->
  forallb (fun k => key_precedes k (fst entry)) (List.map fst (snd newObj))
  = true ->
  loop_step s newObj entry
  = (fst newObj,
     if keep_entry s entry then snd newObj ++ [map_entry s entry]
     else snd newObj).
Proof.
  intros Hkey Hall. rewrite (loop_step_own _ _ Hkey).
  destruct (keep_entry s entry); [|reflexivity].
  now rewrite (obj_set_last _ _ _ Hall).
Qed.

Lemma loop_spec entries : forall newObj,
  has_key entries "__proto__" = false ->
  valid_keys (List.map fst (snd newObj) ++ List.map fst entries) = true ->
  fold_left (loop_step s) entries newObj
  = (fst newObj,
     snd newObj ++ List.map (map_entry s) (List.filter (keep_entry s) entries)).
Proof.
  induction entries as [|e entries IH]; intros [proto acc] Hproto Hv; simpl.
  - now rewrite app_nil_r.
  - simpl in Hv. pose proof Hv as Hv0.
    unfold has_key in Hproto. simpl in Hproto.
    apply orb_false_elim in Hproto as [Hkey Hproto].
    rewrite valid_keys_app in Hv. simpl in Hv.
    apply andb_prop in Hv as [Hv Hrest]. apply andb_prop in Hv as [Hcross Hacc].
    apply andb_prop in Hrest as [He Hrest].
    assert (Hlast : forallb (fun k => key_precedes k (fst e)) (List.map fst acc) = true).
    { apply forallb_forall. intros k Hk.
      rewrite forallb_forall in Hcross. specialize (Hcross k Hk).
      simpl in Hcross. now apply andb_prop in Hcross as [? _]. }
    assert (Hcross' :
      forallb (fun x => forallb (key_precedes x) (List.map fst entries))
        (List.map fst acc) = true).
    { apply forallb_forall. intros k Hk.
      rewrite forallb_forall in Hcross. specialize (Hcross k Hk).
      simpl in Hcross. now apply andb_prop in Hcross as [_ ?]. }
    rewrite (loop_step_spec (proto, acc) e Hkey Hlast). simpl.
    destruct (keep_entry s e) eqn:Hkeep.
    + rewrite IH; [|exact Hproto|].
      * simpl. now rewrite <- app_assoc.
      * simpl. rewrite List.map_app, <- app_assoc. exact Hv0.
    + rewrite IH; [reflexivity|exact Hproto|].
      simpl. rewrite valid_keys_app. now rewrite Hcross', Hacc, Hrest.
Qed.

(** On an object whose keys are in enumeration order and that has no key
    [__proto__], the loop is a filter followed by a map over the
    entries. *)
Lemma cleanObject_obj entries :
  valid_keys (List.map fst entries) = true ->
  has_key entries "__proto__" = false ->
  cleanObject s (VObj entries)
  = VObj (List.map (map_entry s) (List.filter (keep_entry s) entries)).
Proof.
  intros Hv Hproto. rewrite cleanObject_obj_loop.
  now rewrite (loop_spec entries empty_object Hproto).
Qed.

(** ** What is kept *)

Lemma kind_of_built newObj : kind_of (built newObj) = KKeyed.
Proof. destruct newObj as [[proto|] acc]; reflexivity. Qed.

Lemma cleanObject_kind v : kind_of (cleanObject s v) = kind_of v.
Proof.
  destruct v; try (now rewrite cleanObject_scalar).
  - simpl. now rewrite filter_on.
  - now rewrite cleanObject_arr.
  - rewrite cleanObject_loop by reflexivity. apply kind_of_built.
  - rewrite cleanObject_loop by reflexivity. apply kind_of_built.
Qed.

Lemma container_clean v :
  typeof_object v = true -> is_nullish v = false ->
  (keys_length (cleanObject s v) =? 0)%nat = is_empty_container (cleanObject s v)
  /\ is_nullish (cleanObject s v) = false
  /\ typeof_object (cleanObject s v) = true
  /\ not_empty_string (cleanObject s v) = true
  /\ is_container (cleanObject s v) = true.
Proof.
  intros Hobj Hnull. pose proof (cleanObject_kind v) as Hk.
  destruct v; try discriminate;
    destruct (cleanObject s _) as [| | | | |l|l|q l]; try discriminate;
    destruct l; repeat split; reflexivity.
Qed.

(** The test of lines 76 is the test for an empty container. *)
Lemma keep_test_clean v :
  typeof_object v = true -> is_nullish v = false ->
  (0 <? keys_length (cleanObject s v))%nat
  || (isArray (cleanObject s v) && (0 <? array_length (cleanObject s v))%nat)
  = negb (is_empty_container (cleanObject s v)).
Proof.
  intros Hobj Hnull. pose proof (cleanObject_kind v) as Hk.
  destruct v; try discriminate;
    destruct (cleanObject s _) as [| | | | |l|l|q l]; try discriminate;
    destruct l; reflexivity.
Qed.

Lemma keep_item_spec item :
  keep_item s item
  = negb (is_nullish item)
    && negb (typeof_object item && is_empty_container (cleanObject s item)).
Proof.
  unfold keep_item. destruct (is_nullish item) eqn:Hnull; [reflexivity|].
  destruct (typeof_object item) eqn:Hobj; simpl.
  - destruct (container_clean item Hobj Hnull) as [-> _].
    destruct (is_empty_container (cleanObject s item)) eqn:He; [reflexivity|].
    destruct item as [| | | | |[|x l]| |]; try reflexivity.
    rewrite cleanObject_arr in He. discriminate.
  - destruct item; try discriminate; reflexivity.
Qed.

Lemma keep_entry_spec entry :
  keep_entry s entry = negb (dropped_member s (snd entry)).
Proof.
  unfold keep_entry, dropped_member. destruct entry as [k v]. simpl.
  destruct (is_nullish v) eqn:Hnull; [reflexivity|].
  destruct (typeof_object v) eqn:Hobj; simpl.
  - rewrite (keep_test_clean v Hobj Hnull).
    destruct v; try discriminate; reflexivity.
  - now rewrite orb_false_r, negb_involutive.
Qed.

(** ** A cleaned tree is a valid tree with nothing left to prune *)

Lemma scalar_kept v :
  is_nullish v = false -> typeof_object v = false ->
  not_empty_string v = true -> kept_member v.
Proof. destruct v; try discriminate; intros _ _ H; now repeat split. Qed.

Lemma cleaned_kept v :
  is_nullish v = false -> typeof_object v = true ->
  valid (cleanObject s v) = true -> pruned (cleanObject s v) = true ->
  is_empty_container (cleanObject s v) = false ->
  kept_member (cleanObject s v).
Proof.
  intros Hnull Hobj Hvalid Hpruned Hempty.
  destruct (container_clean v Hobj Hnull) as (_ & Hn & _ & Hstr & _).
  now repeat split.
Qed.

Lemma has_key_obj_set {V : Type} (acc : list (string * V)) key v key' :
  has_key (obj_set acc key v) key' = has_key acc key' || String.eqb key key'.
Proof.
  unfold obj_set. destruct (has_key acc key) eqn:Hhas.
  - unfold has_key in *.
    induction acc as [|[k w] acc IH]; simpl in *; [discriminate|].
    destruct (String.eqb k key) eqn:Hk; simpl in *.
    + apply String.eqb_eq in Hk. subst k.
      destruct (String.eqb key key'); simpl; [reflexivity|].
      now rewrite orb_false_r.
    + rewrite (IH Hhas). now rewrite orb_assoc.
  - clear Hhas. unfold has_key.
    induction acc as [|[k w] acc IH]; simpl; [now rewrite orb_false_r|].
    destruct (goes_before key k); simpl.
    + destruct (String.eqb key key'), (String.eqb k key'); simpl;
        rewrite ?orb_true_r, ?orb_false_r; reflexivity.
    + rewrite IH. now rewrite orb_assoc.
Qed.

(** The loop keeps the new object well built: its own keys are in order
    and none is [__proto__], its members are kept members, and so is its
    prototype if it has one. *)
Lemma loop_step_kept newObj entry :
  valid (cleanObject s (snd entry)) = true ->
  pruned (cleanObject s (snd entry)) = true ->
  well_built newObj -> well_built (loop_step s newObj entry).
Proof.
  destruct entry as [key v], newObj as [proto acc]. simpl.
  intros Hvalid Hpruned Hb. pose proof Hb as (Hkeys & Hnone & Hacc & Hproto).
  simpl in Hkeys, Hnone, Hacc, Hproto.
  assert (Hassign : forall w, kept_member w ->
            well_built (assign (proto, acc) key w)).
  { intros w Hw. unfold assign. simpl.
    destruct (String.eqb_spec key "__proto__") as [->|Hne].
    - destruct (is_container w) eqn:Hc; [|exact Hb].
      split; [exact Hkeys|]. split; [exact Hnone|]. split; [exact Hacc|].
      now split.
    - split; [now apply valid_keys_obj_set|]. split; [|split].
      + simpl. rewrite has_key_obj_set, Hnone. now apply String.eqb_neq.
      + now apply (obj_set_values kept_member).
      + exact Hproto. }
  unfold loop_step, loop_body. simpl.
  destruct (is_nullish v) eqn:Hnull; [exact Hb|].
  destruct (typeof_object v) eqn:Hobj.
  - rewrite (keep_test_clean v Hobj Hnull).
    destruct (is_empty_container (cleanObject s v)) eqn:Hempty; [exact Hb|].
    apply Hassign. now apply cleaned_kept.
  - destruct (not_empty_string v) eqn:Hstr; [|exact Hb].
    apply Hassign. now apply scalar_kept.
Qed.

Lemma loop_kept entries :
  Forall (fun e => valid (cleanObject s (snd e)) = true
                   /\ pruned (cleanObject s (snd e)) = true) entries ->
  forall newObj,
    well_built newObj -> well_built (fold_left (loop_step s) entries newObj).
Proof.
  induction 1 as [|e entries [Hvalid Hpruned] _ IH]; intros newObj Hb;
    [exact Hb|].
  simpl. apply IH. now apply loop_step_kept.
Qed.

Lemma well_built_sound newObj :
  well_built newObj ->
  valid (built newObj) = true /\ pruned (built newObj) = true
  /\ has_key (entries_of (built newObj)) "__proto__" = false.
Proof.
  destruct newObj as [proto acc]. intros (Hkeys & Hnone & Hacc & Hproto).
  rewrite List.Forall_forall in Hacc.
  assert (Hvalid : forallb (fun e => valid (snd e)) acc = true).
  { apply List.forallb_forall. intros e He. now apply (Hacc e He). }
  assert (Hpruned :
    forallb (fun e => negb (is_nullish (snd e))
                      && negb (is_empty_container (snd e))
                      && not_empty_string (snd e) && pruned (snd e)) acc
    = true).
  { apply List.forallb_forall. intros e He.
    destruct (Hacc e He) as (_ & Hp & Hn & He' & Hs).
    now rewrite Hn, He', Hs, Hp. }
  unfold built. simpl in *. destruct proto as [proto|]; simpl.
  - destruct Hproto as ((Hv & Hp & _) & Hc).
    now rewrite Hkeys, Hvalid, Hpruned, Hv, Hp, Hc.
  - now rewrite Hkeys, Hvalid, Hpruned.
Qed.

Lemma well_built_empty : well_built empty_object.
Proof. repeat split. constructor. Qed.

(** Whatever it is given, [cleanObject] returns a valid tree with nothing
    left to prune. *)
Lemma cleanObject_sound v :
  valid (cleanObject s v) = true /\ pruned (cleanObject s v) = true.
Proof.
  induction v as [| | | | |items IH|v Hobj IH] using value_chain_ind;
    try (now rewrite cleanObject_scalar).
  - simpl. now rewrite filter_on.
  - rewrite cleanObject_arr. simpl.
    rewrite List.Forall_forall in IH.
    split; apply List.forallb_forall; intros y Hy;
      apply List.in_map_iff in Hy as (x & <- & Hx);
      apply List.filter_In in Hx as [Hx Hkeep];
      destruct (IH x Hx) as [Hvalid Hpruned]; unfold map_item.
    + destruct (typeof_object x) eqn:Hobj; [exact Hvalid|].
      now destruct x.
    + rewrite keep_item_spec in Hkeep.
      destruct (is_nullish x) eqn:Hnull; [discriminate|].
      destruct (typeof_object x) eqn:Hobj; simpl in Hkeep.
      * destruct (container_clean x Hobj Hnull) as (_ & -> & _).
        rewrite Hpruned. now destruct (is_empty_container _).
      * rewrite Hnull. destruct x; try discriminate; reflexivity.
  - rewrite (cleanObject_loop v Hobj).
    destruct (well_built_sound
                (fold_left (loop_step s) (chain_entries v) empty_object))
      as (Hvalid & Hpruned & _); [|now split].
    apply loop_kept; [exact IH|apply well_built_empty].
Qed.

Lemma valid_cleanObject v : valid (cleanObject s v) = true.
Proof. apply cleanObject_sound. Qed.

Lemma pruned_cleanObject v : pruned (cleanObject s v) = true.
Proof. apply cleanObject_sound. Qed.


Lemma map_filter_fixed {A : Type} (keep : A -> bool) (f : A -> A) xs :
  (forall x, In x xs -> keep x = true /\ f x = x) ->
  List.map f (List.filter keep xs) = xs.
Proof.
  induction xs as [|x l IH]; simpl; [reflexivity|]. intros H.
  destruct (H x (or_introl eq_refl)) as [-> Hf]. simpl.
  rewrite Hf, IH; auto.
Qed.

(** A valid tree of plain data with nothing to prune is a fixed point. *)
Lemma cleanObject_fixed v :
  valid v = true -> pruned v = true -> plain v = true -> cleanObject s v = v.
Proof.
  induction v as [| | | | |items IH|entries IH|proto entries _ _] using value_ind;
    try (intros; now rewrite cleanObject_scalar).
  - intros _ _ _. simpl. now rewrite filter_on.
  - intros Hv Hp Hplain. rewrite cleanObject_arr. f_equal. simpl in *.
    rewrite List.forallb_forall in *. rewrite List.Forall_forall in IH.
    apply map_filter_fixed. intros x Hx.
    specialize (Hp x Hx). apply andb_prop in Hp as [Hp Hpx].
    apply andb_prop in Hp as [Hnull Hemp].
    specialize (IH x Hx (Hv x Hx) Hpx (Hplain x Hx)).
    rewrite keep_item_spec. unfold map_item. rewrite IH.
    apply negb_true_iff in Hemp. rewrite Hnull, Hemp, andb_false_r.
    split; [reflexivity|now destruct (typeof_object x)].
  - intros Hv Hp Hplain. simpl in Hv, Hplain.
    apply andb_prop in Hv as [Hk Hv].
    apply andb_prop in Hplain as [Hproto Hplain].
    apply negb_true_iff in Hproto.
    rewrite (cleanObject_obj _ Hk Hproto). f_equal. simpl in *.
    rewrite List.forallb_forall in *. rewrite List.Forall_forall in IH.
    apply map_filter_fixed. intros x Hx.
    specialize (Hp x Hx). apply andb_prop in Hp as [Hp Hpx].
    apply andb_prop in Hp as [Hp Hstr]. apply andb_prop in Hp as [Hnull Hemp].
    specialize (IH x Hx (Hv x Hx) Hpx (Hplain x Hx)).
    rewrite keep_entry_spec. unfold dropped_member, map_entry, map_item.
    rewrite IH. apply negb_true_iff in Hemp. apply negb_true_iff in Hnull.
    rewrite Hnull, Hemp, Hstr, andb_false_r.
    split; [reflexivity|]. destruct x as [k w]. simpl.
    now destruct (typeof_object w).
Qed.



(** ** Lookup in a cleaned object *)

Lemma map_item_cleanObject v : map_item s v = cleanObject s v.
Proof.
  unfold map_item. destruct (typeof_object v) eqn:H; [reflexivity|].
  now rewrite cleanObject_scalar.
Qed.

Lemma obj_get_absent (q : string * value -> bool) entries key :
  forallb (key_precedes key) (List.map fst entries) = true ->
  obj_get (List.map (map_entry s) (List.filter q entries)) key = None.
Proof.
  induction entries as [|[k v] l IH]; simpl; [reflexivity|].
  intros H. apply andb_prop in H as [Hk Hl].
  assert (Hne : String.eqb k key = false).
  { destruct (String.eqb_spec k key) as [->|]; [|reflexivity].
    now rewrite key_precedes_irrefl in Hk. }
  destruct (q (k, v)); simpl; rewrite ?Hne; auto.
Qed.

Lemma obj_get_cleaned entries key :
  valid_keys (List.map fst entries) = true ->
  obj_get (List.map (map_entry s) (List.filter (keep_entry s) entries)) key
  = match obj_get entries key with
    | Some v => if dropped_member s v then None else Some (cleanObject s v)
    | None => None
    end.
Proof.
  induction entries as [|[k v] l IH]; simpl; [reflexivity|].
  intros H. apply andb_prop in H as [Hk Hl].
  rewrite keep_entry_spec. simpl.
  destruct (String.eqb_spec k key) as [->|Hne].
  - destruct (dropped_member s v); simpl.
    + now apply obj_get_absent.
    + now rewrite String.eqb_refl, map_item_cleanObject.
  - destruct (dropped_member s v); simpl; auto.
    apply String.eqb_neq in Hne. rewrite Hne. auto.
Qed.

End sanitizer_facts.

(** ** The properties of the specification *)

Lemma clean_on x : clean x true = cleanObject filtering x.
Proof. reflexivity. Qed.

(** C1: the specification expects [clean([1, null, "", {}, [], "ok"], true)]
    to be [[1, "ok"]].  The array branch tests an element for [null],
    [undefined] and emptiness as a container only, so the empty string
    stays: the result is [[1, "", "ok"]]. *)
Theorem clean_seq_keeps_empty_string :
  clean ex_seq true = VArr [VNum 1; VStr ""; VStr "ok"]
  /\ clean ex_seq true <> VArr [VNum 1; VStr "ok"].
Proof. split; [reflexivity|discriminate]. Qed.




(** C3: with the filter flag off the sanitizer is the identity: for
    every input [x], [clean(x, false)] is [x] itself; on the heap the call
    returns the very reference it was given and touches nothing. *)
Theorem clean_disabled_identity :
  (forall x, clean x false = x)
  /\ (forall fuel s h x,
        filterOutEmptyFields s = false ->
        cleanObjectH (S fuel) s x h = (h, Ok x)).
Proof.
  split.
  - intros x. destruct x; reflexivity.
  - intros fuel s h x Hoff. simpl. now rewrite Hoff.
Qed.

Lemma clean_disabled_identity_witness :
  cleanObjectH 1 verbose_unfiltered_settings (HRef 1%positive) ex_heap
  = (ex_heap, Ok (HRef 1%positive)).
Proof.
  destruct clean_disabled_identity as [_ H]. apply H. reflexivity.
Defined.




(** C6: pruning collapses recursively: a subtree that is empty once cleaned
    loses its key, so [clean({x: {y: []}, z: [{}]}, true)] is exactly [{}];
    in general nothing is left to prune in a cleaned tree, at any depth. *)
Theorem clean_collapses_empty_subtrees :
  clean ex_nested true = VObj []
  /\ forall x, pruned (clean x true) = true.
Proof.
  split; [reflexivity|]. intros x.
  apply (pruned_cleanObject filtering eq_refl).
Qed.

(** C10: with filtering enabled the sanitizer preserves the kind of its
    input: a sequence stays a sequence, a keyed container a keyed
    container, and [null], [undefined] and scalars are returned as they
    are. *)
Theorem clean_preserves_kind (x : value) :
  kind_of (clean x true) = kind_of x
  /\ match kind_of x with
     | KNullish | KScalar => clean x true = x
     | KSequence | KKeyed => True
     end.
Proof.
  split.
  - apply (cleanObject_kind filtering eq_refl).
  - destruct x; simpl; auto.
Qed.

(** * The sanitizer writes to new objects only *)

Section frame.

Context {A B : Type}.
Implicit Types (m : M A).

Lemma keeps_ret h0 (a : A) : keeps h0 (ret a).
Proof. intros h Hh. exact Hh. Qed.

Lemma keeps_throw h0 e : keeps h0 (throw e : M A).
Proof. intros h Hh. exact Hh. Qed.

Lemma keeps_bind h0 m (k : A -> M B) :
  keeps h0 m -> (forall a, keeps h0 (k a)) -> keeps h0 (bind m k).
Proof.
  intros Hm Hk h Hh. unfold bind. specialize (Hm h Hh).
  destruct (m h) as [h' [a|e]]; simpl in *; [now apply Hk|exact Hm].
Qed.

(** The location of a new object is none of [h0]. *)
Lemma keeps_alloc c (k : loc -> M B) h0 :
  (forall l, h0 !! l = None -> keeps h0 (k l)) -> keeps h0 (bind (alloc c) k).
Proof.
  intros Hk h Hh. unfold bind, alloc. cbn.
  assert (Hnone : h0 !! fresh (dom h) = None).
  { destruct (h0 !! fresh (dom h)) as [c'|] eqn:E; [|reflexivity].
    exfalso. apply (is_fresh (dom h)). apply elem_of_dom.
    exists c'. eapply lookup_weaken; eassumption. }
  apply (Hk _ Hnone). now apply insert_subseteq_r.
Qed.

End frame.

Lemma keeps_read h0 l : keeps h0 (read l).
Proof. intros h Hh. unfold read. now destruct (h !! l). Qed.

Lemma keeps_set_prop h0 l key v :
  h0 !! l = None -> keeps h0 (set_prop l key v).
Proof.
  intros Hnone h Hh. unfold set_prop.
  destruct (h !! l) as [[items|entries|old entries]|]; simpl; auto;
    destruct (String.eqb key "__proto__"); try destruct v; simpl; auto;
    now apply insert_subseteq_r.
Qed.

Lemma keeps_for_inH h0 l : keeps h0 (for_inH l).
Proof. intros h Hh. exact Hh. Qed.

Lemma keeps_isArrayH h0 v : keeps h0 (isArrayH v).
Proof.
  destruct v; try apply keeps_ret.
  apply keeps_bind; [apply keeps_read|intros; apply keeps_ret].
Qed.

Lemma keeps_array_lengthH h0 v : keeps h0 (array_lengthH v).
Proof.
  destruct v; try apply keeps_ret.
  apply keeps_bind; [apply keeps_read|intros; apply keeps_ret].
Qed.

Lemma keeps_keys_lengthH h0 v : keeps h0 (keys_lengthH v).
Proof.
  destruct v; try apply keeps_ret; try apply keeps_throw.
  apply keeps_bind; [apply keeps_read|intros; apply keeps_ret].
Qed.

Lemma keeps_filterH {A : Type} h0 (p : A -> M bool) xs :
  (forall x, keeps h0 (p x)) -> keeps h0 (filterH p xs).
Proof.
  intros Hp. induction xs as [|x rest IH]; simpl; [apply keeps_ret|].
  apply keeps_bind; [apply Hp|]. intros b.
  apply keeps_bind; [apply IH|]. intros kept. apply keeps_ret.
Qed.

Lemma keeps_mapH {A B : Type} h0 (f : A -> M B) xs :
  (forall x, keeps h0 (f x)) -> keeps h0 (mapH f xs).
Proof.
  intros Hf. induction xs as [|x rest IH]; simpl; [apply keeps_ret|].
  apply keeps_bind; [apply Hf|]. intros y.
  apply keeps_bind; [apply IH|]. intros ys. apply keeps_ret.
Qed.

Lemma keeps_forH {A : Type} h0 (body : A -> M unit) xs :
  (forall x, keeps h0 (body x)) -> keeps h0 (forH xs body).
Proof.
  intros Hb. induction xs as [|x rest IH]; simpl; [apply keeps_ret|].
  apply keeps_bind; [apply Hb|]. intros _. apply IH.
Qed.

Lemma keeps_keep_itemH h0 clean_rec item :
  (forall v, keeps h0 (clean_rec v)) -> keeps h0 (keep_itemH clean_rec item).
Proof.
  intros Hrec. unfold keep_itemH.
  destruct (is_nullishH item); [apply keeps_ret|].
  apply keeps_bind.
  - destruct (typeof_objectH item); [|apply keeps_ret].
    apply keeps_bind; [apply Hrec|]. intros cleaned.
    apply keeps_bind; [apply keeps_keys_lengthH|]. intros n. apply keeps_ret.
  - intros [|]; [apply keeps_ret|].
    apply keeps_bind.
    + apply keeps_bind; [apply keeps_isArrayH|]. intros [|]; [|apply keeps_ret].
      apply keeps_bind; [apply keeps_array_lengthH|]. intros n. apply keeps_ret.
    + intros [|]; apply keeps_ret.
Qed.

Lemma keeps_map_itemH h0 clean_rec item :
  (forall v, keeps h0 (clean_rec v)) -> keeps h0 (map_itemH clean_rec item).
Proof.
  intros Hrec. unfold map_itemH.
  destruct (typeof_objectH item); [apply Hrec|apply keeps_ret].
Qed.

Lemma keeps_loop_bodyH h0 clean_rec newObj entry :
  (forall v, keeps h0 (clean_rec v)) -> h0 !! newObj = None ->
  keeps h0 (loop_bodyH clean_rec newObj entry).
Proof.
  intros Hrec Hnew. unfold loop_bodyH. destruct entry as [key v].
  destruct (is_nullishH v); [apply keeps_ret|].
  destruct (typeof_objectH v).
  - apply keeps_bind; [apply Hrec|]. intros cleaned.
    apply keeps_bind; [apply keeps_keys_lengthH|]. intros n.
    apply keeps_bind.
    + destruct (0 <? n)%nat; [apply keeps_ret|].
      apply keeps_bind; [apply keeps_isArrayH|]. intros [|]; [|apply keeps_ret].
      apply keeps_bind; [apply keeps_array_lengthH|]. intros m. apply keeps_ret.
    + intros [|]; [now apply keeps_set_prop|apply keeps_ret].
  - destruct (not_empty_stringH v); [now apply keeps_set_prop|apply keeps_ret].
Qed.

(** Whatever the call does, and however it ends, the objects that were
    there before are as they were. *)
Lemma cleanObjectH_keeps s fuel : forall obj h0, keeps h0 (cleanObjectH fuel s obj).
Proof.
  induction fuel as [|fuel IH]; intros obj h0; simpl; [apply keeps_throw|].
  destruct (negb (filterOutEmptyFields s)); [apply keeps_ret|].
  destruct obj; try apply keeps_ret.
  assert (Hobject : keeps h0
            (bind (alloc (CObj []))
               (fun newObj =>
                  bind (for_inH l)
                    (fun entries =>
                       bind (forH entries (loop_bodyH (cleanObjectH fuel s) newObj))
                         (fun _ => ret (HRef newObj)))))).
  { apply keeps_alloc. intros newObj Hnew.
    apply keeps_bind; [apply keeps_for_inH|]. intros entries.
    apply keeps_bind; [|intros _; apply keeps_ret].
    apply keeps_forH. intros entry. apply keeps_loop_bodyH; [|exact Hnew].
    intros v. apply IH. }
  apply keeps_bind; [apply keeps_read|]. intros [items|entries|proto entries];
    [|exact Hobject|exact Hobject].
  apply keeps_bind.
  { apply keeps_filterH. intros x. apply keeps_keep_itemH. intros v. apply IH. }
  intros kept. apply keeps_alloc. intros filtered _.
  apply keeps_bind.
  { apply keeps_mapH. intros x. apply keeps_map_itemH. intros v. apply IH. }
  intros cleaned. apply keeps_alloc. intros newArray _. apply keeps_ret.
Qed.

(** A heap that extends another shows the same trees. *)
Lemma snapshot_weaken h h' :
  h ⊆ h' ->
  forall depth v t, snapshot depth h v = Some t -> snapshot depth h' v = Some t.
Proof.
  intros Hsub. induction depth as [|depth IH]; intros v t;
    destruct v; simpl; try congruence.
  destruct (h !! l) as [c|] eqn:Hl; [|discriminate].
  rewrite (lookup_weaken _ _ _ _ Hl Hsub).
  assert (Hentries : forall entries entries',
            mapM (fun e : string * hvalue =>
                    w ← snapshot depth h (snd e); Some (fst e, w)) entries
            = Some entries' ->
            mapM (fun e : string * hvalue =>
                    w ← snapshot depth h' (snd e); Some (fst e, w)) entries
            = Some entries').
  { intros entries entries' Hm. apply mapM_Some in Hm. apply mapM_Some.
    eapply Forall2_impl; [exact Hm|]. intros x y Hxy. cbn in *.
    apply bind_Some in Hxy as (w & Hw & Hy).
    apply bind_Some. exists w. split; [now apply IH|exact Hy]. }
  destruct c as [items|entries|proto entries]; intros Hs.
  - apply bind_Some in Hs as (items' & Hm & Ht).
    apply bind_Some. exists items'. split; [|exact Ht].
    apply mapM_Some in Hm. apply mapM_Some.
    eapply Forall2_impl; [exact Hm|]. intros x y Hxy. now apply IH.
  - apply bind_Some in Hs as (entries' & Hm & Ht).
    apply bind_Some. exists entries'. split; [|exact Ht]. now apply Hentries.
  - apply bind_Some in Hs as (proto' & Hp & Hs).
    apply bind_Some in Hs as (entries' & Hm & Ht).
    apply bind_Some. exists proto'. split; [now apply IH|].
    apply bind_Some. exists entries'. split; [|exact Ht]. now apply Hentries.
Qed.

(** * The heap sanitizer computes the tree sanitizer *)

Lemma snapshot_entries d h (entries : list (string * hvalue)) tes :
  mapM (fun e : string * hvalue => w ← snapshot d h (snd e); Some (fst e, w))
    entries = Some tes
  <-> Forall2 (member_rel d h) entries tes.
Proof.
  rewrite mapM_Some. split; intros Hall;
    (eapply Forall2_impl; [exact Hall|]); intros e te He; cbn in *.
  - apply bind_Some in He as (w & Hw & [= <-]). now split.
  - destruct He as [Hk Hw]. apply bind_Some. exists (snd te).
    split; [exact Hw|]. rewrite Hk. now destruct te.
Qed.

Lemma snapshot_ref d h l t :
  snapshot d h (HRef l) = Some t ->
  exists d', d = S d'
    /\ ((exists items ts,
           h !! l = Some (CArr items)
           /\ Forall2 (fun i ti => snapshot d' h i = Some ti) items ts
           /\ t = VArr ts)
        \/ (exists entries tes,
              h !! l = Some (CObj entries)
              /\ Forall2 (member_rel d' h) entries tes
              /\ t = VObj tes)
        \/ (exists proto entries tproto tes,
              h !! l = Some (CProto proto entries)
              /\ snapshot d' h (HRef proto) = Some tproto
              /\ Forall2 (member_rel d' h) entries tes
              /\ t = VProto tproto tes)).
Proof.
  destruct d as [|d']; [discriminate|]. cbn [snapshot]. intros H. exists d'.
  split; [reflexivity|].
  destruct (h !! l) as [[items|entries|proto entries]|]; [| | |discriminate].
  - left. apply bind_Some in H as (ts & Hm & [= <-]).
    exists items, ts. repeat split. now apply mapM_Some.
  - right. left. apply bind_Some in H as (tes & Hm & [= <-]).
    exists entries, tes. repeat split. now apply snapshot_entries.
  - right. right. apply bind_Some in H as (tproto & Hp & H).
    apply bind_Some in H as (tes & Hm & [= <-]).
    exists proto, entries, tproto, tes. repeat split; [exact Hp|].
    now apply snapshot_entries.
Qed.

Lemma snapshot_arr d h l items ts :
  h !! l = Some (CArr items) ->
  Forall2 (fun i ti => snapshot d h i = Some ti) items ts ->
  snapshot (S d) h (HRef l) = Some (VArr ts).
Proof.
  intros Hl Hall. cbn [snapshot]. rewrite Hl.
  apply bind_Some. exists ts. split; [now apply mapM_Some|reflexivity].
Qed.

Lemma snapshot_obj d h l entries tes :
  h !! l = Some (CObj entries) ->
  Forall2 (member_rel d h) entries tes ->
  snapshot (S d) h (HRef l) = Some (VObj tes).
Proof.
  intros Hl Hall. cbn [snapshot]. rewrite Hl.
  apply bind_Some. exists tes. split; [now apply snapshot_entries|reflexivity].
Qed.

Lemma snapshot_proto d h l proto entries tproto tes :
  h !! l = Some (CProto proto entries) ->
  snapshot d h (HRef proto) = Some tproto ->
  Forall2 (member_rel d h) entries tes ->
  snapshot (S d) h (HRef l) = Some (VProto tproto tes).
Proof.
  intros Hl Hp Hall. cbn [snapshot]. rewrite Hl.
  apply bind_Some. exists tproto. split; [exact Hp|].
  apply bind_Some. exists tes. split; [now apply snapshot_entries|reflexivity].
Qed.

Ltac snapshot_cases H :=
  apply snapshot_ref in H
    as (?d & -> & [(?items & ?ts & ?Hl & ?Hall & ->)
                  |[(?entries & ?tes & ?Hl & ?Hall & ->)
                   |(?proto & ?entries & ?tproto & ?tes & ?Hl & ?Hproto
                     & ?Hall & ->)]]).

Lemma snapshot_tests d h v t :
  snapshot d h v = Some t ->
  is_nullishH v = is_nullish t
  /\ typeof_objectH v = typeof_object t
  /\ not_empty_stringH v = not_empty_string t.
Proof.
  destruct v; try (destruct d; simpl; intros [= <-]; now repeat split).
  intros H. snapshot_cases H; now repeat split.
Qed.

Lemma snapshot_scalar d h v t :
  snapshot d h v = Some t -> typeof_object t = false ->
  forall d' h', snapshot d' h' v = Some t.
Proof.
  destruct v; try (destruct d; simpl; intros [= <-]; now destruct d').
  intros H. snapshot_cases H; discriminate.
Qed.

(** A reference reads as an array or object, another value as none. *)
Lemma snapshot_container d h v t :
  snapshot d h v = Some t ->
  is_container t = match v with HRef _ => true | _ => false end.
Proof.
  destruct v; try (destruct d; simpl; now intros [= <-]).
  intros H. snapshot_cases H; reflexivity.
Qed.

Lemma snapshot_isArrayH d h v t :
  snapshot d h v = Some t -> isArrayH v h = (h, Ok (isArray t)).
Proof.
  destruct v; try (destruct d; simpl; now intros [= <-]).
  intros H. snapshot_cases H; unfold isArrayH, bind, read; now rewrite Hl.
Qed.

Lemma snapshot_array_lengthH d h v t :
  snapshot d h v = Some t -> array_lengthH v h = (h, Ok (array_length t)).
Proof.
  destruct v; try (destruct d; simpl; now intros [= <-]).
  intros H. snapshot_cases H; unfold array_lengthH, bind, read; rewrite Hl;
    simpl; try reflexivity.
  now rewrite (Forall2_length _ _ _ Hall).
Qed.

Lemma snapshot_keys_lengthH d h v t :
  snapshot d h v = Some t -> is_nullish t = false ->
  keys_lengthH v h = (h, Ok (keys_length t)).
Proof.
  destruct v; try (destruct d; simpl; intros [= <-]; try discriminate; now intros _).
  intros H _. snapshot_cases H; unfold keys_lengthH, bind, read; rewrite Hl;
    simpl; now rewrite (Forall2_length _ _ _ Hall).
Qed.

(** A structure that reads as a tree down to some depth reads as the same
    tree down to any greater depth. *)
Lemma snapshot_S h : forall d v t,
  snapshot d h v = Some t -> snapshot (S d) h v = Some t.
Proof.
  induction d as [|d IH]; intros v t H; destruct v; try exact H;
    try discriminate.
  assert (Hmembers : forall (entries : list (string * hvalue)) tes,
            Forall2 (member_rel d h) entries tes ->
            Forall2 (member_rel (S d) h) entries tes).
  { intros entries tes Hall. eapply Forall2_impl; [exact Hall|].
    intros e te [Hk Hw]. split; [exact Hk|now apply IH]. }
  apply snapshot_ref in H
    as (d' & [= <-] & [(items & ts & Hl & Hall & ->)
                      |[(entries & tes & Hl & Hall & ->)
                       |(proto & entries & tproto & tes & Hl & Hproto
                         & Hall & ->)]]).
  - apply (snapshot_arr _ _ _ _ _ Hl).
    eapply Forall2_impl; [exact Hall|]. intros i ti Hi. now apply IH.
  - apply (snapshot_obj _ _ _ _ _ Hl). now apply Hmembers.
  - apply (snapshot_proto _ _ _ _ _ _ _ Hl); [now apply IH|now apply Hmembers].
Qed.

Lemma snapshot_mono h d d' v t :
  d <= d' -> snapshot d h v = Some t -> snapshot d' h v = Some t.
Proof.
  intros Hle H. induction Hle as [|d' _ IH]; [exact H|now apply snapshot_S].
Qed.

Lemma snapshot_fun h d d' v t t' :
  snapshot d h v = Some t -> snapshot d' h v = Some t' -> t = t'.
Proof.
  intros H H'.
  pose proof (snapshot_mono h d (Nat.max d d') v t ltac:(lia) H) as H1.
  pose proof (snapshot_mono h d' (Nat.max d d') v t' ltac:(lia) H') as H2.
  congruence.
Qed.

(** ** The chain of prototypes of a structure that reads as a tree

    Its objects are all different, so there are no more of them than the
    heap has objects. *)
Lemma chain_within_heap h : forall d l t (X : gset loc),
  snapshot d h (HRef l) = Some t ->
  X ⊆ dom h ->
  (forall x, x ∈ X ->
     exists dx tx,
       snapshot dx h (HRef x) = Some tx /\ proto_depth t < proto_depth tx) ->
  size X + proto_depth t < size h.
Proof.
  induction d as [|d IH]; intros l t X Hsnap Hsub Hdeeper; [discriminate|].
  assert (Hnew : l ∉ X).
  { intros Hin. destruct (Hdeeper l Hin) as (dx & tx & Hx & Hlt).
    rewrite (snapshot_fun _ _ _ _ _ _ Hsnap Hx) in Hlt. lia. }
  assert (Hdom : l ∈ dom h).
  { apply elem_of_dom. destruct (h !! l) eqn:E; [eauto|].
    cbn [snapshot] in Hsnap. now rewrite E in Hsnap. }
  assert (Hsize : size ({[l]} ∪ X) = S (size X)).
  { rewrite size_union by set_solver. now rewrite size_singleton. }
  assert (Hsub' : {[l]} ∪ X ⊆ dom h).
  { intros x Hx. apply elem_of_union in Hx as [Hx|Hx]; [|now apply Hsub].
    now apply elem_of_singleton in Hx as ->. }
  pose proof Hsnap as Hsnap0.
  apply snapshot_ref in Hsnap
    as (d' & [= <-] & [(items & ts & Hl & Hall & ->)
                      |[(entries & tes & Hl & Hall & ->)
                       |(proto & entries & tproto & tes & Hl & Hproto
                         & Hall & ->)]]).
  - apply subseteq_size in Hsub'. rewrite size_dom in Hsub'. simpl. lia.
  - apply subseteq_size in Hsub'. rewrite size_dom in Hsub'. simpl. lia.
  - specialize (IH proto tproto ({[l]} ∪ X) Hproto Hsub').
    rewrite Hsize in IH. simpl. rewrite Nat.add_succ_r. apply IH.
    intros x Hx. apply elem_of_union in Hx as [Hx|Hx].
    + apply elem_of_singleton in Hx as ->. eexists _, _.
      split; [exact Hsnap0|]. simpl. lia.
    + destruct (Hdeeper x Hx) as (dx & tx & Hsx & Hlt).
      exists dx, tx. split; [exact Hsx|]. simpl in Hlt. lia.
Qed.

Lemma chain_bound d h l t :
  snapshot d h (HRef l) = Some t -> proto_depth t < size h.
Proof.
  intros H.
  pose proof (chain_within_heap h d l t ∅ H) as Hbound.
  rewrite size_empty in Hbound. apply Hbound; set_solver.
Qed.

Lemma for_in_entriesH_eq n h l :
  for_in_entriesH n h l
  = match h !! l with
    | Some (CArr items) => indexed_from 0 items
    | Some (CObj entries) => entries
    | Some (CProto proto entries) =>
        entries
        ++ match n with
           | O => []
           | S n' =>
               List.filter
                 (fun e => negb (shadowed (List.map fst entries) (fst e)))
                 (for_in_entriesH n' h proto)
           end
    | None => []
    end.
Proof. now destruct n. Qed.

Lemma indexed_from_Forall2 {A B : Type} (R : A -> B -> Prop) xs ys :
  Forall2 R xs ys ->
  forall i,
    Forall2 (fun e te => fst e = fst te /\ R (snd e) (snd te))
      (indexed_from i xs) (indexed_from i ys).
Proof.
  induction 1 as [|x y xs ys Hxy _ IH]; intros i; simpl; constructor.
  - now split.
  - apply IH.
Qed.

Lemma filter_Forall2 {A B : Type} (R : A -> B -> Prop) (f : A -> bool)
  (g : B -> bool) xs ys :
  (forall x y, R x y -> f x = g y) ->
  Forall2 R xs ys -> Forall2 R (List.filter f xs) (List.filter g ys).
Proof.
  intros Hfg. induction 1 as [|x y xs ys Hxy _ IH]; simpl; [constructor|].
  rewrite (Hfg x y Hxy). destruct (g y); [constructor|]; assumption.
Qed.

Lemma member_rel_keys d h (entries : list (string * hvalue)) tes :
  Forall2 (member_rel d h) entries tes ->
  List.map fst entries = List.map fst tes.
Proof.
  induction 1 as [|e te entries tes [Hk _] _ IH]; simpl; [reflexivity|].
  now rewrite Hk, IH.
Qed.

(** What [for (const key in obj)] visits on the heap is what it visits on
    the tree. *)
Lemma for_in_entriesH_sim h h' :
  h ⊆ h' ->
  forall d l t n,
    snapshot (S d) h (HRef l) = Some t -> proto_depth t <= n ->
    Forall2 (member_rel d h) (for_in_entriesH n h' l) (chain_entries t).
Proof.
  intros Hsub. induction d as [|d IH]; intros l t n Hsnap Hn;
    apply snapshot_ref in Hsnap
      as (d' & [= <-] & [(items & ts & Hl & Hall & ->)
                        |[(entries & tes & Hl & Hall & ->)
                         |(proto & entries & tproto & tes & Hl & Hproto
                           & Hall & ->)]]);
    rewrite for_in_entriesH_eq, (lookup_weaken _ _ _ _ Hl Hsub);
    try (simpl; exact Hall);
    try (simpl; apply (indexed_from_Forall2 _ _ _ Hall));
    try discriminate.
  simpl in Hn. destruct n as [|n]; [lia|]. cbn [chain_entries].
  apply Forall2_app; [exact Hall|].
  apply filter_Forall2.
  - intros e te [Hk _]. now rewrite Hk, (member_rel_keys _ _ _ _ Hall).
  - eapply Forall2_impl; [apply (IH proto tproto n Hproto); lia|].
    intros e te [Hk Hw]. split; [exact Hk|now apply snapshot_S].
Qed.

Lemma new_part_sub (h h' : heap) : h' ∖ h ⊆ h'.
Proof.
  apply map_subseteq_spec. intros l c Hl.
  now apply lookup_difference_Some in Hl as [Hl _].
Qed.

Lemma new_part_within (h hc hr hf : heap) :
  h ⊆ hc -> hr ⊆ hf -> (forall l, is_Some (hr !! l) -> hc !! l = None) ->
  hr ⊆ hf ∖ h.
Proof.
  intros Hbase Hsub Hnew. apply map_subseteq_spec. intros l c Hl.
  apply lookup_difference_Some. split.
  - eapply lookup_weaken; eassumption.
  - destruct (h !! l) as [c'|] eqn:Hh; [|reflexivity].
    specialize (Hnew l (ex_intro _ c Hl)).
    rewrite (lookup_weaken _ _ _ _ Hh Hbase) in Hnew. discriminate.
Qed.

Lemma new_part_fresh (hc hc' : heap) l :
  is_Some ((hc' ∖ hc) !! l) -> hc !! l = None.
Proof. intros [c Hl]. now apply lookup_difference_Some in Hl as [_ Hl]. Qed.

Lemma obj_set_Forall2 {V W : Type} (R : V -> W -> Prop)
  (acc : list (string * V)) (tacc : list (string * W)) key v w :
  Forall2 (fun e te => fst e = fst te /\ R (snd e) (snd te)) acc tacc ->
  R v w ->
  Forall2 (fun e te => fst e = fst te /\ R (snd e) (snd te))
    (obj_set acc key v) (obj_set tacc key w).
Proof.
  intros Hall Hvw. unfold obj_set.
  assert (Hhas : has_key acc key = has_key tacc key).
  { unfold has_key. induction Hall as [|e te acc tacc [He _] _ IH]; simpl;
      [reflexivity|]. now rewrite He, IH. }
  rewrite <- Hhas. clear Hhas. destruct (has_key acc key).
  - induction Hall as [|[k x] [k' y] acc tacc [He Hxy] Hrest IH]; simpl;
      [constructor|]. simpl in He, Hxy. subst k'.
    destruct (String.eqb k key).
    + constructor; [split; [reflexivity|exact Hvw]|exact Hrest].
    + constructor; [split; [reflexivity|exact Hxy]|exact IH].
  - induction Hall as [|[k x] [k' y] acc tacc [He Hxy] Hrest IH]; simpl;
      [repeat constructor; exact Hvw|]. simpl in He, Hxy. subst k'.
    destruct (goes_before key k).
    + constructor; [split; [reflexivity|exact Hvw]|].
      constructor; [split; [reflexivity|exact Hxy]|exact Hrest].
    + constructor; [split; [reflexivity|exact Hxy]|exact IH].
Qed.

(** The part of the heap that holds the members of the object under
    construction at [n]: what is new since [h0], apart from [n] itself. *)
Lemma footprint_mono n (h0 hc hf : heap) :
  (forall l c, l <> n -> hc !! l = Some c -> hf !! l = Some c) ->
  delete n (hc ∖ h0) ⊆ delete n (hf ∖ h0).
Proof.
  intros Hkeep. apply map_subseteq_spec. intros l c Hl.
  apply lookup_delete_Some in Hl as [Hne Hl].
  apply lookup_difference_Some in Hl as [Hl Hnew].
  apply lookup_delete_Some. split; [exact Hne|].
  apply lookup_difference_Some. split; [|exact Hnew]. apply Hkeep; auto.
Qed.

Lemma footprint_new n (h0 hc h1 hf : heap) :
  h0 ⊆ hc -> is_Some (hc !! n) ->
  (forall l c, l <> n -> h1 !! l = Some c -> hf !! l = Some c) ->
  h1 ∖ hc ⊆ delete n (hf ∖ h0).
Proof.
  intros Hbase [cn Hn] Hkeep. apply map_subseteq_spec. intros l c Hl.
  apply lookup_difference_Some in Hl as [Hl Hnew].
  assert (Hne : l <> n) by congruence.
  apply lookup_delete_Some. split; [congruence|].
  apply lookup_difference_Some. split; [now apply Hkeep|].
  destruct (h0 !! l) as [c'|] eqn:Hh; [|reflexivity].
  rewrite (lookup_weaken _ _ _ _ Hh Hbase) in Hnew. discriminate.
Qed.

Lemma fresh_lookup (h : heap) : h !! fresh (dom h) = None.
Proof. apply not_elem_of_dom, is_fresh. Qed.

Lemma new_part_grow (h0 h h' : heap) : h ⊆ h' -> h ∖ h0 ⊆ h' ∖ h0.
Proof.
  intros Hsub. apply map_subseteq_spec. intros l c Hl.
  apply lookup_difference_Some in Hl as [Hl Hnew].
  apply lookup_difference_Some. split; [|exact Hnew].
  eapply lookup_weaken; eassumption.
Qed.

Lemma building_rel_weaken d (hf hf' : heap) c newObj :
  hf ⊆ hf' -> building_rel d hf c newObj -> building_rel d hf' c newObj.
Proof.
  intros Hsub. unfold building_rel.
  assert (Hmembers : forall (acc : list (string * hvalue)) tacc,
            Forall2 (member_rel d hf) acc tacc ->
            Forall2 (member_rel d hf') acc tacc).
  { intros acc tacc Hall. eapply Forall2_impl; [exact Hall|].
    intros e te [Hk Hw]. split; [exact Hk|].
    eapply snapshot_weaken; eassumption. }
  destruct c as [items|acc|proto acc], (fst newObj) as [tproto|]; auto.
  intros [Hp Hacc]. split; [|now apply Hmembers].
  eapply snapshot_weaken; eassumption.
Qed.

(** The object under construction reads as what the loop has built. *)
Lemma building_snapshot d (hf h : heap) n c newObj :
  hf ⊆ h -> h !! n = Some c -> building_rel d hf c newObj ->
  snapshot (S d) h (HRef n) = Some (built newObj).
Proof.
  intros Hsub Hn Hrel. apply (building_rel_weaken _ _ _ _ _ Hsub) in Hrel.
  unfold building_rel in Hrel. unfold built.
  destruct c as [items|acc|proto acc], (fst newObj) as [tproto|];
    try contradiction.
  - now apply (snapshot_obj _ _ _ _ _ Hn).
  - destruct Hrel as [Hp Hacc]. now apply (snapshot_proto _ _ _ _ _ _ _ Hn).
Qed.

(** [newObj[key] = r] on the heap is [assign] on the tree. *)
Lemma set_prop_sim d (h0 h1 : heap) n c newObj key r tr :
  h0 !! n = None -> h0 ⊆ h1 -> h1 !! n = Some c ->
  building_rel d (delete n (h1 ∖ h0)) c newObj ->
  snapshot d (delete n (h1 ∖ h0)) r = Some tr ->
  exists h' c',
    set_prop n key r h1 = (h', Ok tt)
    /\ h0 ⊆ h' /\ h' !! n = Some c'
    /\ building_rel d (delete n (h' ∖ h0)) c' (assign newObj key tr).
Proof.
  intros Hn Hbase Hc Hrel Hr.
  assert (Hput : forall c' newObj',
            building_rel d (delete n (h1 ∖ h0)) c' newObj' ->
            h0 ⊆ <[n:=c']> h1 /\ <[n:=c']> h1 !! n = Some c'
            /\ building_rel d (delete n (<[n:=c']> h1 ∖ h0)) c' newObj').
  { intros c' newObj' Hrel'. split; [now apply insert_subseteq_r|].
    split; [apply lookup_insert_eq|].
    eapply building_rel_weaken; [|exact Hrel'].
    apply footprint_mono. intros l c0 Hne Hl. now rewrite lookup_insert_ne. }
  pose proof (snapshot_container _ _ _ _ Hr) as Hcont.
  unfold set_prop, assign. rewrite Hc.
  destruct newObj as [tproto tacc]. unfold building_rel in Hrel.
  destruct c as [items|acc|proto acc], tproto as [tproto|];
    cbn [fst snd] in *; try contradiction;
    destruct (String.eqb key "__proto__"); rewrite ?Hcont;
    try (destruct r;
         try (exists h1; eexists; split; [reflexivity|];
              split; [exact Hbase|]; split; [exact Hc|exact Hrel]);
         eexists _, _; split; [reflexivity|]; apply Hput;
         unfold building_rel; cbn [fst snd]; first [exact (conj Hr Hrel)
                                                    |exact (conj Hr (proj2 Hrel))]).
  - eexists _, _. split; [reflexivity|]. apply Hput.
    unfold building_rel; cbn [fst snd].
    now apply (obj_set_Forall2 (fun x tx =>
                 snapshot d (delete n (h1 ∖ h0)) x = Some tx)).
  - eexists _, _. split; [reflexivity|]. apply Hput.
    unfold building_rel; cbn [fst snd]. destruct Hrel as [Hp Hacc].
    split; [exact Hp|].
    now apply (obj_set_Forall2 (fun x tx =>
                 snapshot d (delete n (h1 ∖ h0)) x = Some tx)).
Qed.

Section simulation_step.

Variable s : settings.
Hypothesis filter_on : filterOutEmptyFields s = true.
Variable fuel : nat.

(** What the induction gives for the recursive calls. *)
Hypothesis rec_call : forall d h v t,
  d < fuel -> snapshot d h v = Some t ->
  exists h' r,
    cleanObjectH fuel s v h = (h', Ok r)
    /\ h ⊆ h'
    /\ snapshot d (h' ∖ h) r = Some (cleanObject s t).

Lemma keep_itemH_sim d h item t :
  d < fuel -> snapshot d h item = Some t ->
  exists h',
    keep_itemH (cleanObjectH fuel s) item h = (h', Ok (keep_item s t))
    /\ h ⊆ h'.
Proof.
  intros Hd Hsnap. destruct (snapshot_tests _ _ _ _ Hsnap) as (Hnull & Hobj & _).
  unfold keep_itemH, keep_item. rewrite Hnull, Hobj.
  destruct (is_nullish t) eqn:Hn; [now exists h|].
  destruct (typeof_object t) eqn:Ho.
  - destruct (rec_call d h item t Hd Hsnap) as (h1 & r & Hrec & Hsub & Hr).
    pose proof (snapshot_weaken _ _ (new_part_sub h h1) _ _ _ Hr) as Hr1.
    destruct (container_clean s filter_on t Ho Hn) as (_ & Hcn & _).
    pose proof (snapshot_keys_lengthH _ _ _ _ Hr1 Hcn) as Hkeys.
    pose proof (snapshot_weaken _ _ Hsub _ _ _ Hsnap) as Hsnap1.
    pose proof (snapshot_isArrayH _ _ _ _ Hsnap1) as Harr.
    pose proof (snapshot_array_lengthH _ _ _ _ Hsnap1) as Hlen.
    exists h1. split; [|exact Hsub].
    unfold bind, ret. rewrite Hrec, Hkeys. simpl.
    destruct (keys_length (cleanObject s t) =? 0)%nat; [reflexivity|].
    rewrite Harr. destruct (isArray t); simpl; [|reflexivity].
    rewrite Hlen. now destruct (array_length t =? 0)%nat.
  - exists h. split; [|reflexivity].
    pose proof (snapshot_isArrayH _ _ _ _ Hsnap) as Harr.
    pose proof (snapshot_array_lengthH _ _ _ _ Hsnap) as Hlen.
    unfold bind, ret. simpl. rewrite Harr.
    destruct (isArray t); simpl; [|reflexivity].
    rewrite Hlen. now destruct (array_length t =? 0)%nat.
Qed.

Lemma filterH_sim d h0 items ts :
  d < fuel ->
  Forall2 (fun i t => snapshot d h0 i = Some t) items ts ->
  forall h, h0 ⊆ h ->
  exists h' kept,
    filterH (keep_itemH (cleanObjectH fuel s)) items h = (h', Ok kept)
    /\ h ⊆ h'
    /\ Forall2 (fun i t => snapshot d h0 i = Some t) kept
         (List.filter (keep_item s) ts).
Proof.
  intros Hd. induction 1 as [|i t items ts Hi Hrest IH]; intros h Hbase.
  - exists h, []. split; [reflexivity|]. split; [reflexivity|constructor].
  - pose proof (snapshot_weaken _ _ Hbase _ _ _ Hi) as Hi'.
    destruct (keep_itemH_sim d h i t Hd Hi') as (h1 & Hkeep & Hsub1).
    destruct (IH h1) as (h2 & kept & Hfilter & Hsub2 & Hkept);
      [etrans; eassumption|].
    exists h2, (if keep_item s t then i :: kept else kept).
    split; [|split].
    + simpl. unfold bind, ret. now rewrite Hkeep, Hfilter.
    + etrans; eassumption.
    + simpl. destruct (keep_item s t); [constructor|]; assumption.
Qed.

Lemma mapH_sim d h0 items ts :
  d < fuel ->
  Forall2 (fun i t => snapshot d h0 i = Some t) items ts ->
  forall h, h0 ⊆ h ->
  exists h' rs,
    mapH (map_itemH (cleanObjectH fuel s)) items h = (h', Ok rs)
    /\ h ⊆ h'
    /\ Forall2 (fun r t => snapshot d (h' ∖ h0) r = Some t) rs
         (List.map (map_item s) ts).
Proof.
  intros Hd. induction 1 as [|i t items ts Hi Hrest IH]; intros h Hbase.
  - exists h, []. split; [reflexivity|]. split; [reflexivity|constructor].
  - pose proof (snapshot_weaken _ _ Hbase _ _ _ Hi) as Hi'.
    destruct (snapshot_tests _ _ _ _ Hi) as (_ & Hobj & _).
    assert (Hstep : exists h1 r,
      map_itemH (cleanObjectH fuel s) i h = (h1, Ok r) /\ h ⊆ h1
      /\ forall hf, h1 ⊆ hf ->
           snapshot d (hf ∖ h0) r = Some (map_item s t)).
    { unfold map_itemH, map_item. rewrite Hobj.
      destruct (typeof_object t) eqn:Ho.
      - destruct (rec_call d h i t Hd Hi') as (h1 & r & Hrec & Hsub & Hr).
        exists h1, r. repeat split; try assumption. intros hf Hf.
        eapply snapshot_weaken; [|exact Hr].
        eapply new_part_within; [exact Hbase| |apply new_part_fresh].
        etrans; [apply new_part_sub|exact Hf].
      - exists h, i. repeat split; [reflexivity|]. intros hf _.
        now apply (snapshot_scalar _ _ _ _ Hi). }
    destruct Hstep as (h1 & r & Hmap & Hsub1 & Hr).
    destruct (IH h1) as (h2 & rs & Hmaps & Hsub2 & Hrs);
      [etrans; eassumption|].
    exists h2, (r :: rs). split; [|split].
    + simpl. unfold bind, ret. now rewrite Hmap, Hmaps.
    + etrans; eassumption.
    + simpl. constructor; [now apply Hr|assumption].
Qed.

Lemma loop_bodyH_sim d h0 n key v tv :
  d < fuel -> h0 !! n = None -> snapshot d h0 v = Some tv ->
  forall h c newObj,
    h0 ⊆ h -> h !! n = Some c ->
    building_rel d (delete n (h ∖ h0)) c newObj ->
    exists h' c',
      loop_bodyH (cleanObjectH fuel s) n (key, v) h = (h', Ok tt)
      /\ h0 ⊆ h' /\ h' !! n = Some c'
      /\ building_rel d (delete n (h' ∖ h0)) c' (loop_step s newObj (key, tv)).
Proof.
  intros Hd Hn Hv h c newObj Hbase Hc Hrel.
  destruct (snapshot_tests _ _ _ _ Hv) as (Hnull & Hobj & Hstr).
  pose proof (snapshot_weaken _ _ Hbase _ _ _ Hv) as Hv'.
  unfold loop_bodyH, loop_step, loop_body. cbn [fst snd].
  rewrite Hnull, Hobj, Hstr.
  destruct (is_nullish tv) eqn:Hnl.
  { exists h, c. now repeat split. }
  destruct (typeof_object tv) eqn:Ho.
  - destruct (rec_call d h v tv Hd Hv') as (h1 & r & Hrec & Hsub & Hr).
    pose proof (snapshot_weaken _ _ (new_part_sub h h1) _ _ _ Hr) as Hr1.
    destruct (container_clean s filter_on tv Ho Hnl) as (_ & Hcn & _).
    pose proof (snapshot_keys_lengthH _ _ _ _ Hr1 Hcn) as Hkeys.
    pose proof (snapshot_isArrayH _ _ _ _ Hr1) as Harr.
    pose proof (snapshot_array_lengthH _ _ _ _ Hr1) as Hlen.
    assert (Hkeep :
      bind (if (0 <? keys_length (cleanObject s tv))%nat then ret true
            else bind (isArrayH r)
                   (fun is_arr : bool =>
                      if is_arr
                      then bind (array_lengthH r) (fun m => ret (0 <? m)%nat)
                      else ret false))
        (fun keep : bool => if keep then set_prop n key r else ret tt) h1
      = (if (0 <? keys_length (cleanObject s tv))%nat
            || isArray (cleanObject s tv)
               && (0 <? array_length (cleanObject s tv))%nat
         then set_prop n key r else ret tt) h1).
    { unfold bind, ret.
      destruct (0 <? keys_length (cleanObject s tv))%nat; [reflexivity|].
      rewrite Harr. destruct (isArray (cleanObject s tv)); [|reflexivity].
      now rewrite Hlen. }
    assert (Hrel1 : building_rel d (delete n (h1 ∖ h0)) c newObj).
    { eapply building_rel_weaken; [|exact Hrel]. apply footprint_mono.
      intros l c0 _ Hl. eapply lookup_weaken; eassumption. }
    unfold bind at 1. rewrite Hrec. unfold bind at 1. rewrite Hkeys, Hkeep.
    destruct (_ || _).
    + apply (set_prop_sim d h0 h1 n c newObj key r _ Hn);
        [etrans; eassumption|eapply lookup_weaken; eassumption|exact Hrel1|].
      eapply snapshot_weaken; [|exact Hr].
      eapply footprint_new; eauto.
    + exists h1, c. split; [reflexivity|]. split; [etrans; eassumption|].
      split; [eapply lookup_weaken; eassumption|exact Hrel1].
  - destruct (not_empty_string tv).
    + apply (set_prop_sim d h0 h n c newObj key v tv Hn Hbase Hc Hrel).
      now apply (snapshot_scalar _ _ _ _ Hv).
    + exists h, c. now repeat split.
Qed.

Lemma forH_sim d h0 n entries tes :
  d < fuel -> h0 !! n = None ->
  Forall2 (member_rel d h0) entries tes ->
  forall h c newObj,
    h0 ⊆ h -> h !! n = Some c ->
    building_rel d (delete n (h ∖ h0)) c newObj ->
    exists h' c',
      forH entries (loop_bodyH (cleanObjectH fuel s) n) h = (h', Ok tt)
      /\ h0 ⊆ h' /\ h' !! n = Some c'
      /\ building_rel d (delete n (h' ∖ h0)) c'
           (fold_left (loop_step s) tes newObj).
Proof.
  intros Hd Hn. induction 1 as [|[key v] [key' tv] entries tes [Hk Hv] _ IH];
    intros h c newObj Hbase Hc Hrel.
  - exists h, c. now repeat split.
  - simpl in Hk, Hv. subst key'.
    destruct (loop_bodyH_sim d h0 n key v tv Hd Hn Hv h c newObj Hbase Hc Hrel)
      as (h1 & c1 & Hbody & Hbase1 & Hc1 & Hrel1).
    destruct (IH h1 c1 _ Hbase1 Hc1 Hrel1)
      as (h2 & c2 & Hloop & Hbase2 & Hc2 & Hrel2).
    exists h2, c2. split; [|now repeat split].
    cbn [forH]. unfold bind. now rewrite Hbody.
Qed.

Lemma object_branch_sim d h l t :
  d < fuel -> snapshot (S d) h (HRef l) = Some t -> is_object t = true ->
  exists h' r,
    bind (alloc (CObj []))
      (fun newObj =>
         bind (for_inH l)
           (fun entries =>
              bind (forH entries (loop_bodyH (cleanObjectH fuel s) newObj))
                (fun _ => ret (HRef newObj)))) h
    = (h', Ok r)
    /\ h ⊆ h'
    /\ snapshot (S d) (h' ∖ h) r = Some (cleanObject s t).
Proof.
  intros Hd Hsnap Hobject.
  set (n := fresh (dom h)).
  set (h1 := <[n := CObj []]> h).
  assert (Hn : h !! n = None) by apply fresh_lookup.
  assert (Hsub1 : h ⊆ h1) by (now apply insert_subseteq).
  assert (Hentries : Forall2 (member_rel d h)
                       (for_in_entriesH (size h1) h1 l) (chain_entries t)).
  { apply (for_in_entriesH_sim h h1 Hsub1 d l t _ Hsnap).
    pose proof (chain_bound _ _ _ _ Hsnap).
    pose proof (map_subseteq_size _ _ Hsub1). lia. }
  destruct (forH_sim d h n _ _ Hd Hn Hentries h1 (CObj []) empty_object)
    as (h2 & c & Hloop & Hbase2 & Hc & Hrel);
    [exact Hsub1|apply lookup_insert_eq|constructor|].
  exists h2, (HRef n). split; [|split].
  - unfold bind, alloc, for_inH, ret. cbn. fold n. fold h1. now rewrite Hloop.
  - exact Hbase2.
  - rewrite (cleanObject_loop s filter_on t Hobject).
    apply (building_snapshot d (delete n (h2 ∖ h)) _ n c).
    + apply delete_subseteq.
    + apply lookup_difference_Some. now split.
    + exact Hrel.
Qed.

Lemma cleanObjectH_step d h v t :
  d < S fuel -> snapshot d h v = Some t ->
  exists h' r,
    cleanObjectH (S fuel) s v h = (h', Ok r)
    /\ h ⊆ h'
    /\ snapshot d (h' ∖ h) r = Some (cleanObject s t).
Proof.
  intros Hd Hsnap. cbn [cleanObjectH]. rewrite filter_on. cbn [negb].
  destruct v;
    try (exists h, v; subst v; destruct d; simpl in Hsnap; injection Hsnap as <-;
         simpl; rewrite ?filter_on; now repeat split).
  - exists h, HUndefined. destruct d; simpl in Hsnap; injection Hsnap as <-;
      simpl; rewrite ?filter_on; now repeat split.
  - exists h, HNull. destruct d; simpl in Hsnap; injection Hsnap as <-;
      simpl; rewrite ?filter_on; now repeat split.
  - exists h, (HBool b). destruct d; simpl in Hsnap; injection Hsnap as <-;
      simpl; rewrite ?filter_on; now repeat split.
  - exists h, (HNum x). destruct d; simpl in Hsnap; injection Hsnap as <-;
      simpl; rewrite ?filter_on; now repeat split.
  - exists h, (HStr s0). destruct d; simpl in Hsnap; injection Hsnap as <-;
      simpl; rewrite ?filter_on; now repeat split.
  - pose proof Hsnap as Hsnap0.
    apply snapshot_ref in Hsnap
      as (d' & -> & [(items & ts & Hl & Hitems & ->)
                    |[(entries & tes & Hl & Hentries & ->)
                     |(proto & entries & tproto & tes & Hl & Hproto
                       & Hentries & ->)]]).
    + assert (Hd' : d' < fuel) by lia.
      destruct (filterH_sim d' h items ts Hd' Hitems h) as
        (h1 & kept & Hfilter & Hsub1 & Hkept); [reflexivity|].
      set (h2 := <[fresh (dom h1) := CArr kept]> h1).
      assert (Hsub2 : h1 ⊆ h2) by (apply insert_subseteq, fresh_lookup).
      destruct (mapH_sim d' h kept _ Hd' Hkept h2) as
        (h3 & rs & Hmap & Hsub3 & Hrs); [etrans; eassumption|].
      set (h4 := <[fresh (dom h3) := CArr rs]> h3).
      assert (Hsub4 : h3 ⊆ h4) by (apply insert_subseteq, fresh_lookup).
      assert (Hbase3 : h ⊆ h3) by (etrans; [|exact Hsub3]; etrans; eassumption).
      exists h4, (HRef (fresh (dom h3))). split; [|split].
      * unfold bind, read, alloc, ret. rewrite Hl, Hfilter. cbn.
        fold h2. rewrite Hmap. reflexivity.
      * etrans; eassumption.
      * cbn [snapshot].
        assert (Hnew : (h4 ∖ h) !! fresh (dom h3) = Some (CArr rs)).
        { apply lookup_difference_Some. split; [apply lookup_insert_eq|].
          destruct (h !! fresh (dom h3)) as [c|] eqn:Hc; [|reflexivity].
          pose proof (fresh_lookup h3) as Hf.
          rewrite (lookup_weaken _ _ _ _ Hc Hbase3) in Hf. discriminate. }
        rewrite Hnew, (cleanObject_arr s filter_on).
        apply bind_Some. eexists. split; [|reflexivity].
        apply mapM_Some. eapply Forall2_impl; [exact Hrs|].
        intros r tr Hr. eapply snapshot_weaken; [|exact Hr].
        now apply new_part_grow.
    + unfold bind at 1. unfold read. rewrite Hl.
      apply (object_branch_sim d' h l _ ltac:(lia) Hsnap0 eq_refl).
    + unfold bind at 1. unfold read. rewrite Hl.
      apply (object_branch_sim d' h l _ ltac:(lia) Hsnap0 eq_refl).
Qed.

End simulation_step.

(** On a structure that reads as the tree [t], with room on the stack for
    its depth, the call returns, leaves the heap it found in place, and its
    result, made of new objects only, reads as [cleanObject s t]. *)
Theorem cleanObjectH_simulates s :
  filterOutEmptyFields s = true ->
  forall fuel d h v t,
    d < fuel -> snapshot d h v = Some t ->
    exists h' r,
      cleanObjectH fuel s v h = (h', Ok r)
      /\ h ⊆ h'
      /\ snapshot d (h' ∖ h) r = Some (cleanObject s t).
Proof.
  intros Hon. induction fuel as [|fuel IH]; intros d h v t Hd Hsnap; [lia|].
  apply (cleanObjectH_step s Hon fuel IH d h v t Hd Hsnap).
Qed.

(** C4: the sanitizer never mutates its argument.  Whatever the heap, the
    input [x], the settings and the room on the stack, after the call every
    object that existed before holds what it held, so [x] is deep-equal to
    its snapshot from before the call.  This holds however the call ends,
    also when it throws on a structure that contains itself.  And on an [x]
    that reads as a tree [t], with filtering on and room for its depth, the
    call does return, with a result that reads as [cleanObject s t]. *)
Theorem cleanObject_never_mutates (fuel : nat) (s : settings) (h : heap)
  (x : hvalue) :
  let h' := (cleanObjectH fuel s x h).1 in
  (forall l c, h !! l = Some c -> h' !! l = Some c)
  /\ (forall depth t,
        snapshot depth h x = Some t -> snapshot depth h' x = Some t)
  /\ (forall depth t,
        filterOutEmptyFields s = true -> depth < fuel ->
        snapshot depth h x = Some t ->
        exists r,
          (cleanObjectH fuel s x h).2 = Ok r
          /\ snapshot depth h' r = Some (cleanObject s t)).
Proof.
  assert (Hsub : h ⊆ (cleanObjectH fuel s x h).1).
  { now apply cleanObjectH_keeps. }
  split; [|split].
  - intros l c Hl. eapply lookup_weaken; eassumption.
  - intros depth t. now apply snapshot_weaken.
  - intros depth t Hon Hdepth Hsnap.
    destruct (cleanObjectH_simulates s Hon fuel depth h x t Hdepth Hsnap)
      as (h1 & r & Hrun & _ & Hr).
    exists r. rewrite Hrun. split; [reflexivity|].
    eapply snapshot_weaken; [|exact Hr]. apply new_part_sub.
Qed.

Lemma cleanObject_never_mutates_witness :
  snapshot 5 ex_heap (HRef 1%positive) = Some ex_heap_tree
  /\ snapshot 5 (cleanObjectH 10 filtering (HRef 1%positive) ex_heap).1
       (HRef 1%positive)
     = Some ex_heap_tree
  /\ exists r,
       (cleanObjectH 10 filtering (HRef 1%positive) ex_heap).2 = Ok r
       /\ snapshot 5 (cleanObjectH 10 filtering (HRef 1%positive) ex_heap).1 r
          = Some (cleanObject filtering ex_heap_tree).
Proof.
  assert (Hsnap : snapshot 5 ex_heap (HRef 1%positive) = Some ex_heap_tree)
    by (vm_compute; reflexivity).
  destruct (cleanObject_never_mutates 10 filtering ex_heap (HRef 1%positive))
    as (_ & Hsame & Hresult).
  split; [exact Hsnap|]. split; [exact (Hsame 5 ex_heap_tree Hsnap)|].
  apply (Hresult 5 ex_heap_tree); [reflexivity|lia|exact Hsnap].
Defined.

(** * The deep copy is a valid tree *)

Lemma parsed_object_valid members :
  Forall (fun e => valid (snd e) = true) members ->
  valid (VObj (parsed_object members)) = true.
Proof.
  intros Hall. unfold parsed_object.
  assert (Hgen : forall acc,
    valid (VObj acc) = true ->
    valid (VObj (fold_left
                   (fun acc member => obj_set acc (fst member) (snd member))
                   members acc)) = true).
  { induction Hall as [|m members Hm Hall IH]; intros acc Hacc; simpl;
      [exact Hacc|].
    apply IH. simpl in Hacc. apply andb_prop in Hacc as [Hk Hvals]. simpl.
    rewrite (valid_keys_obj_set _ _ _ Hk). simpl.
    apply forallb_forall. apply List.Forall_forall.
    apply (obj_set_values (fun v => valid v = true)); [|exact Hm].
    apply List.Forall_forall. now apply forallb_forall. }
  now apply Hgen.
Qed.

Lemma mapR_ok {A B : Type} (f : A -> result B) xs ys :
  mapR f xs = Ok ys -> Forall2 (fun x y => f x = Ok y) xs ys.
Proof.
  revert ys. induction xs as [|x xs IH]; intros ys; simpl.
  - intros [= <-]. constructor.
  - destruct (f x) as [y|e] eqn:Hx; [|discriminate].
    destruct (mapR f xs) as [ys'|e]; [|discriminate].
    intros [= <-]. constructor; auto.
Qed.

Lemma mapR_throw {A B : Type} (f : A -> result B) xs e :
  mapR f xs = Throw e -> exists x, In x xs /\ f x = Throw e.
Proof.
  induction xs as [|x xs IH]; simpl; [discriminate|].
  destruct (f x) as [y|e'] eqn:Hx.
  - destruct (mapR f xs) as [ys'|e'']; [discriminate|].
    intros [= <-]. destruct IH as (x' & Hin & Hx'); eauto.
  - intros [= <-]. eauto.
Qed.

Lemma Forall2_image {A B : Type} (R : A -> B -> Prop) (Q : B -> Prop) xs ys :
  Forall2 R xs ys -> (forall x y, In x xs -> R x y -> Q y) ->
  forall y, In y ys -> Q y.
Proof.
  induction 1 as [|x y xs ys Hxy Hrest IH]; intros HQ y' Hin; [destruct Hin|].
  destruct Hin as [<-|Hin].
  - eapply HQ; [now left|exact Hxy].
  - apply IH; [|exact Hin]. intros x' y'' Hin'. apply HQ. now right.
Qed.

Lemma json_number_valid x : valid (json_number x) = true.
Proof.
  unfold json_number.
  destruct (PrimFloat.is_nan x || PrimFloat.is_infinity x); [reflexivity|].
  now destruct (PrimFloat.is_zero x).
Qed.

Lemma json_copy_valid fuel h : forall stack v copy,
  json_copy fuel h stack v = Ok (Some copy) -> valid copy = true.
Proof.
  induction fuel as [|fuel IH]; intros stack v copy;
    destruct v; simpl; try (intros [= <-]; auto using json_number_valid);
    try discriminate;
    destruct (bool_decide (l ∈ stack)); try discriminate.
  destruct (h !! l) as [[items|entries|proto entries]|]; [| | |discriminate].
  1: { destruct (mapR _ items) as [items'|e] eqn:Hmap; [|discriminate].
       intros [= <-]. simpl. apply forallb_forall.
       apply mapR_ok in Hmap. apply (Forall2_image _ _ _ _ Hmap).
       intros x y _ Hxy.
       destruct (json_copy fuel h (l :: stack) x) as [[t|]|e] eqn:Hx;
         try discriminate; injection Hxy as <-; [eauto|reflexivity]. }
  all: destruct (mapR _ entries) as [members|e] eqn:Hmap; [|discriminate].
  all: intros [= <-]; apply parsed_object_valid.
  all: apply mapR_ok in Hmap; apply List.Forall_forall; intros [k t] Hin.
  all: apply list_elem_of_In, list_elem_of_omap in Hin as (o & Ho & Hid).
  all: simpl in Hid; subst o; apply list_elem_of_In in Ho.
  all: apply (Forall2_image _
                (fun o => forall k t, o = Some (k, t) -> valid t = true)
                _ _ Hmap) with (y := Some (k, t)) (k := k) (t := t);
         [|exact Ho|reflexivity].
  all: intros [k' x] o _ Hx k'' t' ->; simpl in Hx.
  all: destruct (json_copy fuel h (l :: stack) x) as [[t''|]|e] eqn:Hcopy;
         try discriminate.
  all: injection Hx as <- <-; eauto.
Qed.

(** Whatever the heap holds, the copy stands for a JavaScript value. *)
Lemma JSON_roundtrip_valid h v copy :
  JSON_roundtrip h v = Ok copy -> valid copy = true.
Proof.
  unfold JSON_roundtrip.
  destruct (json_copy (S (size h)) h [] v) as [[t|]|e] eqn:Hcopy;
    try discriminate.
  intros [= <-]. eapply json_copy_valid; eassumption.
Qed.





(** ** The copy has room for every acyclic structure *)

Lemma stack_within_heap (h : heap) (stack : list loc) :
  NoDup stack -> (forall l, l ∈ stack -> is_Some (h !! l)) ->
  length stack <= size h.
Proof.
  intros Hnodup Hin.
  rewrite <- (size_list_to_set (C := gset loc) stack Hnodup), <- (size_dom h).
  apply subseteq_size. intros l Hl. apply elem_of_list_to_set in Hl.
  apply elem_of_dom. auto.
Qed.

(** With [fuel] and the stack together above the number of objects, the
    bound on the nesting is never what stops the copy. *)
Lemma json_copy_fuel fuel h : forall stack v msg,
  NoDup stack -> (forall l, l ∈ stack -> is_Some (h !! l)) ->
  size h < fuel + length stack ->
  json_copy fuel h stack v <> Throw (RangeError msg).
Proof.
  induction fuel as [|fuel IH]; intros stack v msg Hnodup Hin Hroom;
    destruct v; simpl; try discriminate; case_bool_decide; try discriminate.
  - pose proof (stack_within_heap h stack Hnodup Hin). simpl in Hroom. lia.
  - destruct (h !! l) as [c|] eqn:Hl; [|discriminate].
    assert (Hnodup' : NoDup (l :: stack)) by (now constructor).
    assert (Hin' : forall l', l' ∈ l :: stack -> is_Some (h !! l')).
    { intros l' [->|Hl']%elem_of_cons; eauto. }
    assert (Hroom' : size h < fuel + length (l :: stack)) by (simpl; lia).
    destruct c as [items|entries|proto entries].
    1: { destruct (mapR _ items) as [items'|e] eqn:Hmap; [discriminate|].
         intros [= ->]. apply mapR_throw in Hmap as (x & _ & Hx).
         destruct (json_copy fuel h (l :: stack) x) as [o|e] eqn:Hcopy;
           [discriminate|].
         injection Hx as ->. eapply IH; eassumption. }
    all: destruct (mapR _ entries) as [members|e] eqn:Hmap; [discriminate|].
    all: intros [= ->]; apply mapR_throw in Hmap as (x & _ & Hx).
    all: destruct (json_copy fuel h (l :: stack) (snd x)) as [o|e] eqn:Hcopy;
           [discriminate|].
    all: injection Hx as ->; eapply IH; eassumption.
Qed.

Lemma JSON_roundtrip_has_room h v msg :
  JSON_roundtrip h v <> Throw (RangeError msg).
Proof.
  unfold JSON_roundtrip.
  destruct (json_copy (S (size h)) h [] v) as [[t|]|e] eqn:Hcopy;
    try discriminate.
  intros [= ->]. revert Hcopy. apply json_copy_fuel.
  - constructor.
  - intros l Hl. inversion Hl.
  - simpl. lia.
Qed.

(** * The reporter never throws *)

Section reporter_facts.

Variable ToString : heap -> hvalue -> string.

Lemma bindW_ok {A B : Type} (m : W A) (k : A -> W B) a :
  m.2 = Ok a -> bindW m k = (m.1 ++ (k a).1, (k a).2).
Proof.
  destruct m as [out r]. simpl. intros ->. simpl. now destruct (k a).
Qed.

Lemma depth_after_app d xs ys :
  depth_after d (xs ++ ys) = depth_after (depth_after d xs) ys.
Proof.
  revert d. induction xs as [|c xs IH]; intros d; simpl; [reflexivity|].
  destruct c; apply IH.
Qed.

(** Nothing gets past the [catch]. *)
Lemma logPromptStruct_returns s now h promptStruct chatId :
  (logPromptStruct ToString s now h promptStruct chatId).2 = Ok tt.
Proof.
  unfold logPromptStruct, try_catch.
  destruct (logPromptStruct_body _ _ _ _ _ _) as [out [[]|e]]; reflexivity.
Qed.

(** A failure of the body is reported last, with the exception itself. *)
Lemma logPromptStruct_catches s now h promptStruct chatId e :
  (logPromptStruct_body ToString s now h promptStruct chatId).2 = Throw e ->
  (logPromptStruct ToString s now h promptStruct chatId).1
  = (logPromptStruct_body ToString s now h promptStruct chatId).1
    ++ [error_line e].
Proof.
  unfold logPromptStruct, try_catch.
  destruct (logPromptStruct_body _ _ _ _ _ _) as [out r]. simpl.
  now intros ->.
Qed.

Lemma logPromptStruct_disabled s now h promptStruct chatId :
  enabled s = false ->
  logPromptStruct ToString s now h promptStruct chatId = ([], Ok tt).
Proof.
  intros Hen. unfold logPromptStruct, logPromptStruct_body.
  now rewrite Hen.
Qed.

Lemma logPromptStruct_copy_fails s now h promptStruct chatId e :
  enabled s = true ->
  JSON_roundtrip h promptStruct = Throw e ->
  logPromptStruct ToString s now h promptStruct chatId = ([error_line e], Ok tt).
Proof.
  intros Hen Hcopy. unfold logPromptStruct, logPromptStruct_body.
  now rewrite Hen, Hcopy.
Qed.

Lemma logPromptStruct_summary s now h promptStruct chatId copy :
  enabled s = true -> verboseLogging s = false ->
  JSON_roundtrip h promptStruct = Ok copy ->
  logPromptStruct ToString s now h promptStruct chatId
  = (summary_report ToString s now h chatId copy, Ok tt).
Proof.
  intros Hen Hverb Hcopy. unfold logPromptStruct, logPromptStruct_body.
  now rewrite Hen, Hcopy, Hverb.
Qed.

End reporter_facts.

(** A value whose properties can be read has a value, or [undefined],
    under every key. *)
Lemma get_propH_any_key h v key key' a :
  get_propH h v key = Ok a -> exists b, get_propH h v key' = Ok b.
Proof.
  destruct v; simpl; try discriminate; eauto.
  - intros _. destruct (key_index key'); eauto.
    destruct (nth_error _ _); eauto.
  - destruct (h !! l); try discriminate; intros _; eauto.
Qed.

(** C8: while the debugger is enabled, as it is when lines 190-199 run, a
    payload that lacks the prompt-structure field makes the listener write
    exactly one line, the warning; no exception is raised and no report
    body is written. *)
Theorem missing_prompt_struct_warns (ToString : heap -> hvalue -> string)
  (s : settings) (now : string) (h : heap) (payload : hvalue) :
  enabled s = true ->
  get_propH h payload "prompt_struct" = Ok HUndefined ->
  on_prompt_ready ToString s now h payload
  = ([CWarn [Arg (VStr "Prompt Debugger: No prompt structure available in the payload")]],
     Ok tt).
Proof.
  intros Hen Hps. unfold on_prompt_ready.
  destruct (get_propH_any_key h payload _ "chat_id" _ Hps) as [chat_id Hid].
  now rewrite Hen, Hps, Hid.
Qed.

Lemma missing_prompt_struct_warns_witness :
  on_prompt_ready ex_ToString defaultSettings "2026-01-01T00:00:00.000Z"
    ex_empty_section_heap (HRef 3%positive)
  = ([CWarn [Arg (VStr "Prompt Debugger: No prompt structure available in the payload")]],
     Ok tt).
Proof.
  apply (missing_prompt_struct_warns ex_ToString defaultSettings
           "2026-01-01T00:00:00.000Z" ex_empty_section_heap (HRef 3%positive)).
  - reflexivity.
  - vm_compute. reflexivity.
Defined.

(** * The verbose part of the report *)

Lemma has_group_app xs ys label :
  has_group (xs ++ ys) label = has_group xs label || has_group ys label.
Proof. apply existsb_app. Qed.

Lemma existsb_all_false {A : Type} (f : A -> bool) xs :
  (forall x, f x = false) -> existsb f xs = false.
Proof.
  intros Hf. induction xs as [|x xs IH]; simpl; [reflexivity|].
  now rewrite Hf, IH.
Qed.

Lemma truthy_not_nullish v : truthy v = true -> is_nullish v = false.
Proof. destruct v; simpl; congruence. Qed.

Lemma get_prop_ok v key :
  is_nullish v = false -> exists w, get_prop v key = Ok w.
Proof.
  destruct v; simpl; try discriminate; intros _; eauto.
  destruct (key_index key) as [i|]; eauto.
  destruct (nth_error _ _); eauto.
Qed.

Lemma get_path_app v p q :
  get_path v (p ++ q)
  = match get_path v p with
    | Ok w => get_path w q
    | Throw e => Throw e
    end.
Proof.
  revert v. induction p as [|key p IH]; intros v; simpl; [reflexivity|].
  destruct (get_prop v key); [apply IH|reflexivity].
Qed.

Lemma log_path_ok label c path v :
  get_path c path = Ok v ->
  log_path label c path = ([CLog [Arg (VStr label); Arg v]], Ok tt).
Proof. intros H. unfold log_path. now rewrite H. Qed.

(** The three lines of a section that is there. *)
Lemma log_fields_ok c path v :
  get_path c path = Ok v -> is_nullish v = false ->
  exists t a e,
    log_fields c path
    = ([CLog [Arg (VStr "Text Components:"); Arg t];
        CLog [Arg (VStr "Additional Chat Log:"); Arg a];
        CLog [Arg (VStr "Extensions:"); Arg e]], Ok tt).
Proof.
  intros Hpath Hnull.
  destruct (get_prop_ok v "text" Hnull) as [t Ht].
  destruct (get_prop_ok v "additional_chat_log" Hnull) as [a Ha].
  destruct (get_prop_ok v "extension" Hnull) as [e He].
  exists t, a, e. unfold log_fields.
  rewrite (log_path_ok _ c (path ++ ["text"]) t),
    (log_path_ok _ c (path ++ ["additional_chat_log"]) a),
    (log_path_ok _ c (path ++ ["extension"]) e);
    try (rewrite get_path_app, Hpath; simpl; now rewrite ?Ht, ?Ha, ?He).
  reflexivity.
Qed.

Lemma get_prop_section entries key :
  get_prop (VObj entries) key = Ok (section_value (VObj entries) key).
Proof. reflexivity. Qed.

Lemma report_section_spec entries key label style :
  let c := VObj entries in
  (report_section c key label style).2 = Ok tt
  /\ forall l,
       has_group (report_section c key label style).1 l
       = truthy (section_value c key) && String.eqb label l.
Proof.
  intros c. subst c. unfold report_section. rewrite get_prop_section.
  set (c := VObj entries). simpl bindW.
  destruct (truthy (section_value c key)) eqn:Htruthy; [|now split].
  destruct (log_fields_ok c [key] (section_value c key)) as (t & a & e & ->).
  { reflexivity. }
  { now apply truthy_not_nullish. }
  simpl. split; [reflexivity|]. intros l. now rewrite orb_false_r.
Qed.

Lemma report_chat_log_spec entries :
  let c := VObj entries in
  (report_chat_log c).2 = Ok tt
  /\ forall l,
       has_group (report_chat_log c).1 l
       = truthy (section_value c "chat_log") && String.eqb "%cChat Log" l.
Proof.
  intros c. subst c. unfold report_chat_log. rewrite get_prop_section.
  set (c := VObj entries). simpl bindW.
  destruct (truthy (section_value c "chat_log")) eqn:Htruthy; [|now split].
  simpl. split; [reflexivity|]. intros l. now rewrite orb_false_r.
Qed.

Lemma get_path_member entries key id :
  get_path (VObj entries) [key; id]
  = get_prop (section_value (VObj entries) key) id.
Proof.
  simpl. unfold section_value. simpl.
  now destruct (get_prop _ id).
Qed.

Lemma per_id_groups_spec entries key id_label keys :
  (forall id, In id keys ->
     exists v, get_prop (section_value (VObj entries) key) id = Ok v
               /\ is_nullish v = false) ->
  (forW keys
     (fun id =>
        bindW (emit (CGroup [Arg (VStr (id_label ++ id))]))
          (fun _ => bindW (log_fields (VObj entries) [key; id])
                      (fun _ => emit CGroupEnd)))).2
  = Ok tt
  /\ forall l,
       has_group
         (forW keys
            (fun id =>
               bindW (emit (CGroup [Arg (VStr (id_label ++ id))]))
                 (fun _ => bindW (log_fields (VObj entries) [key; id])
                             (fun _ => emit CGroupEnd)))).1 l
       = existsb (fun id => String.eqb (id_label ++ id) l) keys.
Proof.
  induction keys as [|id keys IH]; intros Hkeys; [now split|].
  destruct IH as [IHok IHgroups].
  { intros id' Hin. apply Hkeys. now right. }
  destruct (Hkeys id (or_introl eq_refl)) as (v & Hv & Hnull).
  destruct (log_fields_ok (VObj entries) [key; id] v) as (t & a & e & Hfields).
  { now rewrite get_path_member. }
  { exact Hnull. }
  cbn [forW]. rewrite Hfields.
  match goal with |- context [forW keys ?body] =>
    destruct (forW keys body) as [out r] eqn:Hloop end.
  simpl in IHok, IHgroups. subst r. simpl. split; [reflexivity|].
  intros l. now rewrite IHgroups.
Qed.

Lemma bindW_liftW_ok {A B : Type} (v : A) (k : A -> W B) :
  bindW (liftW (Ok v)) k = k v.
Proof. unfold bindW, liftW. now destruct (k v). Qed.

Lemma bindW_emit {B : Type} c (k : unit -> W B) :
  bindW (emit c) k = (c :: (k tt).1, (k tt).2).
Proof. unfold bindW, emit. now destruct (k tt). Qed.

Lemma report_keyed_spec entries key label style id_label :
  let c := VObj entries in
  members_defined (section_value c key) ->
  (report_keyed c key label style id_label).2 = Ok tt
  /\ forall l,
       has_group (report_keyed c key label style id_label).1 l
       = (0 <? length (own_keys (if truthy (section_value c key)
                                 then section_value c key else VObj [])))%nat
         && (String.eqb label l
             || existsb (fun id => String.eqb (id_label ++ id) l)
                  (for_in_keys (section_value c key))).
Proof.
  intros c Hmembers. subst c. unfold report_keyed.
  rewrite !get_prop_section, bindW_liftW_ok.
  set (c := VObj entries) in *.
  assert (Hkeys :
    Object_keys (if truthy (section_value c key)
                 then section_value c key else VObj [])
    = Ok (own_keys (if truthy (section_value c key)
                    then section_value c key else VObj []))).
  { destruct (truthy (section_value c key)) eqn:Htruthy; [|reflexivity].
    apply truthy_not_nullish in Htruthy.
    now destruct (section_value c key). }
  rewrite Hkeys, bindW_liftW_ok.
  destruct (0 <? _)%nat; [|now split].
  destruct (per_id_groups_spec entries key id_label
              (for_in_keys (section_value c key)) Hmembers) as [Hok Hgroups].
  fold c in Hok, Hgroups.
  rewrite bindW_emit, bindW_liftW_ok, (bindW_ok _ _ tt Hok). simpl.
  split; [reflexivity|].
  intros l. rewrite has_group_app, Hgroups. simpl. now rewrite orb_false_r.
Qed.

(** Which groups the verbose part opens, on a structure that is an object
    and whose keyed sections have members that can be read. *)
Lemma report_verbose_spec entries :
  let c := VObj entries in
  members_defined (section_value c "other_chars_prompt") ->
  members_defined (section_value c "plugin_prompts") ->
  (report_verbose c).2 = Ok tt
  /\ forall l,
       has_group (report_verbose c).1 l
       = (truthy (section_value c "char_prompt")
          && String.eqb "%cCharacter Prompt" l)
         || ((truthy (section_value c "user_prompt")
              && String.eqb "%cUser Prompt" l)
         || ((truthy (section_value c "world_prompt")
              && String.eqb "%cWorld Prompt" l)
         || (((0 <? length (own_keys
                 (if truthy (section_value c "other_chars_prompt")
                  then section_value c "other_chars_prompt" else VObj [])))%nat
              && (String.eqb "%cOther Characters Prompts" l
                  || existsb (fun id => String.eqb ("Character ID: " ++ id) l)
                       (for_in_keys (section_value c "other_chars_prompt"))))
         || (((0 <? length (own_keys
                 (if truthy (section_value c "plugin_prompts")
                  then section_value c "plugin_prompts" else VObj [])))%nat
              && (String.eqb "%cPlugin Prompts" l
                  || existsb (fun id => String.eqb ("Plugin ID: " ++ id) l)
                       (for_in_keys (section_value c "plugin_prompts"))))
         || (truthy (section_value c "chat_log")
             && String.eqb "%cChat Log" l))))).
Proof.
  intros c Hothers Hplugins. unfold report_verbose.
  destruct (report_section_spec entries "char_prompt" "%cCharacter Prompt"
              "color: #2196F3; font-weight: bold;") as [Hok1 Hg1].
  destruct (report_section_spec entries "user_prompt" "%cUser Prompt"
              "color: #FF9800; font-weight: bold;") as [Hok2 Hg2].
  destruct (report_section_spec entries "world_prompt" "%cWorld Prompt"
              "color: #9C27B0; font-weight: bold;") as [Hok3 Hg3].
  destruct (report_keyed_spec entries "other_chars_prompt"
              "%cOther Characters Prompts" "color: #E91E63; font-weight: bold;"
              "Character ID: " Hothers) as [Hok4 Hg4].
  destruct (report_keyed_spec entries "plugin_prompts" "%cPlugin Prompts"
              "color: #00BCD4; font-weight: bold;" "Plugin ID: " Hplugins)
    as [Hok5 Hg5].
  destruct (report_chat_log_spec entries) as [Hok6 Hg6].
  fold c in Hok1, Hg1, Hok2, Hg2, Hok3, Hg3, Hok4, Hg4, Hok5, Hg5, Hok6, Hg6.
  rewrite (bindW_ok _ _ tt Hok1), (bindW_ok _ _ tt Hok2),
    (bindW_ok _ _ tt Hok3), (bindW_ok _ _ tt Hok4), (bindW_ok _ _ tt Hok5).
  cbn [fst snd]. split; [exact Hok6|]. intros l.
  rewrite !has_group_app, Hg1, Hg2, Hg3, Hg4, Hg5, Hg6. reflexivity.
Qed.

Lemma logPromptStruct_verbose ToString s now h promptStruct chatId copy :
  enabled s = true -> verboseLogging s = true ->
  JSON_roundtrip h promptStruct = Ok copy ->
  (report_verbose (cleanObject s copy)).2 = Ok tt ->
  forall l,
    has_group (logPromptStruct ToString s now h promptStruct chatId).1 l
    = String.eqb ("%cPrompt Structure (Chat ID: " ++ ToString h chatId ++ ")") l
      || has_group (report_verbose (cleanObject s copy)).1 l.
Proof.
  intros Hen Hverb Hcopy Hok l.
  unfold logPromptStruct, logPromptStruct_body.
  rewrite Hen, Hcopy, Hverb. cbn [negb]. rewrite bindW_liftW_ok.
  rewrite !bindW_emit, (bindW_ok _ _ tt Hok). cbn [fst snd try_catch emit].
  cbn [has_group existsb]. rewrite orb_false_l.
  f_equal. fold (has_group ((report_verbose (cleanObject s copy)).1 ++ [CGroupEnd]) l).
  rewrite has_group_app. cbn. now rewrite orb_false_r.
Qed.

(** ** The verbose part closes its groups *)








(** ** The sections of a sanitized structure *)

Lemma obj_get_In {V : Type} (entries : list (string * V)) key v :
  obj_get entries key = Some v -> In (key, v) entries.
Proof.
  induction entries as [|[k w] rest IH]; simpl; [discriminate|].
  destruct (String.eqb_spec k key) as [->|_].
  - intros [= ->]. now left.
  - intros H. right. now apply IH.
Qed.

Lemma obj_get_of_key {V : Type} (entries : list (string * V)) key :
  In key (List.map fst entries) ->
  exists v, obj_get entries key = Some v /\ In (key, v) entries.
Proof.
  intros Hin. destruct (obj_get entries key) as [v|] eqn:Hget.
  - exists v. split; [reflexivity|now apply obj_get_In].
  - exfalso. induction entries as [|[k w] rest IH]; simpl in *; [assumption|].
    destruct (String.eqb_spec k key) as [->|Hne]; [discriminate|].
    destruct Hin as [Heq|Hin]; [contradiction|auto].
Qed.

Lemma existsb_keys {V : Type} (entries : list (string * V)) id :
  existsb (fun id' => String.eqb id' id) (List.map fst entries)
  = has_key entries id.
Proof.
  unfold has_key. induction entries as [|e l IH]; simpl; [reflexivity|].
  now rewrite IH.
Qed.

Lemma pruned_member entries key v :
  pruned (VObj entries) = true -> In (key, v) entries ->
  is_nullish v = false /\ is_empty_container v = false.
Proof.
  simpl. intros H Hin. rewrite List.forallb_forall in H.
  specialize (H _ Hin). simpl in H.
  apply andb_prop in H as [H _]. apply andb_prop in H as [H _].
  apply andb_prop in H as [H1 H2].
  now rewrite negb_true_iff in H1, H2.
Qed.

Section sanitized_sections.

Variable s : settings.
Hypothesis filter_on : filterOutEmptyFields s = true.
Variable entries : list (string * value).
Hypothesis valid_copy : valid (VObj entries) = true.
Hypothesis no_proto : has_key entries "__proto__" = false.

Lemma cleaned_copy_is_object :
  exists cleaned, cleanObject s (VObj entries) = VObj cleaned.
Proof.
  pose proof valid_copy as Hv. simpl in Hv. apply andb_prop in Hv as [Hk _].
  rewrite (cleanObject_obj s filter_on _ Hk no_proto). eauto.
Qed.

Lemma section_of_cleaned key :
  section_of (cleanObject s (VObj entries)) key
  = match section_of (VObj entries) key with
    | Some v => if dropped_member s v then None else Some (cleanObject s v)
    | None => None
    end.
Proof.
  pose proof valid_copy as Hv. simpl in Hv. apply andb_prop in Hv as [Hk _].
  unfold section_of. rewrite (cleanObject_obj s filter_on _ Hk no_proto). simpl.
  now apply obj_get_cleaned.
Qed.

(** What is read at a key of the sanitized structure is its own member. *)
Lemma section_value_cleaned key :
  section_value (cleanObject s (VObj entries)) key
  = default VUndefined (section_of (cleanObject s (VObj entries)) key).
Proof.
  destruct cleaned_copy_is_object as [cleaned ->]. reflexivity.
Qed.

Lemma section_valid key v :
  section_of (VObj entries) key = Some v -> valid v = true.
Proof.
  intros Hsec. apply obj_get_In in Hsec.
  pose proof valid_copy as Hv. simpl in Hv. apply andb_prop in Hv as [_ Hv].
  rewrite List.forallb_forall in Hv. exact (Hv _ Hsec).
Qed.

(** A prompt section that was a keyed container is, once sanitized, absent
    or an object with members. *)
Lemma record_section_cleaned key :
  is_record_or_absent (section_of (VObj entries) key) = true ->
  section_of (cleanObject s (VObj entries)) key = None
  \/ exists sec,
       section_of (cleanObject s (VObj entries)) key = Some sec
       /\ is_object sec = true /\ entries_of sec <> [].
Proof.
  intros Hshape. rewrite section_of_cleaned.
  destruct (section_of (VObj entries) key) as [v|] eqn:Hsec; [|now left].
  destruct v as [| | | | | |sub|]; try discriminate; try (now left).
  pose proof (cleanObject_kind s filter_on (VObj sub)) as Hkind.
  unfold dropped_member.
  destruct (cleanObject s (VObj sub)) as [| | | | | |members|proto members];
    try discriminate;
    (destruct members as [|m members]; [now left|]); right; eexists;
    (split; [reflexivity|]); now split.
Qed.

(** Without a key [__proto__] of its own it is, once sanitized, absent or
    an object with the prototype of object literals and with members, none
    of them [null] or [undefined]. *)
Lemma keyed_section_cleaned key :
  is_record_or_absent (section_of (VObj entries) key) = true ->
  has_key (entries_of (section_value (VObj entries) key)) "__proto__" = false ->
  section_of (cleanObject s (VObj entries)) key = None
  \/ exists members,
       section_of (cleanObject s (VObj entries)) key = Some (VObj members)
       /\ members <> []
       /\ forall k v, In (k, v) members -> is_nullish v = false.
Proof.
  intros Hshape Hkeys. rewrite section_of_cleaned.
  change (section_value (VObj entries) key)
    with (default VUndefined (section_of (VObj entries) key)) in Hkeys.
  destruct (section_of (VObj entries) key) as [v|] eqn:Hsec; [|now left].
  destruct v as [| | | | | |sub|]; try discriminate; try (now left).
  simpl in Hkeys.
  pose proof (section_valid key _ Hsec) as Hvalid. simpl in Hvalid.
  apply andb_prop in Hvalid as [Hk _].
  pose proof (pruned_cleanObject s filter_on (VObj sub)) as Hpruned.
  unfold dropped_member.
  rewrite (cleanObject_obj s filter_on _ Hk Hkeys) in *.
  destruct (List.map (map_entry s) _) as [|m members]; [now left|]. right.
  exists (m :: members). repeat split; [discriminate|].
  intros k v Hin. eapply pruned_member; eassumption.
Qed.

Lemma sequence_section_cleaned key :
  is_sequence_or_absent (section_of (VObj entries) key) = true ->
  section_of (cleanObject s (VObj entries)) key = None
  \/ exists items,
       section_of (cleanObject s (VObj entries)) key = Some (VArr items)
       /\ items <> [].
Proof.
  intros Hshape. rewrite section_of_cleaned.
  destruct (section_of (VObj entries) key) as [v|] eqn:Hsec; [|now left].
  destruct v as [| | | | |items| |]; try discriminate; try (now left).
  pose proof (cleanObject_kind s filter_on (VArr items)) as Hkind.
  unfold dropped_member.
  destruct (cleanObject s (VArr items)) as [| | | | |items'| |]; try discriminate.
  destruct items' as [|x items']; [now left|]. right.
  exists (x :: items'). now split.
Qed.

(** What the conditions of the verbose part see of such sections. *)
Lemma record_section_conditions key :
  is_record_or_absent (section_of (VObj entries) key) = true ->
  let c := cleanObject s (VObj entries) in
  truthy (section_value c key) = present_nonempty (section_of c key).
Proof.
  intros Hshape c. unfold c. rewrite section_value_cleaned.
  destruct (record_section_cleaned key Hshape)
    as [Hnone|(sec & Hsome & Hobject & Hne)].
  - now rewrite Hnone.
  - rewrite Hsome. simpl.
    destruct sec as [| | | | | |[|m members]|proto [|m members]];
      try discriminate; try reflexivity; now contradiction Hne.
Qed.

Lemma keyed_section_conditions key :
  is_record_or_absent (section_of (VObj entries) key) = true ->
  has_key (entries_of (section_value (VObj entries) key)) "__proto__" = false ->
  let c := cleanObject s (VObj entries) in
  (0 <? length (own_keys (if truthy (section_value c key)
                          then section_value c key else VObj [])))%nat
  = present_nonempty (section_of c key)
  /\ members_defined (section_value c key)
  /\ forall id,
       (0 <? length (own_keys (if truthy (section_value c key)
                               then section_value c key else VObj [])))%nat
       && existsb (fun id' => String.eqb id' id)
            (for_in_keys (section_value c key))
       = has_key (entries_of (section_value c key)) id.
Proof.
  intros Hshape Hkeys c. unfold c. rewrite section_value_cleaned.
  destruct (keyed_section_cleaned key Hshape Hkeys)
    as [Hnone|(members & Hsome & Hne & Hmembers)].
  - rewrite Hnone. simpl. repeat split; auto. intros id [].
  - rewrite Hsome. simpl. destruct members as [|m members]; [congruence|].
    repeat split.
    + intros id Hin. unfold for_in_keys in Hin. simpl in Hin.
      destruct (obj_get_of_key (m :: members) id Hin) as (v & Hget & Hv).
      exists v. split; [unfold get_prop, chain_prop; now rewrite Hget|].
      eapply Hmembers; eassumption.
    + intros id. unfold for_in_keys. simpl for_in_entries.
      now rewrite <- existsb_keys.
Qed.

Lemma sequence_section_conditions key :
  is_sequence_or_absent (section_of (VObj entries) key) = true ->
  let c := cleanObject s (VObj entries) in
  truthy (section_value c key) = present_nonempty (section_of c key).
Proof.
  intros Hshape c. unfold c. rewrite section_value_cleaned.
  destruct (sequence_section_cleaned key Hshape)
    as [Hnone|(items & Hsome & Hne)].
  - now rewrite Hnone.
  - rewrite Hsome. simpl. now destruct items.
Qed.

End sanitized_sections.

Ltac decide_labels :=
  repeat rewrite existsb_all_false by (intros; reflexivity);
  repeat match goal with
    | |- context [String.eqb ?a ?b] =>
        first [ replace (String.eqb a b) with false by reflexivity
              | replace (String.eqb a b) with true by reflexivity ]
    end;
  rewrite ?andb_false_r, ?andb_true_r, ?orb_false_r, ?orb_false_l.

(** C9, as amended: in verbose mode with filtering enabled, on a structure
    of the shape of the data model (the five prompt sections keyed
    containers, the chat log a sequence, where they are present) in which
    neither the structure itself nor its section of the other characters
    or of the plugins has a key [__proto__], the group of a known section
    is opened if and only if the section is present and non-empty in the
    sanitized structure, and inside the groups of the other characters and
    of the plugins there is one group per id of the sanitized section and
    no other. *)
Theorem verbose_groups_follow_sections (ToString : heap -> hvalue -> string)
  (s : settings) (now : string) (h : heap) (promptStruct chatId : hvalue)
  (copy : value) :
  enabled s = true -> verboseLogging s = true ->
  filterOutEmptyFields s = true ->
  JSON_roundtrip h promptStruct = Ok copy ->
  data_model_shape copy = true ->
  ordinary_keys copy = true ->
  let c := cleanObject s copy in
  let out := (logPromptStruct ToString s now h promptStruct chatId).1 in
  has_group out "%cCharacter Prompt"
  = present_nonempty (section_of c "char_prompt")
  /\ has_group out "%cUser Prompt"
     = present_nonempty (section_of c "user_prompt")
  /\ has_group out "%cWorld Prompt"
     = present_nonempty (section_of c "world_prompt")
  /\ has_group out "%cOther Characters Prompts"
     = present_nonempty (section_of c "other_chars_prompt")
  /\ has_group out "%cPlugin Prompts"
     = present_nonempty (section_of c "plugin_prompts")
  /\ has_group out "%cChat Log"
     = present_nonempty (section_of c "chat_log")
  /\ (forall id,
        has_group out ("Character ID: " ++ id)
        = has_key (entries_of (section_value c "other_chars_prompt")) id)
  /\ (forall id,
        has_group out ("Plugin ID: " ++ id)
        = has_key (entries_of (section_value c "plugin_prompts")) id).
Proof.
  intros Hen Hverb Hon Hcopy Hshape Hkeys c out.
  pose proof (JSON_roundtrip_valid _ _ _ Hcopy) as Hvalid.
  destruct copy as [| | | | | |entries|]; try discriminate.
  unfold data_model_shape in Hshape. cbn [forallb] in Hshape.
  apply andb_prop in Hshape as [Hrec Hshape].
  repeat match type of Hrec with
         | (_ && _) = true => apply andb_prop in Hrec as [? Hrec]
         end.
  unfold ordinary_keys in Hkeys.
  apply andb_prop in Hkeys as [Hkeys Hkplugins].
  apply andb_prop in Hkeys as [Hktop Hkothers].
  apply negb_true_iff in Hktop, Hkothers, Hkplugins. simpl in Hktop.
  pose proof (record_section_conditions s Hon entries Hvalid Hktop "char_prompt")
    as Tchar.
  pose proof (record_section_conditions s Hon entries Hvalid Hktop "user_prompt")
    as Tuser.
  pose proof (record_section_conditions s Hon entries Hvalid Hktop "world_prompt")
    as Tworld.
  destruct (keyed_section_conditions s Hon entries Hvalid Hktop
              "other_chars_prompt")
    as (Nothers & Mothers & Kothers); [assumption|assumption|].
  destruct (keyed_section_conditions s Hon entries Hvalid Hktop "plugin_prompts")
    as (Nplugins & Mplugins & Kplugins); [assumption|assumption|].
  pose proof (sequence_section_conditions s Hon entries Hvalid Hktop "chat_log"
                Hshape) as Tlog.
  fold c in Tchar, Tuser, Tworld, Nothers, Mothers, Kothers, Nplugins,
    Mplugins, Kplugins, Tlog.
  destruct (cleaned_copy_is_object s Hon entries Hvalid Hktop) as [cleaned Hc].
  fold c in Hc.
  destruct (report_verbose_spec cleaned) as [Hok Hgroups];
    rewrite <- ?Hc; try assumption.
  rewrite <- Hc in Hok, Hgroups.
  pose proof (logPromptStruct_verbose ToString s now h promptStruct chatId
                _ Hen Hverb Hcopy Hok) as Hout.
  fold c in Hout. fold out in Hout.
  rewrite <- (Tchar ltac:(assumption)), <- (Tuser ltac:(assumption)),
    <- (Tworld ltac:(assumption)), <- Nothers, <- Nplugins, <- Tlog.
  repeat split; try intros id; rewrite Hout, Hgroups.
  - decide_labels. reflexivity.
  - decide_labels. reflexivity.
  - decide_labels. reflexivity.
  - decide_labels. reflexivity.
  - decide_labels. reflexivity.
  - decide_labels. reflexivity.
  - rewrite <- Kothers.
    rewrite (existsb_all_false
               (fun id' => String.eqb ("Plugin ID: " ++ id') ("Character ID: " ++ id)))
      by reflexivity.
    decide_labels. reflexivity.
  - rewrite <- Kplugins.
    rewrite (existsb_all_false
               (fun id' => String.eqb ("Character ID: " ++ id') ("Plugin ID: " ++ id)))
      by reflexivity.
    decide_labels. reflexivity.
Qed.

Lemma verbose_groups_follow_sections_witness :
  has_group
    (logPromptStruct ex_ToString verbose_settings "2026-01-01T00:00:00.000Z"
       ex_prompt_heap (HRef 1%positive) (HStr "c1")).1
    "%cCharacter Prompt"
  = true
  /\ has_group
       (logPromptStruct ex_ToString verbose_settings "2026-01-01T00:00:00.000Z"
          ex_prompt_heap (HRef 1%positive) (HStr "c1")).1
       "%cUser Prompt"
     = false
  /\ has_group
       (logPromptStruct ex_ToString verbose_settings "2026-01-01T00:00:00.000Z"
          ex_prompt_heap (HRef 1%positive) (HStr "c1")).1
       "Character ID: eve"
     = true.
Proof.
  destruct (verbose_groups_follow_sections ex_ToString verbose_settings
              "2026-01-01T00:00:00.000Z" ex_prompt_heap (HRef 1%positive)
              (HStr "c1") ex_prompt_tree)
    as (Hchar & Huser & _ & _ & _ & _ & Hids & _);
    try reflexivity.
  split; [rewrite Hchar; reflexivity|].
  split; [rewrite Huser; reflexivity|].
  exact (Hids "eve").
Defined.

(** C9 as stated does not hold.  With filtering off the sanitized structure
    is the copy itself, and [{char_prompt: {}}] gets its group, with three
    [undefined] lines, although the section is empty.  With filtering on,
    [{char_prompt: 0}] keeps its section, which is not one of the empty
    values, and gets no group: the test is for truthiness.  And, with
    filtering on, the sanitized form of
    [{"__proto__": {"char_prompt": {"text": "t"}}, "b": 2}] is [{b: 2}]
    with [{char_prompt: {text: "t"}}] as its prototype: it has no section
    [char_prompt], and line 117 reads the one of the prototype and opens
    the group. *)
Lemma verbose_group_counterexample :
  (JSON_roundtrip ex_empty_section_heap (HRef 1%positive)
   = Ok (VObj [("char_prompt", VObj [])])
   /\ present_nonempty
        (section_of
           (cleanObject verbose_unfiltered_settings
              (VObj [("char_prompt", VObj [])])) "char_prompt") = false
   /\ has_group
        (logPromptStruct ex_ToString verbose_unfiltered_settings
           "2026-01-01T00:00:00.000Z" ex_empty_section_heap (HRef 1%positive)
           (HStr "c1")).1 "%cCharacter Prompt" = true)
  /\ (JSON_roundtrip ex_scalar_section_heap (HRef 1%positive)
      = Ok (VObj [("char_prompt", VNum 0)])
      /\ present_nonempty
           (section_of
              (cleanObject verbose_settings (VObj [("char_prompt", VNum 0)]))
              "char_prompt") = true
      /\ has_group
           (logPromptStruct ex_ToString verbose_settings
              "2026-01-01T00:00:00.000Z" ex_scalar_section_heap
              (HRef 1%positive) (HStr "c1")).1 "%cCharacter Prompt" = false)
  /\ (JSON_roundtrip ex_proto_section_heap (HRef 1%positive)
      = Ok ex_proto_section_tree
      /\ data_model_shape ex_proto_section_tree = true
      /\ cleanObject verbose_settings ex_proto_section_tree
         = VProto (VObj [("char_prompt", VObj [("text", VStr "t")])])
             [("b", VNum 2)]
      /\ present_nonempty
           (section_of (cleanObject verbose_settings ex_proto_section_tree)
              "char_prompt") = false
      /\ has_group
           (logPromptStruct ex_ToString verbose_settings
              "2026-01-01T00:00:00.000Z" ex_proto_section_heap
              (HRef 1%positive) (HStr "c1")).1 "%cCharacter Prompt" = true).
Proof. repeat split; vm_compute; reflexivity. Qed.

(** * Invocations that succeed *)







(** * Reading after an assignment *)

Section assignment_lookup.

Context {V : Type}.
Implicit Types (entries : list (string * V)) (v : V).

Lemma obj_get_update_eq entries key v :
  has_key entries key = true -> obj_get (obj_update entries key v) key = Some v.
Proof.
  unfold has_key. induction entries as [|[k w] rest IH]; simpl; [discriminate|].
  destruct (String.eqb k key) eqn:E; simpl.
  - now rewrite E.
  - rewrite E. exact IH.
Qed.

Lemma obj_get_insert_eq entries key v :
  has_key entries key = false ->
  obj_get (obj_insert_new entries key v) key = Some v.
Proof.
  unfold has_key. induction entries as [|[k w] rest IH]; simpl.
  - now rewrite String.eqb_refl.
  - destruct (String.eqb k key) eqn:E; simpl; [discriminate|]. intros Hrest.
    destruct (goes_before key k); simpl.
    + now rewrite String.eqb_refl.
    + rewrite E. now apply IH.
Qed.

Lemma obj_get_set_eq entries key v : obj_get (obj_set entries key v) key = Some v.
Proof.
  unfold obj_set. destruct (has_key entries key) eqn:E.
  - now apply obj_get_update_eq.
  - now apply obj_get_insert_eq.
Qed.

Lemma obj_get_set_ne entries key key' v :
  key' <> key -> obj_get (obj_set entries key v) key' = obj_get entries key'.
Proof.
  intros Hne. assert (Hk : String.eqb key key' = false).
  { apply String.eqb_neq. congruence. }
  unfold obj_set. destruct (has_key entries key).
  - induction entries as [|[k w] rest IH]; simpl; [reflexivity|].
    destruct (String.eqb_spec k key) as [->|Hkk]; simpl.
    + now rewrite Hk.
    + now rewrite IH.
  - induction entries as [|[k w] rest IH]; simpl.
    + now rewrite Hk.
    + destruct (goes_before key k); simpl.
      * now rewrite Hk.
      * now rewrite IH.
Qed.

Lemma obj_set_not_empty entries key v : obj_set entries key v <> [].
Proof.
  intros H. pose proof (obj_get_set_eq entries key v) as Hget.
  now rewrite H in Hget.
Qed.

End assignment_lookup.

(** * Further properties of the sanitizer *)

(** X1: with filtering on, the elements of a sequence are treated as
    follows: an element is removed exactly when it is [null] or
    [undefined], or when its sanitized form is an empty container; the
    others stay in their order, each in its sanitized form.  The third
    test of the callback (line 58) never decides: an empty array is
    already removed by the second.  So a sanitized sequence is never
    longer than the sequence. *)
Theorem clean_sequence_elements (items : list value) :
  clean (VArr items) true
  = VArr (List.map (fun item => clean item true)
            (List.filter
               (fun item =>
                  negb (is_nullish item)
                  && negb (is_empty_container (clean item true)))
               items))
  /\ array_length (clean (VArr items) true) <= length items.
Proof.
  assert (Hon : filterOutEmptyFields filtering = true) by reflexivity.
  assert (Heq :
    clean (VArr items) true
    = VArr (List.map (fun item => clean item true)
              (List.filter
                 (fun item =>
                    negb (is_nullish item)
                    && negb (is_empty_container (clean item true)))
                 items))).
  { rewrite clean_on, (cleanObject_arr filtering Hon). f_equal.
    rewrite (filter_agree (keep_item filtering)
               (fun item =>
                  negb (is_nullish item)
                  && negb (is_empty_container (clean item true)))).
    - apply List.map_ext. intros item.
      now rewrite clean_on, (map_item_cleanObject filtering Hon).
    - intros item. rewrite (keep_item_spec filtering Hon), clean_on.
      destruct (typeof_object item) eqn:Hobj; [reflexivity|].
      rewrite (cleanObject_scalar filtering Hon item Hobj).
      now destruct item as [| | | | |items'|entries'|proto entries']. }
  split; [exact Heq|].
  rewrite Heq. simpl. rewrite List.length_map.
  apply List.filter_length_le.
Qed.

(** X2: the sanitizer leaves a well-formed structure of plain data, in
    which no object has a key [__proto__], as it is exactly when there is
    nothing to prune in it. *)
Theorem clean_fixed_iff_pruned (x : value) :
  valid x = true -> plain x = true -> clean x true = x <-> pruned x = true.
Proof.
  intros Hvalid Hplain. rewrite clean_on. split.
  - intros Hfix. rewrite <- Hfix. now apply pruned_cleanObject.
  - intros Hpruned. now apply cleanObject_fixed.
Qed.

Lemma clean_fixed_iff_pruned_witness :
  clean (VObj [("b", VNum 0); ("c", VArr [VStr ""])]) true
  = VObj [("b", VNum 0); ("c", VArr [VStr ""])]
  <-> pruned (VObj [("b", VNum 0); ("c", VArr [VStr ""])]) = true.
Proof.
  apply (clean_fixed_iff_pruned (VObj [("b", VNum 0); ("c", VArr [VStr ""])]));
    reflexivity.
Defined.

(** ** The sanitized structure is no larger *)

Lemma obj_set_nodes {V : Type} (f : V -> nat) (acc : list (string * V)) key v :
  list_sum (List.map (fun e => f (snd e)) (obj_set acc key v))
  <= list_sum (List.map (fun e => f (snd e)) acc) + f v.
Proof.
  unfold obj_set. destruct (has_key acc key).
  - induction acc as [|[k w] rest IH]; simpl; [lia|].
    destruct (String.eqb k key); simpl; lia.
  - induction acc as [|[k w] rest IH]; simpl; [lia|].
    destruct (goes_before key k); simpl; lia.
Qed.

Lemma assign_nodes newObj key v :
  nodes (built (assign newObj key v)) <= nodes (built newObj) + nodes v.
Proof.
  destruct newObj as [[proto|] acc]; unfold assign, built; simpl;
    destruct (String.eqb key "__proto__"); try destruct (is_container v);
    simpl; pose proof (obj_set_nodes nodes acc key v); lia.
Qed.

Lemma loop_step_nodes s newObj entry :
  nodes (cleanObject s (snd entry)) <= nodes (snd entry) ->
  nodes (built (loop_step s newObj entry))
  <= nodes (built newObj) + nodes (snd entry).
Proof.
  destruct entry as [key v]. simpl. intros Hv. unfold loop_step, loop_body.
  simpl. destruct (is_nullish v); [lia|].
  destruct (typeof_object v).
  - destruct (_ || _); [|lia].
    pose proof (assign_nodes newObj key (cleanObject s v)). lia.
  - destruct (not_empty_string v); [|lia].
    apply assign_nodes.
Qed.

Lemma indexed_from_nodes items : forall i,
  list_sum (List.map (fun e => nodes (snd e)) (indexed_from i items))
  = list_sum (List.map nodes items).
Proof.
  induction items as [|x items IH]; intros i; simpl; [reflexivity|].
  now rewrite IH.
Qed.

Lemma filter_nodes (keep : string * value -> bool) entries :
  list_sum (List.map (fun e => nodes (snd e)) (List.filter keep entries))
  <= list_sum (List.map (fun e => nodes (snd e)) entries).
Proof.
  induction entries as [|e entries IH]; simpl; [lia|].
  destruct (keep e); simpl; lia.
Qed.

(** The values the loop visits are values of the structure. *)
Lemma chain_entries_nodes v :
  S (list_sum (List.map (fun e => nodes (snd e)) (chain_entries v))) <= nodes v.
Proof.
  induction v as [| | | | |items _|entries _|proto entries IH _] using value_ind;
    simpl; try lia.
  - rewrite indexed_from_nodes. lia.
  - rewrite List.map_app, list_sum_app.
    pose proof (filter_nodes
                  (fun e => negb (shadowed (List.map fst entries) (fst e)))
                  (chain_entries proto)).
    lia.
Qed.

(** X3: the sanitizer never adds anything: the sanitized structure has at
    most as many values as the structure. *)
Theorem clean_never_grows (x : value) : nodes (clean x true) <= nodes x.
Proof.
  rewrite clean_on.
  assert (Hon : filterOutEmptyFields filtering = true) by reflexivity.
  induction x as [| | | | |items IH|v Hobject IH] using value_chain_ind;
    try (simpl; lia).
  - rewrite (cleanObject_arr filtering Hon). simpl. apply le_n_S.
    induction IH as [|item items Hitem _ IHitems]; simpl; [lia|].
    destruct (keep_item filtering item); simpl.
    + rewrite (map_item_cleanObject filtering Hon). lia.
    + lia.
  - rewrite (cleanObject_loop filtering Hon v Hobject).
    assert (Hloop : forall newObj,
      nodes (built (fold_left (loop_step filtering) (chain_entries v) newObj))
      <= nodes (built newObj)
         + list_sum (List.map (fun e => nodes (snd e)) (chain_entries v))).
    { induction IH as [|entry entries Hentry _ IHentries]; intros newObj; simpl.
      - lia.
      - specialize (IHentries (loop_step filtering newObj entry)).
        pose proof (loop_step_nodes filtering newObj entry Hentry). lia. }
    pose proof (Hloop empty_object) as Hfinal.
    pose proof (chain_entries_nodes v). simpl in Hfinal. lia.
Qed.

(** * Further properties of the heap sanitizer *)

(** X4: with filtering on, what the sanitizer returns for a structure of the
    heap that reads as a tree is made of objects the call created, and of
    nothing else: the sanitized tree can be read in full in the part of the
    heap the call added, and the reference returned for an array or an
    object is one the heap did not hold before.  No object of the input, at
    any depth, is part of the result, so a later change to the result
    cannot reach the input. *)
Theorem cleanObjectH_result_is_new (fuel : nat) (s : settings) (h : heap)
  (x : hvalue) (depth : nat) (t : value) :
  filterOutEmptyFields s = true -> depth < fuel ->
  snapshot depth h x = Some t ->
  exists r,
    (cleanObjectH fuel s x h).2 = Ok r
    /\ snapshot depth ((cleanObjectH fuel s x h).1 ∖ h) r
       = Some (cleanObject s t)
    /\ forall l, r = HRef l -> h !! l = None.
Proof.
  intros Hon Hd Hsnap.
  destruct (cleanObjectH_simulates s Hon fuel depth h x t Hd Hsnap)
    as (h' & r & Hrun & Hsub & Hr).
  rewrite Hrun. exists r. simpl. repeat split; [exact Hr|].
  intros l ->.
  destruct (snapshot_ref _ _ _ _ Hr)
    as (d' & _ & [(items & ts & Hl & _)
                 |[(entries & tes & Hl & _)
                  |(proto & entries & tproto & tes & Hl & _)]]);
    apply (new_part_fresh h h' l); rewrite Hl; eauto.
Qed.

Lemma cleanObjectH_result_is_new_witness :
  exists r,
    (cleanObjectH 10 filtering (HRef 1%positive) ex_heap).2 = Ok r
    /\ snapshot 5
         ((cleanObjectH 10 filtering (HRef 1%positive) ex_heap).1 ∖ ex_heap) r
       = Some (cleanObject filtering ex_heap_tree)
    /\ forall l, r = HRef l -> ex_heap !! l = None.
Proof.
  apply (cleanObjectH_result_is_new 10 filtering ex_heap (HRef 1%positive) 5
           ex_heap_tree).
  - reflexivity.
  - lia.
  - vm_compute. reflexivity.
Defined.

(** ** A structure that contains itself *)

Lemma bind_throws {A B : Type} (m : M A) (k : A -> M B) h e :
  (m h).2 = Throw e -> (bind m k h).2 = Throw e.
Proof. unfold bind. destruct (m h) as [h' [a|e']]; simpl; congruence. Qed.

Lemma filterH_throws {A : Type} (h0 : heap) (p : A -> M bool) x xs :
  In x xs -> (forall y, keeps h0 (p y)) ->
  (forall h, h0 ⊆ h -> exists e, (p x h).2 = Throw e) ->
  forall h, h0 ⊆ h -> exists e, (filterH p xs h).2 = Throw e.
Proof.
  intros Hin Hkeeps Hx. induction xs as [|y ys IH]; intros h Hsub;
    [destruct Hin|].
  simpl. unfold bind at 1. destruct (p y h) as [h1 [b|e]] eqn:Hy; [|eauto].
  destruct Hin as [->|Hin].
  - destruct (Hx h Hsub) as [e He]. rewrite Hy in He. discriminate.
  - assert (Hsub1 : h0 ⊆ h1).
    { pose proof (Hkeeps y h Hsub) as Hk. now rewrite Hy in Hk. }
    destruct (IH Hin h1 Hsub1) as [e He]. exists e. now apply bind_throws.
Qed.

Lemma forH_throws {A : Type} (h0 : heap) (body : A -> M unit) x xs :
  In x xs -> (forall y, keeps h0 (body y)) ->
  (forall h, h0 ⊆ h -> exists e, (body x h).2 = Throw e) ->
  forall h, h0 ⊆ h -> exists e, (forH xs body h).2 = Throw e.
Proof.
  intros Hin Hkeeps Hx. induction xs as [|y ys IH]; intros h Hsub;
    [destruct Hin|].
  simpl. unfold bind at 1. destruct (body y h) as [h1 [[]|e]] eqn:Hy; [|eauto].
  destruct Hin as [->|Hin].
  - destruct (Hx h Hsub) as [e He]. rewrite Hy in He. discriminate.
  - assert (Hsub1 : h0 ⊆ h1).
    { pose proof (Hkeeps y h Hsub) as Hk. now rewrite Hy in Hk. }
    apply (IH Hin h1 Hsub1).
Qed.

Lemma own_entry_visited (h : heap) l c key v n :
  h !! l = Some c ->
  In (key, v) match c with
              | CArr _ => []
              | CObj entries | CProto _ entries => entries
              end ->
  In (key, v) (for_in_entriesH n h l).
Proof.
  intros Hl Hin. rewrite for_in_entriesH_eq, Hl.
  destruct c as [items|entries|proto entries]; [destruct Hin|exact Hin|].
  apply in_or_app. now left.
Qed.

Lemma cleanObjectH_self_member s h0 l :
  filterOutEmptyFields s = true -> contains_itself h0 l ->
  forall fuel h, h0 ⊆ h -> exists e, (cleanObjectH fuel s (HRef l) h).2 = Throw e.
Proof.
  intros Hon Hself. unfold contains_itself in Hself.
  destruct (h0 !! l) as [c|] eqn:Hl; [|contradiction].
  induction fuel as [|fuel IH]; intros h Hsub; [simpl; eauto|].
  pose proof (lookup_weaken _ _ _ _ Hl Hsub) as Hl'.
  simpl. rewrite Hon. simpl. unfold bind at 1, read. rewrite Hl'.
  assert (Hobject :
    In (HRef l) (List.map snd match c with
                              | CArr _ => []
                              | CObj entries | CProto _ entries => entries
                              end) ->
    exists e,
      (bind (alloc (CObj []))
         (fun newObj =>
            bind (for_inH l)
              (fun entries =>
                 bind (forH entries (loop_bodyH (cleanObjectH fuel s) newObj))
                   (fun _ => ret (HRef newObj)))) h).2 = Throw e).
  { intros Hmember.
    apply in_map_iff in Hmember as ([key v] & Hv & Hin). simpl in Hv. subst v.
    unfold bind at 1, alloc. simpl.
    set (n := fresh (dom h)).
    assert (Hn : h !! n = None) by apply fresh_lookup.
    assert (Hn0 : h0 !! n = None) by (eapply lookup_weaken_None; eassumption).
    assert (Hsub1 : h ⊆ <[n := CObj []]> h) by (now apply insert_subseteq).
    unfold bind at 1, for_inH. simpl.
    destruct (forH_throws h0 (loop_bodyH (cleanObjectH fuel s) n) (key, HRef l)
                (for_in_entriesH (size (<[n := CObj []]> h))
                   (<[n := CObj []]> h) l))
      with (h := <[n := CObj []]> h) as [e He].
    - apply (own_entry_visited _ l c); [|exact Hin].
      eapply lookup_weaken; eassumption.
    - intros y. apply keeps_loop_bodyH; [|exact Hn0].
      intros v. apply cleanObjectH_keeps.
    - intros h1 Hsub2. destruct (IH h1 Hsub2) as [e He]. exists e.
      unfold loop_bodyH. simpl. now apply bind_throws.
    - etransitivity; eassumption.
    - exists e. now apply bind_throws. }
  destruct c as [items|entries|proto entries];
    [|now apply Hobject|now apply Hobject].
  destruct (filterH_throws h0 (keep_itemH (cleanObjectH fuel s)) (HRef l)
              items Hself) with (h := h) as [e He]; try assumption.
  - intros y. apply keeps_keep_itemH. intros v. apply cleanObjectH_keeps.
  - intros h1 Hsub1. destruct (IH h1 Hsub1) as [e He]. exists e.
    unfold keep_itemH. simpl. now do 2 apply bind_throws.
  - exists e. now apply bind_throws.
Qed.

(** X5: with filtering on, the sanitizer never returns a result for an object
    or an array that holds itself as a member: the recursion of lines 57,
    62 and 75 has no test for a cycle, and whatever room the call stack
    has, the call ends by throwing. *)
Theorem cleanObjectH_self_member_overflows (s : settings) (h : heap) (l : loc)
  (fuel : nat) :
  filterOutEmptyFields s = true -> contains_itself h l ->
  exists e, (cleanObjectH fuel s (HRef l) h).2 = Throw e.
Proof.
  intros Hon Hself. now apply (cleanObjectH_self_member s h l Hon Hself).
Qed.

Lemma cleanObjectH_self_member_overflows_witness :
  exists e,
    (cleanObjectH 50 filtering (HRef 1%positive) ex_cyclic_heap).2 = Throw e.
Proof.
  apply (cleanObjectH_self_member_overflows filtering ex_cyclic_heap 1%positive 50).
  - reflexivity.
  - vm_compute. now left.
Defined.

Lemma mapR_throws_at {A B : Type} (f : A -> result B) x xs :
  In x xs -> (exists e, f x = Throw e) -> exists e, mapR f xs = Throw e.
Proof.
  intros Hin [e He]. induction xs as [|y ys IH]; [destruct Hin|].
  simpl. destruct (f y) as [b|e'] eqn:Hy; [|eauto].
  destruct Hin as [->|Hin]; [congruence|].
  destruct (IH Hin) as [e'' ->]. eauto.
Qed.

Lemma json_copy_self_member fuel h stack l :
  contains_itself h l -> exists e, json_copy fuel h stack (HRef l) = Throw e.
Proof.
  intros Hself. unfold contains_itself in Hself.
  assert (Hagain : forall fuel',
    json_copy fuel' h (l :: stack) (HRef l)
    = Throw (TypeError "Converting circular structure to JSON")).
  { intros fuel'. destruct fuel'; simpl; rewrite bool_decide_true; auto;
      apply elem_of_cons; now left. }
  destruct fuel as [|fuel]; simpl; destruct (bool_decide (l ∈ stack)); eauto.
  destruct (h !! l) as [[items|entries|proto entries]|]; [| | |eauto].
  1: { match goal with |- context [mapR ?f items] =>
         destruct (mapR_throws_at f (HRef l) items Hself) as [e ->] end; eauto.
       rewrite Hagain. eauto. }
  all: apply in_map_iff in Hself as (entry & Hv & Hin).
  all: match goal with |- context [mapR ?f ?members] =>
         destruct (mapR_throws_at f entry members Hin) as [e ->] end; eauto.
  all: rewrite Hv, Hagain; eauto.
Qed.

(** The copy throws a [TypeError] (a cycle) or a [RangeError] (no room),
    nothing else. *)
Lemma json_copy_exn fuel h : forall stack v e,
  json_copy fuel h stack v = Throw e ->
  (exists msg, e = TypeError msg) \/ (exists msg, e = RangeError msg).
Proof.
  induction fuel as [|fuel IH]; intros stack v e; destruct v; simpl;
    try discriminate; destruct (bool_decide _);
    try (intros [= <-]; eauto; fail).
  destruct (h !! l) as [[items|entries|proto entries]|];
    [| | |intros [= <-]; eauto].
  1: { destruct (mapR _ items) as [items'|e'] eqn:Hmap; [discriminate|].
       intros [= ->]. apply mapR_throw in Hmap as (item & _ & Hitem).
       destruct (json_copy fuel h (l :: stack) item) eqn:Hcopy; [discriminate|].
       injection Hitem as ->. eapply IH; eassumption. }
  all: destruct (mapR _ entries) as [members|e'] eqn:Hmap; [discriminate|].
  all: intros [= ->]; apply mapR_throw in Hmap as (entry & _ & Hentry).
  all: destruct (json_copy fuel h (l :: stack) (snd entry)) eqn:Hcopy;
         [discriminate|].
  all: injection Hentry as ->; eapply IH; eassumption.
Qed.

(** X6: while the debugger is enabled, a prompt structure that holds itself
    as a member cannot be copied: the deep copy of line 100 throws a
    [TypeError], and the reporter writes exactly one line, the error line
    that carries this [TypeError]; no group is opened and nothing of the
    structure is logged, whatever the other settings are. *)
Theorem self_containing_structure_reported
  (ToString : heap -> hvalue -> string) (s : settings) (now : string)
  (h : heap) (l : loc) (chatId : hvalue) :
  enabled s = true -> contains_itself h l ->
  exists msg,
    JSON_roundtrip h (HRef l) = Throw (TypeError msg)
    /\ logPromptStruct ToString s now h (HRef l) chatId
       = ([error_line (TypeError msg)], Ok tt).
Proof.
  intros Hen Hself.
  destruct (json_copy_self_member (S (size h)) h [] l Hself) as [e He].
  assert (Hcopy : JSON_roundtrip h (HRef l) = Throw e).
  { unfold JSON_roundtrip. now rewrite He. }
  destruct (json_copy_exn _ _ _ _ _ He) as [[msg ->]|[msg ->]].
  - exists msg. split; [exact Hcopy|].
    now apply logPromptStruct_copy_fails.
  - now destruct (JSON_roundtrip_has_room h (HRef l) msg).
Qed.

Lemma self_containing_structure_reported_witness :
  exists msg,
    JSON_roundtrip ex_cyclic_heap (HRef 1%positive) = Throw (TypeError msg)
    /\ logPromptStruct ex_ToString verbose_settings "2026-01-01T00:00:00.000Z"
         ex_cyclic_heap (HRef 1%positive) (HStr "c1")
       = ([error_line (TypeError msg)], Ok tt).
Proof.
  apply (self_containing_structure_reported ex_ToString verbose_settings
           "2026-01-01T00:00:00.000Z" ex_cyclic_heap 1%positive (HStr "c1")).
  - reflexivity.
  - vm_compute. now left.
Defined.

(** * The nesting of the console groups *)

Lemma obc_lift {A : Type} (r : result A) : opens_before_closing (liftW r).
Proof. intros d. simpl. split; [lia|reflexivity]. Qed.

Lemma obc_ret {A : Type} (a : A) : opens_before_closing (retW a).
Proof. intros d. simpl. split; [lia|reflexivity]. Qed.

Lemma obc_log args : opens_before_closing (emit (CLog args)).
Proof. intros d. simpl. split; [lia|reflexivity]. Qed.

Lemma obc_bind {A B : Type} (m : W A) (k : A -> W B) :
  opens_before_closing m -> (forall a, opens_before_closing (k a)) ->
  opens_before_closing (bindW m k).
Proof.
  destruct m as [out [a|e]]; intros Hm Hk d; unfold bindW.
  - destruct (Hm d) as [_ Hbal]. specialize (Hbal a eq_refl). simpl in Hbal.
    specialize (Hk a d). destruct (k a) as [out' r]. simpl in *.
    now rewrite depth_after_app, Hbal.
  - split; [apply Hm|discriminate].
Qed.

(** A group around lines that open before closing. *)
Lemma obc_group args (inner : W unit) :
  opens_before_closing inner ->
  opens_before_closing
    (bindW (emit (CGroup args)) (fun _ => bindW inner (fun _ => emit CGroupEnd))).
Proof.
  intros Hin d. destruct (Hin (S d)) as [Hle Hbal].
  destruct inner as [out [[]|e]]; simpl in *.
  - rewrite depth_after_app, (Hbal tt eq_refl). simpl. split; [lia|reflexivity].
  - split; [lia|discriminate].
Qed.

Lemma obc_forW {A : Type} (xs : list A) (body : A -> W unit) :
  (forall x, opens_before_closing (body x)) ->
  opens_before_closing (forW xs body).
Proof.
  intros Hbody. induction xs as [|x xs IH]; simpl; [apply obc_ret|].
  apply obc_bind; auto.
Qed.

Lemma obc_log_path label c path : opens_before_closing (log_path label c path).
Proof.
  unfold log_path. apply obc_bind; [apply obc_lift|]. intros v. apply obc_log.
Qed.

Lemma obc_log_fields c path : opens_before_closing (log_fields c path).
Proof.
  unfold log_fields. repeat (apply obc_bind; [apply obc_log_path|intros _]).
  apply obc_log_path.
Qed.

Lemma obc_report_section c key label style :
  opens_before_closing (report_section c key label style).
Proof.
  unfold report_section. apply obc_bind; [apply obc_lift|]. intros sec.
  destruct (truthy sec); [|apply obc_ret].
  apply obc_group, obc_log_fields.
Qed.

Lemma obc_report_keyed c key label style id_label :
  opens_before_closing (report_keyed c key label style id_label).
Proof.
  unfold report_keyed. destruct (get_prop c key) as [sec|e];
    [|apply obc_bind; [apply obc_lift|intros sec; apply obc_bind;
        [apply obc_lift|intros keys]]; destruct (0 <? _)%nat; [|apply obc_ret];
      intros d; simpl; split; [lia|discriminate]].
  rewrite bindW_liftW_ok. apply obc_bind; [apply obc_lift|]. intros keys.
  destruct (0 <? _)%nat; [|apply obc_ret].
  rewrite bindW_liftW_ok.
  apply obc_group, obc_forW. intros id.
  apply obc_group, obc_log_fields.
Qed.

Lemma obc_report_chat_log c : opens_before_closing (report_chat_log c).
Proof.
  unfold report_chat_log. apply obc_bind; [apply obc_lift|]. intros sec.
  destruct (truthy sec); [|apply obc_ret].
  apply obc_group, obc_log_path.
Qed.

Lemma obc_report_verbose c : opens_before_closing (report_verbose c).
Proof.
  unfold report_verbose.
  repeat (apply obc_bind;
          [first [apply obc_report_section|apply obc_report_keyed]|intros _]).
  apply obc_report_chat_log.
Qed.

Lemma obc_logPromptStruct_body ToString s now h promptStruct chatId :
  opens_before_closing (logPromptStruct_body ToString s now h promptStruct chatId).
Proof.
  unfold logPromptStruct_body. destruct (enabled s); [|apply obc_ret].
  cbn [negb]. apply obc_bind; [apply obc_lift|]. intros copy.
  match goal with
  | |- opens_before_closing (bindW (emit (CGroup ?args)) (fun _ =>
         bindW ?l1 (fun _ => bindW ?l2 (fun _ => bindW ?v (fun _ => emit CGroupEnd))))) =>
      assert (Hin : opens_before_closing
                      (bindW l1 (fun _ => bindW l2 (fun _ => v))))
  end.
  { repeat (apply obc_bind; [apply obc_log|intros _]).
    destruct (verboseLogging s); [apply obc_report_verbose|apply obc_ret]. }
  apply (obc_group
           [Arg (VStr ("%cPrompt Structure (Chat ID: " ++ ToString h chatId ++ ")"));
            Arg (VStr "color: #4CAF50; font-weight: bold; font-size: 16px;")])
    in Hin.
  rewrite !bindW_emit in *. 
  destruct (if verboseLogging s then _ else _) as [out [[]|e]]; exact Hin.
Qed.

(** X7: the groups of a report.  When the body of [logPromptStruct] ends
    normally, the lines written are those of the body and they close every
    group they opened: the nesting of the console is as it was.  When the
    body throws after the deep copy succeeded, the lines are those written
    before the failure followed by the error line, and the console is left
    nested deeper than it was: [console.groupEnd()] of line 172 is not
    reached, and the [catch] closes no group. *)
Theorem report_nesting (ToString : heap -> hvalue -> string) (s : settings)
  (now : string) (h : heap) (promptStruct chatId : hvalue) (d : nat) :
  let body := logPromptStruct_body ToString s now h promptStruct chatId in
  let out := (logPromptStruct ToString s now h promptStruct chatId).1 in
  (body.2 = Ok tt -> out = body.1 /\ depth_after d out = d)
  /\ (forall e copy,
        body.2 = Throw e -> JSON_roundtrip h promptStruct = Ok copy ->
        out = body.1 ++ [error_line e] /\ d < depth_after d out).
Proof.
  intros body out.
  pose proof (obc_logPromptStruct_body ToString s now h promptStruct chatId)
    as Hbody. fold body in Hbody.
  split.
  - intros Hok. destruct (Hbody d) as [_ Hbal].
    assert (Hout : out = body.1).
    { unfold out, logPromptStruct, try_catch. fold body.
      destruct body as [lines r]. simpl in Hok. now subst r. }
    split; [exact Hout|]. rewrite Hout. apply (Hbal tt Hok).
  - intros e copy Hthrow Hcopy.
    assert (Hout : out = body.1 ++ [error_line e]).
    { now apply logPromptStruct_catches. }
    split; [exact Hout|]. rewrite Hout, depth_after_app. simpl.
    revert Hthrow. unfold body, logPromptStruct_body.
    destruct (enabled s); [|discriminate]. cbn [negb].
    rewrite Hcopy, bindW_liftW_ok, !bindW_emit.
    assert (Hverbose :
      opens_before_closing
        (if verboseLogging s then report_verbose (cleanObject s copy)
         else retW tt)).
    { destruct (verboseLogging s); [apply obc_report_verbose|apply obc_ret]. }
    destruct (Hverbose (S d)) as [Hle _].
    destruct (if verboseLogging s then _ else _) as [lines [[]|e']];
      simpl in *; [discriminate|]. intros _. lia.
Qed.

Lemma report_nesting_witness :
  (logPromptStruct ex_ToString verbose_unfiltered_settings
     "2026-01-01T00:00:00.000Z" ex_null_member_heap (HRef 1%positive)
     (HStr "c1")).1
  = (logPromptStruct_body ex_ToString verbose_unfiltered_settings
       "2026-01-01T00:00:00.000Z" ex_null_member_heap (HRef 1%positive)
       (HStr "c1")).1
    ++ [error_line
          (TypeError "Cannot read properties of null or undefined, reading text")]
  /\ 0 < depth_after 0
           (logPromptStruct ex_ToString verbose_unfiltered_settings
              "2026-01-01T00:00:00.000Z" ex_null_member_heap (HRef 1%positive)
              (HStr "c1")).1.
Proof.
  destruct (report_nesting ex_ToString verbose_unfiltered_settings
              "2026-01-01T00:00:00.000Z" ex_null_member_heap (HRef 1%positive)
              (HStr "c1") 0) as [_ H].
  apply (H (TypeError "Cannot read properties of null or undefined, reading text")
           (VObj [("other_chars_prompt", VObj [("a", VNull)]);
                  ("chat_log", VArr [VStr "hi"])])).
  - vm_compute. reflexivity.
  - vm_compute. reflexivity.
Defined.

(** * Filtering protects the verbose part *)




(** * The listener *)

(** What the listener writes, case by case. *)
Lemma on_prompt_ready_run (ToString : heap -> hvalue -> string) (s : settings)
  (now : string) (h : heap) (payload : hvalue) :
  let run := on_prompt_ready ToString s now h payload in
  run.2 = Ok tt
  /\ (enabled s = false -> run.1 = [])
  /\ (enabled s = true ->
      match get_propH h payload "prompt_struct" with
      | Throw e => run.1 = [processing_error_line e]
      | Ok prompt_struct =>
          if truthyH prompt_struct then
            exists chat_id,
              get_propH h payload "chat_id" = Ok chat_id
              /\ run.1
                 = capture_line ToString h chat_id
                   :: (logPromptStruct ToString s now h prompt_struct chat_id).1
          else run.1 = [warning_line]
      end).
Proof.
  intros run. unfold run, on_prompt_ready.
  destruct (enabled s); cbn [negb]; [|repeat split; discriminate].
  destruct (get_propH h payload "prompt_struct") as [prompt_struct|e] eqn:Hps.
  - destruct (get_propH_any_key h payload _ "chat_id" _ Hps) as [chat_id Hid].
    rewrite Hid, !bindW_liftW_ok.
    destruct (truthyH prompt_struct).
    + rewrite bindW_emit.
      pose proof (logPromptStruct_returns ToString s now h prompt_struct chat_id)
        as Hret.
      split; [|split; [discriminate|intros _; exists chat_id;
                                     split; [reflexivity|]]];
        destruct (logPromptStruct ToString s now h prompt_struct chat_id)
          as [out r]; simpl in Hret; subst r; reflexivity.
    + simpl. repeat split; discriminate.
  - simpl. repeat split; discriminate.
Qed.

(** X10: the listener of lines 185-203, case by case.  It returns normally for
    every setting, heap and payload.  Disabled, it writes nothing.
    Enabled: when the prompt structure cannot be read off the payload (a
    payload that is [null] or [undefined]) it writes one line, the error of
    line 201 with the exception; when the prompt structure is falsy
    (missing, [null], [0], the empty string, [false]) it writes one line,
    the warning; otherwise it writes the capture line followed by exactly
    what [logPromptStruct] writes, so that a failure of the report never
    shows as the error of line 201. *)
Theorem listener_cases (ToString : heap -> hvalue -> string) (s : settings)
  (now : string) (h : heap) (payload : hvalue) :
  let run := on_prompt_ready ToString s now h payload in
  run.2 = Ok tt
  /\ (enabled s = false -> run.1 = [])
  /\ (enabled s = true ->
      match get_propH h payload "prompt_struct" with
      | Throw e => run.1 = [processing_error_line e]
      | Ok prompt_struct =>
          if truthyH prompt_struct then
            exists chat_id,
              get_propH h payload "chat_id" = Ok chat_id
              /\ run.1
                 = capture_line ToString h chat_id
                   :: (logPromptStruct ToString s now h prompt_struct chat_id).1
          else run.1 = [warning_line]
      end).
Proof. apply on_prompt_ready_run. Qed.

Lemma on_prompt_ready_summary ToString s now h payload prompt_struct chat_id copy :
  enabled s = true -> verboseLogging s = false ->
  get_propH h payload "prompt_struct" = Ok prompt_struct ->
  truthyH prompt_struct = true ->
  get_propH h payload "chat_id" = Ok chat_id ->
  JSON_roundtrip h prompt_struct = Ok copy ->
  on_prompt_ready ToString s now h payload
  = (capture_line ToString h chat_id
       :: summary_report ToString s now h chat_id copy, Ok tt).
Proof.
  intros Hen Hverb Hps Htruthy Hid Hcopy. unfold on_prompt_ready.
  rewrite Hen, Hps, Hid. cbn [negb].
  rewrite !bindW_liftW_ok, Htruthy, bindW_emit.
  now rewrite (logPromptStruct_summary ToString s now h prompt_struct chat_id
                 copy Hen Hverb Hcopy).
Qed.

(** * The settings and the controls *)

Lemma cleanObject_off s x : filterOutEmptyFields s = false -> cleanObject s x = x.
Proof. intros Hoff. destruct x; simpl; now rewrite Hoff. Qed.

Lemma loadSettings_entry es :
  (loadSettings es).1 !! extensionName
  = Some (match es !! extensionName with
          | Some (e :: o) => e :: o
          | _ => defaultSettings_object
          end).
Proof.
  unfold loadSettings. cbn [fst]. rewrite lookup_insert_eq.
  now destruct (es !! extensionName) as [[|e o]|].
Qed.

(** X11: after [loadSettings] the extension has a settings object: the saved
    one, unchanged, when it has at least one key; the defaults of lines
    8-14, in their order, when nothing was saved or the saved object is
    empty.  The core reads the defaults as: enabled, not verbose, filtering
    on.  The settings of the other extensions are not touched. *)
Theorem loadSettings_defaults_when_nothing_saved (es : extension_settings) :
  (loadSettings es).1 !! extensionName
  = Some (match es !! extensionName with
          | Some (e :: o) => e :: o
          | _ => defaultSettings_object
          end)
  /\ settings_of defaultSettings_object = defaultSettings
  /\ forall name,
       name <> extensionName -> (loadSettings es).1 !! name = es !! name.
Proof.
  split; [apply loadSettings_entry|]. split; [reflexivity|].
  intros name Hname. unfold loadSettings. cbn [fst].
  apply lookup_insert_ne. congruence.
Qed.

(** X12: saved settings are not completed with the defaults.  When the saved
    object has at least one key, [loadSettings] leaves the settings of the
    host as they are; a key that is missing stays missing, and when it is
    [enabled] the debugger is off: the listener writes nothing, whatever
    the payload. *)
Theorem saved_settings_are_not_completed (ToString : heap -> hvalue -> string)
  (es : extension_settings) (o : list (string * value)) :
  es !! extensionName = Some o -> o <> [] ->
  (loadSettings es).1 = es
  /\ (obj_get o "enabled" = None ->
      forall now h payload,
        prompt_ready_listener ToString (loadSettings es).1 now h payload
        = ([], Ok tt)).
Proof.
  intros Hsaved Hne.
  assert (Hsame : (loadSettings es).1 = es).
  { unfold loadSettings. cbn [fst]. rewrite Hsaved. cbn [default].
    destruct o as [|e o]; [congruence|]. cbn. now apply insert_id. }
  split; [exact Hsame|]. intros Hmissing now h payload.
  rewrite Hsame. unfold prompt_ready_listener. rewrite Hsaved.
  unfold on_prompt_ready, settings_of, setting. cbn [enabled].
  now rewrite Hmissing.
Qed.

Lemma saved_settings_are_not_completed_witness :
  (loadSettings ex_partial_settings).1 = ex_partial_settings
  /\ forall now h payload,
       prompt_ready_listener ex_ToString (loadSettings ex_partial_settings).1
         now h payload
       = ([], Ok tt).
Proof.
  destruct (saved_settings_are_not_completed ex_ToString ex_partial_settings
              [("verboseLogging", VBool true)]) as [Hsame Hsilent].
  - vm_compute. reflexivity.
  - discriminate.
  - split; [exact Hsame|]. apply Hsilent. reflexivity.
Defined.

(** X13: loading the settings a second time changes nothing: the settings are
    those of the first load, and the three checkboxes are set to the same
    values. *)
Theorem loadSettings_idempotent (es : extension_settings) :
  loadSettings (loadSettings es).1 = loadSettings es.
Proof.
  pose proof (loadSettings_entry es) as Hentry.
  unfold loadSettings at 1. rewrite Hentry. cbn [default].
  unfold loadSettings. cbn [fst].
  destruct (es !! extensionName) as [[|e o]|]; cbn;
    now rewrite insert_insert_eq.
Qed.

Section controls.

Variable checked : value.
Variable es : extension_settings.
Variable o : list (string * value).
Hypothesis loaded : es !! extensionName = Some o.

Lemma setting_changed_run key message :
  setting_changed key message checked es
  = (<[extensionName := obj_set o key checked]> es,
     ([SaveSettingsDebounced;
       Console (CLog [Arg (VStr (message
                                 ++ if truthy checked then "enabled"
                                    else "disabled"))])],
      Ok tt)).
Proof.
  unfold setting_changed, setting. rewrite loaded.
  now rewrite obj_get_set_eq.
Qed.

Lemma setting_set_eq key : setting (obj_set o key checked) key = checked.
Proof. unfold setting. now rewrite obj_get_set_eq. Qed.

Lemma setting_set_ne key key' :
  key' <> key -> setting (obj_set o key checked) key' = setting o key'.
Proof. intros Hne. unfold setting. now rewrite obj_get_set_ne. Qed.

End controls.

(** X14: each of the three handlers of lines 214-236, run on loaded settings,
    assigns its own key and no other: of the settings as the core reads
    them only the flag of the control changes, to the truth value of the
    checkbox; the settings of the other extensions stay; one save is
    requested, and then one line is logged, which ends in [enabled] or
    [disabled] by that truth value. *)
Theorem control_sets_its_flag (checked : value) (es : extension_settings)
  (o : list (string * value)) :
  es !! extensionName = Some o ->
  let s := settings_of o in
  let status := if truthy checked then "enabled" else "disabled" in
  (exists o1,
     onEnabledChanged checked es
     = (<[extensionName := o1]> es,
        ([SaveSettingsDebounced;
          Console (CLog [Arg (VStr ("Prompt Debugger: " ++ status))])], Ok tt))
     /\ settings_of o1
        = {| enabled := truthy checked;
             verboseLogging := verboseLogging s;
             logToFile := logToFile s;
             logFilePath := logFilePath s;
             filterOutEmptyFields := filterOutEmptyFields s |})
  /\ (exists o2,
        onVerboseLoggingChanged checked es
        = (<[extensionName := o2]> es,
           ([SaveSettingsDebounced;
             Console (CLog [Arg (VStr ("Prompt Debugger: Verbose logging "
                                       ++ status))])], Ok tt))
        /\ settings_of o2
           = {| enabled := enabled s;
                verboseLogging := truthy checked;
                logToFile := logToFile s;
                logFilePath := logFilePath s;
                filterOutEmptyFields := filterOutEmptyFields s |})
  /\ (exists o3,
        onFilterEmptyChanged checked es
        = (<[extensionName := o3]> es,
           ([SaveSettingsDebounced;
             Console (CLog [Arg (VStr ("Prompt Debugger: Filtering empty fields "
                                       ++ status))])], Ok tt))
        /\ settings_of o3
           = {| enabled := enabled s;
                verboseLogging := verboseLogging s;
                logToFile := logToFile s;
                logFilePath := logFilePath s;
                filterOutEmptyFields := truthy checked |}).
Proof.
  intros Hloaded s status.
  split; [|split]; eexists;
    (split; [apply (setting_changed_run checked es o Hloaded)|]);
    unfold s, settings_of;
    rewrite ?(setting_set_eq checked o),
      ?(setting_set_ne checked o) by discriminate;
    reflexivity.
Qed.

Lemma control_sets_its_flag_witness :
  exists o1,
    onEnabledChanged (VBool false) ex_loaded_settings
    = (<[extensionName := o1]> ex_loaded_settings,
       ([SaveSettingsDebounced;
         Console (CLog [Arg (VStr "Prompt Debugger: disabled")])], Ok tt))
    /\ settings_of o1
       = {| enabled := false; verboseLogging := false; logToFile := false;
            logFilePath := ""; filterOutEmptyFields := true |}.
Proof.
  destruct (control_sets_its_flag (VBool false) ex_loaded_settings
              defaultSettings_object) as [H _].
  - vm_compute. reflexivity.
  - exact H.
Defined.

(** X15: a change made through a control survives a reload: [loadSettings]
    after one of the three handlers leaves the settings as the handler left
    them, with no default put back, and sets the checkbox of that control
    to the value the handler read from it. *)
Theorem changed_settings_survive_reload (checked : value)
  (es : extension_settings) (o : list (string * value)) :
  es !! extensionName = Some o ->
  (let es' := (onEnabledChanged checked es).1 in
   (loadSettings es').1 = es'
   /\ In (SetChecked "#prompt_debugger_enabled" checked) (loadSettings es').2)
  /\ (let es' := (onVerboseLoggingChanged checked es).1 in
      (loadSettings es').1 = es'
      /\ In (SetChecked "#prompt_debugger_verbose" checked) (loadSettings es').2)
  /\ (let es' := (onFilterEmptyChanged checked es).1 in
      (loadSettings es').1 = es'
      /\ In (SetChecked "#prompt_debugger_filter_empty" checked)
           (loadSettings es').2).
Proof.
  intros Hloaded.
  assert (Hkey : forall key message,
    let es' := (setting_changed key message checked es).1 in
    (loadSettings es').1 = es'
    /\ (loadSettings es').2
       = [SetChecked "#prompt_debugger_enabled"
            (setting (obj_set o key checked) "enabled");
          SetChecked "#prompt_debugger_verbose"
            (setting (obj_set o key checked) "verboseLogging");
          SetChecked "#prompt_debugger_filter_empty"
            (setting (obj_set o key checked) "filterOutEmptyFields")]).
  { intros key message.
    rewrite (setting_changed_run checked es o Hloaded). cbn [fst].
    unfold loadSettings. rewrite lookup_insert_eq. cbn [default fst snd].
    destruct (obj_set o key checked) as [|e o'] eqn:Hset.
    - now destruct (obj_set_not_empty o key checked).
    - cbn. split; [|reflexivity]. now rewrite insert_insert_eq. }
  unfold onEnabledChanged, onVerboseLoggingChanged, onFilterEmptyChanged.
  repeat split; try apply Hkey;
    match goal with
    | |- In _ (loadSettings (setting_changed ?key ?message _ _).1).2 =>
        destruct (Hkey key message) as [_ ->];
        rewrite (setting_set_eq checked o); simpl; tauto
    end.
Qed.

Lemma changed_settings_survive_reload_witness :
  (loadSettings (onEnabledChanged (VBool false) ex_loaded_settings).1).1
  = (onEnabledChanged (VBool false) ex_loaded_settings).1
  /\ In (SetChecked "#prompt_debugger_enabled" (VBool false))
       (loadSettings (onEnabledChanged (VBool false) ex_loaded_settings).1).2.
Proof.
  destruct (changed_settings_survive_reload (VBool false) ex_loaded_settings
              defaultSettings_object) as [H _].
  - vm_compute. reflexivity.
  - exact H.
Defined.

(** X16: the Enable control takes effect at the next event: after
    [onEnabledChanged], the listener writes nothing if and only if the box
    was unchecked; with the box checked every payload gets at least one
    line. *)
Theorem enable_control_takes_effect (ToString : heap -> hvalue -> string)
  (checked : value) (es : extension_settings) (o : list (string * value))
  (now : string) (h : heap) (payload : hvalue) :
  es !! extensionName = Some o ->
  (prompt_ready_listener ToString (onEnabledChanged checked es).1 now h
     payload).1 = []
  <-> truthy checked = false.
Proof.
  intros Hloaded. unfold onEnabledChanged.
  rewrite (setting_changed_run checked es o Hloaded). cbn [fst].
  unfold prompt_ready_listener. rewrite lookup_insert_eq.
  destruct (on_prompt_ready_run ToString
              (settings_of (obj_set o "enabled" checked)) now h payload)
    as (_ & Hoff & Hon).
  assert (Hflag : enabled (settings_of (obj_set o "enabled" checked))
                  = truthy checked).
  { unfold settings_of. cbn [enabled]. now rewrite (setting_set_eq checked o). }
  rewrite Hflag in Hoff, Hon.
  destruct (truthy checked); split; auto; try discriminate.
  intros Hsilent. specialize (Hon eq_refl). rewrite Hsilent in Hon.
  destruct (get_propH h payload "prompt_struct") as [prompt_struct|e];
    [|discriminate].
  destruct (truthyH prompt_struct); [|discriminate].
  destruct Hon as (chat_id & _ & Hon). discriminate.
Qed.

Lemma enable_control_takes_effect_witness :
  (prompt_ready_listener ex_ToString
     (onEnabledChanged (VBool false) ex_loaded_settings).1
     "2026-01-01T00:00:00.000Z" ex_payload_heap (HRef 1%positive)).1 = []
  <-> truthy (VBool false) = false.
Proof.
  apply (enable_control_takes_effect ex_ToString (VBool false)
           ex_loaded_settings defaultSettings_object).
  vm_compute. reflexivity.
Defined.

(** X17: the first run.  With nothing saved (no settings object, or an empty
    one), after [loadSettings] a prompt event whose prompt structure is
    truthy and can be copied is reported in exactly five lines: the capture
    line, the top-level group, the time stamp, the whole structure
    sanitized as by [clean(copy, true)], and the end of the group; no
    section group is opened, the defaults being: enabled, not verbose,
    filtering on. *)
Theorem first_run_reports_summary (ToString : heap -> hvalue -> string)
  (es : extension_settings) (now : string) (h : heap)
  (payload prompt_struct chat_id : hvalue) (copy : value) :
  es !! extensionName = None \/ es !! extensionName = Some [] ->
  get_propH h payload "prompt_struct" = Ok prompt_struct ->
  truthyH prompt_struct = true ->
  get_propH h payload "chat_id" = Ok chat_id ->
  JSON_roundtrip h prompt_struct = Ok copy ->
  prompt_ready_listener ToString (loadSettings es).1 now h payload
  = ([capture_line ToString h chat_id;
      CGroup
        [Arg (VStr ("%cPrompt Structure (Chat ID: "
                    ++ ToString h chat_id ++ ")"));
         Arg (VStr "color: #4CAF50; font-weight: bold; font-size: 16px;")];
      CLog [Arg (VStr ("%cTimestamp: " ++ now)); Arg (VStr "color: #999999;")];
      CLog [Arg (VStr "Full Prompt Structure:"); Arg (clean copy true)];
      CGroupEnd], Ok tt).
Proof.
  intros Hnew Hps Htruthy Hid Hcopy.
  unfold prompt_ready_listener. rewrite loadSettings_entry.
  assert (Hdefaults :
    match es !! extensionName with
    | Some (e :: o) => e :: o
    | _ => defaultSettings_object
    end = defaultSettings_object).
  { now destruct Hnew as [-> | ->]. }
  rewrite Hdefaults.
  change (settings_of defaultSettings_object) with defaultSettings.
  now rewrite (on_prompt_ready_summary ToString defaultSettings now h payload
                 prompt_struct chat_id copy).
Qed.

Lemma first_run_reports_summary_witness :
  prompt_ready_listener ex_ToString (loadSettings ∅).1
    "2026-01-01T00:00:00.000Z" ex_payload_heap (HRef 1%positive)
  = ([capture_line ex_ToString ex_payload_heap (HStr "c1");
      CGroup
        [Arg (VStr "%cPrompt Structure (Chat ID: c1)");
         Arg (VStr "color: #4CAF50; font-weight: bold; font-size: 16px;")];
      CLog [Arg (VStr "%cTimestamp: 2026-01-01T00:00:00.000Z");
            Arg (VStr "color: #999999;")];
      CLog [Arg (VStr "Full Prompt Structure:");
            Arg (VObj [("char_prompt", VObj [("text", VArr [VStr "hi"])])])];
      CGroupEnd], Ok tt).
Proof.
  apply (first_run_reports_summary ex_ToString ∅ "2026-01-01T00:00:00.000Z"
           ex_payload_heap (HRef 1%positive) (HRef 2%positive) (HStr "c1")
           (VObj [("char_prompt", VObj [("text", VArr [VStr "hi"])]);
                  ("note", VStr "")])).
  - left. reflexivity.
  - vm_compute. reflexivity.
  - reflexivity.
  - vm_compute. reflexivity.
  - vm_compute. reflexivity.
Defined.

(** X18: the listener and the three handlers need the settings object.  The
    listener returns normally if and only if the extension has one: without
    it the test of line 186, which is outside the [try], throws, and the
    exception reaches the host.  The same holds of each handler, whose
    assignment nothing guards.  [loadSettings] always leaves a settings
    object behind. *)
Theorem settings_object_required (ToString : heap -> hvalue -> string)
  (es : extension_settings) (now : string) (h : heap) (payload : hvalue)
  (checked : value) :
  ((prompt_ready_listener ToString es now h payload).2 = Ok tt
   <-> is_Some (es !! extensionName))
  /\ ((onEnabledChanged checked es).2.2 = Ok tt
      <-> is_Some (es !! extensionName))
  /\ ((onVerboseLoggingChanged checked es).2.2 = Ok tt
      <-> is_Some (es !! extensionName))
  /\ ((onFilterEmptyChanged checked es).2.2 = Ok tt
      <-> is_Some (es !! extensionName))
  /\ is_Some ((loadSettings es).1 !! extensionName).
Proof.
  unfold onEnabledChanged, onVerboseLoggingChanged, onFilterEmptyChanged,
    setting_changed, prompt_ready_listener.
  rewrite loadSettings_entry.
  destruct (es !! extensionName) as [o|].
  - destruct (on_prompt_ready_run ToString (settings_of o) now h payload)
      as [Hok _].
    repeat split; eauto.
  - repeat split; eauto; try discriminate; intros [o Ho]; discriminate.
Qed.

(** * A session *)

Lemma deliver_keeps_settings ToString es event :
  is_Some (es !! extensionName) ->
  (deliver ToString es event).2.2 = Ok tt
  /\ is_Some ((deliver ToString es event).1 !! extensionName)
  /\ forall name,
       name <> extensionName ->
       (deliver ToString es event).1 !! name = es !! name.
Proof.
  intros [o Ho].
  assert (Hchanged : forall key message checked,
    (setting_changed key message checked es).2.2 = Ok tt
    /\ is_Some ((setting_changed key message checked es).1 !! extensionName)
    /\ forall name,
         name <> extensionName ->
         (setting_changed key message checked es).1 !! name = es !! name).
  { intros key message checked.
    rewrite (setting_changed_run checked es o Ho). cbn [fst snd].
    rewrite lookup_insert_eq. repeat split; eauto.
    intros name Hname. apply lookup_insert_ne. congruence. }
  destruct event as [now h payload|checked|checked|checked]; simpl;
    try apply Hchanged.
  unfold prompt_ready_listener. rewrite Ho.
  destruct (on_prompt_ready_run ToString (settings_of o) now h payload)
    as [Hok _].
  repeat split; eauto.
Qed.

(** X19: once [loadSettings] has run, no event of a session makes a callback
    throw: for every sequence of prompt events and of changes of the three
    checkboxes, delivered to the listener and to the handlers, every
    callback returns normally; the extension still has its settings object
    at the end, and the settings of the other extensions are as they were
    before [loadSettings]. *)
Theorem no_event_throws_once_loaded (ToString : heap -> hvalue -> string)
  (es : extension_settings) (events : list host_event) :
  let session := deliver_all ToString (loadSettings es).1 events in
  Forall (fun outcome => outcome = Ok tt) session.2
  /\ is_Some (session.1 !! extensionName)
  /\ forall name, name <> extensionName -> session.1 !! name = es !! name.
Proof.
  assert (Hall : forall events es0,
    is_Some (es0 !! extensionName) ->
    Forall (fun outcome => outcome = Ok tt) (deliver_all ToString es0 events).2
    /\ is_Some ((deliver_all ToString es0 events).1 !! extensionName)
    /\ forall name,
         name <> extensionName ->
         (deliver_all ToString es0 events).1 !! name = es0 !! name).
  { clear. induction events as [|event rest IH]; intros es0 Hsome; simpl.
    - repeat split; auto.
    - destruct (deliver_keeps_settings ToString es0 event Hsome)
        as (Hok & Hsome' & Hframe).
      destruct (deliver ToString es0 event) as [es' run]. simpl in *.
      destruct (IH es' Hsome') as (Hrest & Hfinal & Hframe').
      destruct (deliver_all ToString es' rest) as [final outcomes]. simpl in *.
      repeat split; auto.
      intros name Hname. now rewrite Hframe', Hframe. }
  intros session.
  destruct (Hall events (loadSettings es).1) as (Hok & Hsome & Hframe).
  { rewrite loadSettings_entry. eauto. }
  repeat split; auto. intros name Hname. fold session in Hframe.
  rewrite (Hframe name Hname). unfold loadSettings. cbn [fst].
  apply lookup_insert_ne. congruence.
Qed.

(** X9: once the deep copy succeeded, the report begins with the top-level
    group, the time stamp and the line that carries the whole sanitized
    copy, also when the verbose part fails later on.  The structure logged
    is well formed; with filtering on nothing is left to prune in it, with
    filtering off it is the copy itself. *)
Theorem report_begins_with_full_structure
  (ToString : heap -> hvalue -> string) (s : settings) (now : string)
  (h : heap) (promptStruct chatId : hvalue) (copy : value) :
  enabled s = true -> JSON_roundtrip h promptStruct = Ok copy ->
  (exists rest,
     (logPromptStruct ToString s now h promptStruct chatId).1
     = CGroup
         [Arg (VStr ("%cPrompt Structure (Chat ID: "
                     ++ ToString h chatId ++ ")"));
          Arg (VStr "color: #4CAF50; font-weight: bold; font-size: 16px;")]
       :: CLog [Arg (VStr ("%cTimestamp: " ++ now)); Arg (VStr "color: #999999;")]
       :: CLog [Arg (VStr "Full Prompt Structure:"); Arg (cleanObject s copy)]
       :: rest)
  /\ valid (cleanObject s copy) = true
  /\ (filterOutEmptyFields s = true -> pruned (cleanObject s copy) = true)
  /\ (filterOutEmptyFields s = false -> cleanObject s copy = copy).
Proof.
  intros Hen Hcopy. split; [|split; [|split]].
  - unfold logPromptStruct, logPromptStruct_body. rewrite Hen, Hcopy.
    cbn [negb]. rewrite bindW_liftW_ok, !bindW_emit.
    destruct (if verboseLogging s then _ else _) as [lines [[]|e]];
      simpl; eauto.
  - destruct (filterOutEmptyFields s) eqn:Hflag.
    + now apply valid_cleanObject.
    + rewrite (cleanObject_off s copy Hflag).
      now apply (JSON_roundtrip_valid h promptStruct).
  - intros Hon. now apply pruned_cleanObject.
  - apply cleanObject_off.
Qed.

Lemma report_begins_with_full_structure_witness :
  (exists rest,
     (logPromptStruct ex_ToString verbose_unfiltered_settings
        "2026-01-01T00:00:00.000Z" ex_null_member_heap (HRef 1%positive)
        (HStr "c1")).1
     = CGroup
         [Arg (VStr "%cPrompt Structure (Chat ID: c1)");
          Arg (VStr "color: #4CAF50; font-weight: bold; font-size: 16px;")]
       :: CLog [Arg (VStr "%cTimestamp: 2026-01-01T00:00:00.000Z");
                Arg (VStr "color: #999999;")]
       :: CLog [Arg (VStr "Full Prompt Structure:");
                Arg (cleanObject verbose_unfiltered_settings
                       (VObj [("other_chars_prompt", VObj [("a", VNull)]);
                              ("chat_log", VArr [VStr "hi"])]))]
       :: rest)
  /\ valid
       (cleanObject verbose_unfiltered_settings
          (VObj [("other_chars_prompt", VObj [("a", VNull)]);
                 ("chat_log", VArr [VStr "hi"])])) = true.
Proof.
  destruct (report_begins_with_full_structure ex_ToString
              verbose_unfiltered_settings "2026-01-01T00:00:00.000Z"
              ex_null_member_heap (HRef 1%positive) (HStr "c1")
              (VObj [("other_chars_prompt", VObj [("a", VNull)]);
                     ("chat_log", VArr [VStr "hi"])]))
    as (Hlines & Hvalid & _).
  - reflexivity.
  - vm_compute. reflexivity.
  - split; [exact Hlines|exact Hvalid].
Defined.

(** * The order of the section groups *)

Lemma styled_groups_app xs ys :
  styled_groups (xs ++ ys) = styled_groups xs ++ styled_groups ys.
Proof. apply omap_app. Qed.

Lemma labels_bind {A B : Type} (m : W A) (k : A -> W B) l1 l2 :
  styled_groups m.1 `sublist_of` l1 ->
  (forall a, styled_groups (k a).1 `sublist_of` l2) ->
  styled_groups (bindW m k).1 `sublist_of` l1 ++ l2.
Proof.
  destruct m as [out [a|e]]; simpl; intros Hm Hk.
  - specialize (Hk a). destruct (k a) as [out' r]. simpl in *.
    rewrite styled_groups_app. now apply sublist_app.
  - now apply sublist_inserts_r.
Qed.

Lemma labels_quiet_bind {A B : Type} (m : W A) (k : A -> W B) :
  styled_groups m.1 = [] -> (forall a, styled_groups (k a).1 = []) ->
  styled_groups (bindW m k).1 = [].
Proof.
  destruct m as [out [a|e]]; simpl; intros Hm Hk; [|exact Hm].
  specialize (Hk a). destruct (k a) as [out' r]. simpl in *.
  now rewrite styled_groups_app, Hm, Hk.
Qed.

Lemma log_path_quiet label c path : styled_groups (log_path label c path).1 = [].
Proof.
  unfold log_path. apply labels_quiet_bind; [reflexivity|]. now intros v.
Qed.

Lemma log_fields_quiet c path : styled_groups (log_fields c path).1 = [].
Proof.
  unfold log_fields.
  repeat (apply labels_quiet_bind; [apply log_path_quiet|intros _]).
  apply log_path_quiet.
Qed.

Lemma forW_quiet {A : Type} (xs : list A) (body : A -> W unit) :
  (forall x, styled_groups (body x).1 = []) ->
  styled_groups (forW xs body).1 = [].
Proof.
  intros Hbody. induction xs as [|x xs IH]; simpl; [reflexivity|].
  apply labels_quiet_bind; auto.
Qed.

Lemma report_section_labels c key label style :
  styled_groups (report_section c key label style).1 `sublist_of` [label].
Proof.
  unfold report_section.
  apply (labels_bind _ _ [] [label]); [reflexivity|]. intros sec.
  destruct (truthy sec); [|apply sublist_nil_l].
  apply (labels_bind _ _ [label] []); [reflexivity|]. intros _.
  rewrite labels_quiet_bind; [apply sublist_nil_l|apply log_fields_quiet|].
  now intros _.
Qed.

Lemma report_keyed_labels c key label style id_label :
  styled_groups (report_keyed c key label style id_label).1 `sublist_of` [label].
Proof.
  unfold report_keyed.
  apply (labels_bind _ _ [] [label]); [reflexivity|]. intros sec.
  apply (labels_bind _ _ [] [label]); [reflexivity|]. intros keys.
  destruct (0 <? _)%nat; [|apply sublist_nil_l].
  apply (labels_bind _ _ [label] []); [reflexivity|]. intros _.
  rewrite labels_quiet_bind; [apply sublist_nil_l|reflexivity|].
  intros sec'. apply labels_quiet_bind; [|now intros _].
  apply forW_quiet. intros id.
  apply labels_quiet_bind; [reflexivity|]. intros _.
  apply labels_quiet_bind; [apply log_fields_quiet|now intros _].
Qed.

Lemma report_chat_log_labels c :
  styled_groups (report_chat_log c).1 `sublist_of` ["%cChat Log"].
Proof.
  unfold report_chat_log.
  apply (labels_bind _ _ [] ["%cChat Log"]); [reflexivity|]. intros sec.
  destruct (truthy sec); [|apply sublist_nil_l].
  apply (labels_bind _ _ ["%cChat Log"] []); [reflexivity|]. intros _.
  rewrite labels_quiet_bind; [apply sublist_nil_l|apply log_path_quiet|].
  now intros _.
Qed.

Lemma report_verbose_labels c :
  styled_groups (report_verbose c).1 `sublist_of` section_labels.
Proof.
  unfold report_verbose, section_labels.
  apply (labels_bind _ _ ["%cCharacter Prompt"]);
    [apply report_section_labels|intros _].
  apply (labels_bind _ _ ["%cUser Prompt"]);
    [apply report_section_labels|intros _].
  apply (labels_bind _ _ ["%cWorld Prompt"]);
    [apply report_section_labels|intros _].
  apply (labels_bind _ _ ["%cOther Characters Prompts"]);
    [apply report_keyed_labels|intros _].
  apply (labels_bind _ _ ["%cPlugin Prompts"]);
    [apply report_keyed_labels|intros _].
  apply report_chat_log_labels.
Qed.

(** X20: the section groups come in a fixed order and at most once each.  When
    the debugger is enabled and the copy succeeded, the styled groups of a
    report are the top-level group followed by a selection, in this order,
    of: character, user, world, other characters, plugins, chat log; with
    verbose mode off there is none but the top-level group.  This holds of
    a report that fails as well. *)
Theorem section_groups_in_order (ToString : heap -> hvalue -> string)
  (s : settings) (now : string) (h : heap) (promptStruct chatId : hvalue)
  (copy : value) :
  enabled s = true -> JSON_roundtrip h promptStruct = Ok copy ->
  exists labels,
    styled_groups (logPromptStruct ToString s now h promptStruct chatId).1
    = ("%cPrompt Structure (Chat ID: " ++ ToString h chatId ++ ")")%string
      :: labels
    /\ labels `sublist_of` section_labels
    /\ (verboseLogging s = false -> labels = []).
Proof.
  intros Hen Hcopy. unfold logPromptStruct, logPromptStruct_body.
  rewrite Hen, Hcopy. cbn [negb]. rewrite bindW_liftW_ok, !bindW_emit.
  assert (Hverbose :
    styled_groups
      (if verboseLogging s then report_verbose (cleanObject s copy)
       else retW tt).1 `sublist_of` section_labels
    /\ (verboseLogging s = false ->
        styled_groups
          (if verboseLogging s then report_verbose (cleanObject s copy)
           else retW tt).1 = [])).
  { destruct (verboseLogging s).
    - split; [apply report_verbose_labels|discriminate].
    - split; [apply sublist_nil_l|reflexivity]. }
  destruct Hverbose as [Hsub Hquiet].
  destruct (if verboseLogging s then _ else _) as [lines [[]|e]]; simpl in *.
  - exists (styled_groups lines). unfold styled_groups at 1. simpl.
    fold (styled_groups (lines ++ [CGroupEnd])).
    rewrite styled_groups_app. simpl. rewrite app_nil_r. auto.
  - exists (styled_groups lines). unfold styled_groups at 1. simpl.
    fold (styled_groups (lines ++ [error_line e])).
    rewrite styled_groups_app. simpl. rewrite app_nil_r. auto.
Qed.

Lemma section_groups_in_order_witness :
  exists labels,
    styled_groups
      (logPromptStruct ex_ToString verbose_settings "2026-01-01T00:00:00.000Z"
         ex_prompt_heap (HRef 1%positive) (HStr "c1")).1
    = "%cPrompt Structure (Chat ID: c1)" :: labels
    /\ labels `sublist_of` section_labels
    /\ (verboseLogging verbose_settings = false -> labels = []).
Proof.
  apply (section_groups_in_order ex_ToString verbose_settings
           "2026-01-01T00:00:00.000Z" ex_prompt_heap (HRef 1%positive)
           (HStr "c1") ex_prompt_tree).
  - reflexivity.
  - vm_compute. reflexivity.
Defined.
